(** * Yes Chef: session orchestrator

    A shallow embedding of the orchestration core of the browser cooking
    assistant: the recipe catalog, its matcher and its file
    ([recipe-store.ts]), the cooking state store ([state.ts]), the timers
    ([timers.ts]), the speech gate and the recipe completion guard
    ([server.ts]), and the step-lock state machine, frame-assessment
    coercion, vision history and tool-call resolution loop
    ([assistant-browser.ts]).

    Modelling conventions.
    - A JavaScript string is a [list ascii]: a sequence of code units below
      256 (the Latin-1 range of UTF-16).  Literals are written [js "..."].
    - A JavaScript number used as a score, a ratio or a confidence is an
      exact rational ([Q]); timestamps in milliseconds are integers ([Z]).
    - Regular expressions are values of type [regex], run by a backtracking
      matcher with JavaScript's priorities (leftmost alternative first,
      greedy star).
    - Code that can throw returns [result]; mutable fields are threaded
      explicitly through records. *)

From Stdlib Require Import ZArith QArith Qminmax Qround Lqa Ascii String DecimalString List Sorted Bool Lia.
From stdpp Require Import base list gmap.
Import ListNotations.

Local Open Scope nat_scope.
Local Open Scope list_scope.

(** ** JavaScript strings *)

Module JS.

Definition js (s : string) : list ascii := list_ascii_of_string s.

Definition code (c : ascii) : nat := nat_of_ascii c.

Definition in_range (lo hi : nat) (c : ascii) : bool :=
  (lo <=? code c) && (code c <=? hi).

Definition is_char (d c : ascii) : bool := Ascii.eqb d c.

(** [\s], which is also what [trim] strips: TAB, LF, VT, FF, CR, SPACE and
    NBSP are the white space and line terminators below 256. *)
Definition is_space (c : ascii) : bool :=
  in_range 9 13 c || (code c =? 32) || (code c =? 160).

Definition is_digit (c : ascii) : bool := in_range 48 57 c.
Definition is_upper (c : ascii) : bool := in_range 65 90 c.
Definition is_lower (c : ascii) : bool := in_range 97 122 c.

(** [\w] is [[A-Za-z0-9_]]. *)
Definition is_word (c : ascii) : bool :=
  is_upper c || is_lower c || is_digit c || (code c =? 95).

(** [[a-z0-9]] *)
Definition is_lower_alnum (c : ascii) : bool := is_lower c || is_digit c.

(** [.] without the [s] flag: anything but a line terminator. *)
Definition is_dot (c : ascii) : bool := negb ((code c =? 10) || (code c =? 13)).

(** [[.!?]] *)
Definition is_terminator (c : ascii) : bool :=
  (code c =? 46) || (code c =? 33) || (code c =? 63).

(** [toLowerCase] on one code unit: A-Z, and the Latin-1 capitals
    (192-222 except the multiplication sign 215). *)
Definition lower_char (c : ascii) : ascii :=
  if is_upper c || (in_range 192 222 c && negb (code c =? 215))
  then ascii_of_nat (code c + 32) else c.

Definition toLowerCase (s : list ascii) : list ascii := map lower_char s.

Definition eqb (s t : list ascii) : bool := bool_decide (s = t).

(** A string is falsy exactly when it is empty. *)
Definition truthy (s : list ascii) : bool :=
  match s with [] => false | _ => true end.

Fixpoint trimStart (s : list ascii) : list ascii :=
  match s with
  | c :: s' => if is_space c then trimStart s' else s
  | [] => []
  end.

Definition trimEnd (s : list ascii) : list ascii := rev (trimStart (rev s)).

Definition trim (s : list ascii) : list ascii := trimEnd (trimStart s).

Definition endsWith (s : list ascii) (c : ascii) : bool :=
  match last s with Some d => is_char c d | None => false end.

(** [s.replace(/[class]/g, rep)] *)
Fixpoint replace_each (p : ascii -> bool) (rep : list ascii) (s : list ascii)
  : list ascii :=
  match s with
  | [] => []
  | c :: s' => if p c then rep ++ replace_each p rep s'
               else c :: replace_each p rep s'
  end.

(** [s.replace(/[class]+/g, rep)]: every maximal run is replaced once.
    [inrun] tells that the previous character belonged to a run. *)
Fixpoint replace_runs_go (p : ascii -> bool) (rep : list ascii) (inrun : bool)
    (s : list ascii) : list ascii :=
  match s with
  | [] => []
  | c :: s' =>
      if p c then (if inrun then [] else rep) ++ replace_runs_go p rep true s'
      else c :: replace_runs_go p rep false s'
  end.

Definition replace_runs (p : ascii -> bool) (rep : list ascii) (s : list ascii)
  : list ascii := replace_runs_go p rep false s.

(** [s.split(/[class]+/)] and, with a one-character class, [s.split(c)]
    when [runs] is false: the pieces between separators, empty pieces
    included, never the empty list. [cur] is the piece being read, reversed. *)
Fixpoint split_go (p : ascii -> bool) (runs : bool) (cur : list ascii)
    (insep : bool) (s : list ascii) : list (list ascii) :=
  match s with
  | [] => [rev cur]
  | c :: s' =>
      if p c then
        if runs && insep then split_go p runs [] true s'
        else rev cur :: split_go p runs [] true s'
      else split_go p runs (c :: cur) false s'
  end.

Definition split_runs (p : ascii -> bool) (s : list ascii) : list (list ascii) :=
  split_go p true [] false s.

Definition split_char (c : ascii) (s : list ascii) : list (list ascii) :=
  split_go (is_char c) false [] false s.

(** [xs.filter(Boolean)] on an array of strings *)
Definition filterBoolean (xs : list (list ascii)) : list (list ascii) :=
  List.filter truthy xs.

Fixpoint join (sep : list ascii) (xs : list (list ascii)) : list ascii :=
  match xs with
  | [] => []
  | [x] => x
  | x :: xs' => x ++ sep ++ join sep xs'
  end.

Fixpoint startsWith (s pre : list ascii) : bool :=
  match pre, s with
  | [], _ => true
  | d :: pre', c :: s' => Ascii.eqb d c && startsWith s' pre'
  | _ :: _, [] => false
  end.

(** [hay.includes(needle)] *)
Fixpoint includes (hay needle : list ascii) : bool :=
  startsWith hay needle ||
  match hay with
  | [] => false
  | _ :: hay' => includes hay' needle
  end.

(** [s.search(/[class]/)]: index of the first character of the class *)
Fixpoint search_class (p : ascii -> bool) (s : list ascii) : option nat :=
  match s with
  | [] => None
  | c :: s' => if p c then Some 0 else S <$> search_class p s'
  end.

(** [s.replace(/[class]+$/, "")] *)
Fixpoint drop_while (p : ascii -> bool) (s : list ascii) : list ascii :=
  match s with
  | c :: s' => if p c then drop_while p s' else s
  | [] => []
  end.

Definition strip_trailing (p : ascii -> bool) (s : list ascii) : list ascii :=
  rev (drop_while p (rev s)).

(** *** Regular expressions

    The subset of JavaScript's regular expressions the program uses, without
    the [u] and [m] flags: character classes, sequence, alternation, greedy
    star, [\b], [^] and [$]. *)

Inductive regex : Type :=
| RChar (p : ascii -> bool)
| REps
| RSeq (r1 r2 : regex)
| RAlt (r1 r2 : regex)
| RStar (r : regex)
| RWordB
| RBegin
| REnd.

Definition is_word_opt (c : option ascii) : bool :=
  match c with Some c => is_word c | None => false end.

(** [rmatch r prev s k] matches [r] at the front of [s], [prev] being the
    character before it (none at the start of the input), and hands the
    position after the match to the continuation [k]; a failing continuation
    makes the matcher backtrack.  An iteration of a star that consumes
    nothing is not taken, as in the language definition. *)
Fixpoint rmatch {A : Type} (r : regex) (prev : option ascii) (s : list ascii)
    (k : option ascii -> list ascii -> option A) : option A :=
  match r with
  | RChar p =>
      match s with
      | c :: s' => if p c then k (Some c) s' else None
      | [] => None
      end
  | REps => k prev s
  | RSeq r1 r2 => rmatch r1 prev s (fun prev' s' => rmatch r2 prev' s' k)
  | RAlt r1 r2 =>
      match rmatch r1 prev s k with
      | Some x => Some x
      | None => rmatch r2 prev s k
      end
  | RStar r1 =>
      (fix loop (n : nat) (prev : option ascii) (s : list ascii) : option A :=
         match n with
         | O => k prev s
         | S n' =>
             match rmatch r1 prev s (fun prev' s' =>
                     if length s' <? length s then loop n' prev' s' else None) with
             | Some x => Some x
             | None => k prev s
             end
         end) (S (length s)) prev s
  | RWordB =>
      if xorb (is_word_opt prev) (is_word_opt (head s)) then k prev s else None
  | RBegin => match prev with None => k prev s | Some _ => None end
  | REnd => match s with [] => k prev s | _ :: _ => None end
  end.

(** What is left of [s] after the match of [r] that JavaScript picks at
    this position. *)
Definition match_here (r : regex) (prev : option ascii) (s : list ascii)
  : option (list ascii) :=
  rmatch r prev s (fun _ rest => Some rest).

(** Leftmost match: its start index and what follows it. *)
Fixpoint exec_from (r : regex) (prev : option ascii) (s : list ascii) (i : nat)
  : option (nat * list ascii) :=
  match match_here r prev s with
  | Some rest => Some (i, rest)
  | None =>
      match s with
      | [] => None
      | c :: s' => exec_from r (Some c) s' (S i)
      end
  end.

Definition exec (r : regex) (s : list ascii) : option (nat * list ascii) :=
  exec_from r None s 0.

(** [re.test(s)] *)
Definition test (r : regex) (s : list ascii) : bool :=
  match exec r s with Some _ => true | None => false end.

(** [s.match(re)[0]] for a regex without the [g] flag *)
Definition match0 (r : regex) (s : list ascii) : option (list ascii) :=
  match exec r s with
  | Some (i, rest) => Some (take (length s - i - length rest) (drop i s))
  | None => None
  end.

(** [s.replace(re, "")] for a regex without the [g] flag *)
Definition remove_first (r : regex) (s : list ascii) : list ascii :=
  match exec r s with
  | Some (i, rest) => take i s ++ rest
  | None => s
  end.

(** [(s.match(re_g) ?? []).length]: the matches are found left to right,
    each search resuming where the previous match ended (one character
    later after an empty match). *)
Fixpoint count_matches_go (fuel : nat) (r : regex) (prev : option ascii)
    (s : list ascii) : nat :=
  match fuel with
  | O => 0
  | S fuel' =>
      match match_here r prev s with
      | Some rest =>
          if length rest <? length s then
            S (count_matches_go fuel' r (last (take (length s - length rest) s)) rest)
          else
            match s with
            | [] => 1
            | c :: s' => S (count_matches_go fuel' r (Some c) s')
            end
      | None =>
          match s with
          | [] => 0
          | c :: s' => count_matches_go fuel' r (Some c) s'
          end
      end
  end.

Definition count_matches (r : regex) (s : list ascii) : nat :=
  count_matches_go (S (length s)) r None s.

(** Notation-free builders for patterns. *)

(** One literal character of the pattern under the [i] flag: an ASCII
    letter matches in either case, code units from 128 on never match an
    ASCII letter. *)
Definition ci (c : ascii) : regex :=
  RChar (fun x =>
    Ascii.eqb x c || ((code x <? 128) && Ascii.eqb (lower_char x) (lower_char c))).

Definition lit1 (c : ascii) : regex := RChar (is_char c).

Fixpoint seq_of (f : ascii -> regex) (s : list ascii) : regex :=
  match s with
  | [] => REps
  | [c] => f c
  | c :: s' => RSeq (f c) (seq_of f s')
  end.

(** A literal word, case-insensitively and case-sensitively. *)
Definition wordi (s : string) : regex := seq_of ci (js s).
Definition word (s : string) : regex := seq_of lit1 (js s).

Fixpoint alts (rs : list regex) : regex :=
  match rs with
  | [] => RChar (fun _ => false)
  | [r] => r
  | r :: rs' => RAlt r (alts rs')
  end.

Fixpoint seqs (rs : list regex) : regex :=
  match rs with
  | [] => REps
  | [r] => r
  | r :: rs' => RSeq r (seqs rs')
  end.

Definition plus (r : regex) : regex := RSeq r (RStar r).
Definition opt (r : regex) : regex := RAlt r REps.
Definition cls (p : ascii -> bool) : regex := RChar p.

(** *** Numbers and JSON values *)

Inductive number : Type :=
| NaN
| Finite (q : Q)
| PosInfinity
| NegInfinity.

#[local] Set Warnings "-register-all".

Inductive json : Type :=
| JNull
| JBool (b : bool)
| JNum (n : number)
| JStr (s : list ascii)
| JArr (items : list json)
| JObj (fields : list (list ascii * json)).

(** [obj[key]]: [None] is [undefined]. *)
Fixpoint get (fields : list (list ascii * json)) (key : list ascii) : option json :=
  match fields with
  | [] => None
  | (k, v) :: fields' => if eqb k key then Some v else get fields' key
  end.

(** [a ?? b] *)
Definition nullish (a b : option json) : option json :=
  match a with
  | None | Some JNull => b
  | Some _ => a
  end.

Definition num_of_Z (z : Z) : json := JNum (Finite (inject_Z z)).

(** Code that can throw. *)
Inductive result (A : Type) : Type :=
| Ok (a : A)
| Throw (message : list ascii).
Arguments Ok {A} a.
Arguments Throw {A} message.

Definition bind {A B : Type} (m : result A) (f : A -> result B) : result B :=
  match m with
  | Ok a => f a
  | Throw e => Throw e
  end.

Definition quote : list ascii := ["034"%char].

End JS.

Import JS.

#[global] Instance result_ret : MRet result := fun _ a => Ok a.
#[global] Instance result_bind : MBind result := fun _ _ f m => bind m f.

(** ** The recipe catalog ([recipe-store.ts]) *)

Module RecipeStore.

(** An entry of the catalog. [timesCooked] is kept as a whole number; in
    the program it is a double, which agrees with it up to 2^53 and can also
    be [NaN] or infinite when the file says so. *)
Record StoredRecipe : Type := {
  dish : list ascii;
  dishKey : list ascii;
  recipe : list ascii;
  completedAt : list ascii;
  timesCooked : Z
}.

Inductive MatchType : Type := exact | fuzzy | none.

Record RecipeLookupResult : Type := {
  found : bool;
  query : list ascii;
  matchType : MatchType;
  lookup_recipe : option StoredRecipe
}.

Definition normalizeDishKey (input : list ascii) : list ascii :=
  replace_runs is_space (js " ")
    (trim
       (replace_runs (fun c => negb (is_lower_alnum c)) (js " ")
          (replace_each (is_char "'") [] (toLowerCase input)))).

Definition tokenizeDishKey (input : list ascii) : list (list ascii) :=
  let key := normalizeDishKey input in
  if negb (truthy key) then []
  else filterBoolean (split_char " " key).

Definition Qltb (a b : Q) : bool := negb (Qle_bool b a).

(** The number of query tokens that the candidate's token set has. *)
Definition shared_tokens (queryTokens candidateTokens : list (list ascii)) : nat :=
  let candidateTokenSet : gset (list ascii) := list_to_set candidateTokens in
  length (List.filter (fun token => bool_decide (token ∈ candidateTokenSet)) queryTokens).

Definition ratio (a b : nat) : Q := inject_Z (Z.of_nat a) / inject_Z (Z.of_nat b).

Definition prefixBonus (queryTokens candidateTokens : list (list ascii)) : Q :=
  match head candidateTokens, head queryTokens with
  | Some c, Some q => if truthy c && truthy q && eqb c q then 8 # 100 else 0
  | _, _ => 0
  end.

(** [scoreDishMatch] in exact arithmetic. The program computes in doubles,
    where a sum such as 0.72 + 0.08 falls short of 0.8 by one unit in the
    last place: two scores that are equal here can differ there. *)
Definition scoreDishMatch (queryKey candidateKey : list ascii) : Q :=
  if negb (truthy queryKey) || negb (truthy candidateKey) then 0
  else if eqb queryKey candidateKey then 1
  else if includes candidateKey queryKey || includes queryKey candidateKey
  then 95 # 100
  else
    let queryTokens := tokenizeDishKey queryKey in
    let candidateTokens := tokenizeDishKey candidateKey in
    if (length queryTokens =? 0) || (length candidateTokens =? 0) then 0
    else
      let shared := shared_tokens queryTokens candidateTokens in
      if shared =? 0 then 0
      else
        let overlap := ratio shared (Nat.min (length queryTokens) (length candidateTokens)) in
        let coverage := ratio shared (length queryTokens) in
        Qmin 1 (Qmax overlap (coverage * (9 # 10))
                + prefixBonus queryTokens candidateTokens).

(** The loop of [findBestFuzzyDishMatch]: a candidate replaces the best one
    only with a strictly greater score. *)
Fixpoint best_loop (queryKey : list ascii) (recipes : list StoredRecipe)
    (bestScore : Q) (bestRecipe : option StoredRecipe) : Q * option StoredRecipe :=
  match recipes with
  | [] => (bestScore, bestRecipe)
  | candidate :: rest =>
      let score := scoreDishMatch queryKey (dishKey candidate) in
      if Qltb bestScore score
      then best_loop queryKey rest score (Some candidate)
      else best_loop queryKey rest bestScore bestRecipe
  end.

Definition findBestFuzzyDishMatch (queryKey : list ascii)
    (recipes : list StoredRecipe) : option StoredRecipe :=
  let '(bestScore, bestRecipe) := best_loop queryKey recipes 0 None in
  if Qltb bestScore (62 # 100) then None
  else bestRecipe.

Definition has_key (key : list ascii) (entry : StoredRecipe) : bool :=
  eqb (dishKey entry) key.

(** [findByDish] on the catalog as read from the file *)
Definition findByDish (recipes : list StoredRecipe) (d : list ascii)
  : option StoredRecipe :=
  let key := normalizeDishKey d in
  if negb (truthy key) then None
  else List.find (has_key key) recipes.

Definition lookupByDish (recipes : list StoredRecipe) (dishQuery : list ascii)
  : RecipeLookupResult :=
  let query := trim dishQuery in
  let queryKey := normalizeDishKey query in
  if negb (truthy queryKey) then
    {| found := false; query := query; matchType := none; lookup_recipe := None |}
  else
    match List.find (has_key queryKey) recipes with
    | Some e =>
        {| found := true; query := query; matchType := exact; lookup_recipe := Some e |}
    | None =>
        match findBestFuzzyDishMatch queryKey recipes with
        | Some f =>
            {| found := true; query := query; matchType := fuzzy; lookup_recipe := Some f |}
        | None =>
            {| found := false; query := query; matchType := none; lookup_recipe := None |}
        end
    end.

Section Save.

(** [a.localeCompare(b, "en")], which the program takes from the runtime. *)
Variable localeCompare : list ascii -> list ascii -> comparison.

Fixpoint insert_sorted (x : StoredRecipe) (l : list StoredRecipe) : list StoredRecipe :=
  match l with
  | [] => [x]
  | y :: l' =>
      match localeCompare (dish x) (dish y) with
      | Gt => y :: insert_sorted x l'
      | _ => x :: l
      end
  end.

(** [recipes.sort((a, b) => a.dish.localeCompare(b.dish, "en"))]: a stable sort. *)
Definition sort_by_dish (l : list StoredRecipe) : list StoredRecipe :=
  fold_right insert_sorted [] l.

Fixpoint findIndex (f : StoredRecipe -> bool) (l : list StoredRecipe) : option nat :=
  match l with
  | [] => None
  | y :: l' => if f y then Some 0 else S <$> findIndex f l'
  end.

(** [saveCompletedRecipe]: the new catalog and the saved entry; [now] is
    [new Date().toISOString()]. *)
Definition saveCompletedRecipe (recipes : list StoredRecipe) (now : list ascii)
    (input_dish input_recipe : list ascii)
  : result (list StoredRecipe * StoredRecipe) :=
  let d := trim input_dish in
  let r := trim input_recipe in
  if negb (truthy d) || negb (truthy r) then
    Throw (js "Both dish and recipe are required to save a completed recipe.")
  else
    let key := normalizeDishKey d in
    match findIndex (has_key key) recipes with
    | Some existingIndex =>
        let cooked :=
          match recipes !! existingIndex with
          | Some existing => (timesCooked existing + 1)%Z
          | None => 1%Z
          end in
        let saved := {| dish := d; dishKey := key; recipe := r;
                        completedAt := now; timesCooked := cooked |} in
        Ok (sort_by_dish (<[existingIndex := saved]> recipes), saved)
    | None =>
        let saved := {| dish := d; dishKey := key; recipe := r;
                        completedAt := now; timesCooked := 1 |} in
        Ok (sort_by_dish (recipes ++ [saved]), saved)
    end.

End Save.

End RecipeStore.

(** ** The cooking state store ([state.ts]) *)

Module State.

Inductive ConversationRole : Type := system | user | assistant | tool.

(** The [timestamp] of an entry, a reading of the wall clock, is left out. *)
Record ConversationEntry : Type := {
  role : ConversationRole;
  content : list ascii
}.

(** [startedAt] and [endsAt] are ISO dates in the program; they are kept as
    the milliseconds they stand for. *)
Record ActiveTimerSnapshot : Type := {
  label : list ascii;
  durationSeconds : Z;
  startedAt : Z;
  endsAt : Z
}.

Record CookingState : Type := {
  originalPlan : list ascii;
  currentDishes : list (list ascii);
  completedSteps : list (list ascii);
  activeTimers : list ActiveTimerSnapshot;
  recentObservations : list (list ascii);
  availableIngredients : gmap (list ascii) bool;
  conversationHistory : list ConversationEntry
}.

Definition MAX_HISTORY_ITEMS : nat := 60.
Definition MAX_OBSERVATIONS : nat := 30.

(** [xs.slice(-n)] *)
Definition slice_last {A : Type} (n : nat) (xs : list A) : list A :=
  drop (length xs - n) xs.

Definition createEmptyState : CookingState := {|
  originalPlan := [];
  currentDishes := [];
  completedSteps := [];
  activeTimers := [];
  recentObservations := [];
  availableIngredients := ∅;
  conversationHistory := []
|}.

Definition reset (st : CookingState) : CookingState := createEmptyState.

Definition setOriginalPlan (plan : list ascii) (st : CookingState) : CookingState := {|
  originalPlan := plan;
  currentDishes := currentDishes st;
  completedSteps := completedSteps st;
  activeTimers := activeTimers st;
  recentObservations := recentObservations st;
  availableIngredients := availableIngredients st;
  conversationHistory := conversationHistory st
|}.

Definition addCompletedStep (step : list ascii) (st : CookingState) : CookingState := {|
  originalPlan := originalPlan st;
  currentDishes := currentDishes st;
  completedSteps := completedSteps st ++ [step];
  activeTimers := activeTimers st;
  recentObservations := recentObservations st;
  availableIngredients := availableIngredients st;
  conversationHistory := conversationHistory st
|}.

Definition setActiveTimers (timers : list ActiveTimerSnapshot) (st : CookingState)
  : CookingState := {|
  originalPlan := originalPlan st;
  currentDishes := currentDishes st;
  completedSteps := completedSteps st;
  activeTimers := timers;
  recentObservations := recentObservations st;
  availableIngredients := availableIngredients st;
  conversationHistory := conversationHistory st
|}.

Definition addObservation (observation : list ascii) (st : CookingState)
  : CookingState :=
  if negb (truthy (trim observation)) then st
  else
    let pushed := recentObservations st ++ [trim observation] in
    {| originalPlan := originalPlan st;
       currentDishes := currentDishes st;
       completedSteps := completedSteps st;
       activeTimers := activeTimers st;
       recentObservations :=
         if MAX_OBSERVATIONS <? length pushed
         then slice_last MAX_OBSERVATIONS pushed else pushed;
       availableIngredients := availableIngredients st;
       conversationHistory := conversationHistory st |}.

Definition updatePlan (changes : list ascii) (st : CookingState) : CookingState :=
  if negb (truthy (trim changes)) then st
  else if negb (truthy (originalPlan st)) then setOriginalPlan (trim changes) st
  else
    setOriginalPlan
      (originalPlan st ++ ["010"%char; "010"%char] ++ js "Update: " ++ trim changes) st.

Definition recordConversation (r : ConversationRole) (c : list ascii)
    (st : CookingState) : CookingState :=
  let value := trim c in
  if negb (truthy value) then st
  else
    let pushed := conversationHistory st ++ [{| role := r; content := value |}] in
    {| originalPlan := originalPlan st;
       currentDishes := currentDishes st;
       completedSteps := completedSteps st;
       activeTimers := activeTimers st;
       recentObservations := recentObservations st;
       availableIngredients := availableIngredients st;
       conversationHistory :=
         if MAX_HISTORY_ITEMS <? length pushed
         then slice_last MAX_HISTORY_ITEMS pushed else pushed |}.

End State.

(** Decimal rendering of an integer, as in a template string. *)
Definition decimal (z : Z) : list ascii :=
  js (DecimalString.NilZero.string_of_int (Z.to_int z)).

(** [/\b(stop|danger|urgent|fire|smoke|burn|hot oil|knife|raw chicken|gas)\b/i],
    written once in [server.ts] and once in [assistant-browser.ts]. *)
Definition urgent_regex : regex :=
  seqs [RWordB;
        alts [wordi "stop"; wordi "danger"; wordi "urgent"; wordi "fire";
              wordi "smoke"; wordi "burn"; wordi "hot oil"; wordi "knife";
              wordi "raw chicken"; wordi "gas"];
        RWordB].

(** [/\?\s*$/] *)
Definition question_regex : regex :=
  seqs [lit1 "?"; RStar (cls is_space); REnd].

(** ** The server ([server.ts]) *)

Module Server.

Import RecipeStore State.

Inductive Priority : Type := normal | urgent.

(** [OverlayUpdate] and [InstructionPanel] of [assistant-browser.ts] *)
Record OverlayUpdate : Type := {
  text : list ascii;
  priority : Priority;
  ttlSeconds : option number
}.

Record InstructionPanel : Type := {
  cooking : list ascii;
  nextStep : list ascii
}.

(** What is broadcast to the clients; audio bytes and wall-clock stamps are
    left out. *)
Inductive ServerEvent : Type :=
| speech (t : list ascii)
| overlay_set (o : OverlayUpdate)
| overlay_clear
| panel_set (p : InstructionPanel)
| panel_clear
| state_event (st : CookingState)
| error (message : list ascii)
| timer_fired (l firedAt : list ascii).

(** The settings read from the environment by [getNumberEnv] and
    [getBooleanEnv]. *)
Record Config : Type := {
  requireVoice : bool;
  speechRepeatCooldownMs : Q;
  questionRepeatCooldownMs : Q;
  minQuestionGapMs : Q
}.

Definition defaultConfig : Config := {|
  requireVoice := true;
  speechRepeatCooldownMs := 120000;
  questionRepeatCooldownMs := 180000;
  minQuestionGapMs := 600000
|}.

(** The variables of [main], the recipe file and the events sent so far. *)
Record ServerState : Type := {
  overlay : option OverlayUpdate;
  panel : option InstructionPanel;
  lastSpokenTextKey : list ascii;
  lastSpokenAtMs : Z;
  waitingForUserAnswer : bool;
  lastQuestionAtMs : Z;
  lastQuestionText : list ascii;
  activeDishKey : list ascii;
  recipeStoredForSession : bool;
  completionConfirmedForSession : bool;
  recipes : list StoredRecipe;
  broadcasts : list ServerEvent
}.

Definition initialServer (file : list StoredRecipe) : ServerState := {|
  overlay := None;
  panel := None;
  lastSpokenTextKey := [];
  lastSpokenAtMs := 0;
  waitingForUserAnswer := false;
  lastQuestionAtMs := 0;
  lastQuestionText := [];
  activeDishKey := [];
  recipeStoredForSession := false;
  completionConfirmedForSession := false;
  recipes := file;
  broadcasts := []
|}.

Definition broadcast (e : ServerEvent) (sv : ServerState) : ServerState := {|
  overlay := overlay sv;
  panel := panel sv;
  lastSpokenTextKey := lastSpokenTextKey sv;
  lastSpokenAtMs := lastSpokenAtMs sv;
  waitingForUserAnswer := waitingForUserAnswer sv;
  lastQuestionAtMs := lastQuestionAtMs sv;
  lastQuestionText := lastQuestionText sv;
  activeDishKey := activeDishKey sv;
  recipeStoredForSession := recipeStoredForSession sv;
  completionConfirmedForSession := completionConfirmedForSession sv;
  recipes := recipes sv;
  broadcasts := broadcasts sv ++ [e]
|}.

Definition with_overlay (o : option OverlayUpdate) (sv : ServerState) : ServerState := {|
  overlay := o;
  panel := panel sv;
  lastSpokenTextKey := lastSpokenTextKey sv;
  lastSpokenAtMs := lastSpokenAtMs sv;
  waitingForUserAnswer := waitingForUserAnswer sv;
  lastQuestionAtMs := lastQuestionAtMs sv;
  lastQuestionText := lastQuestionText sv;
  activeDishKey := activeDishKey sv;
  recipeStoredForSession := recipeStoredForSession sv;
  completionConfirmedForSession := completionConfirmedForSession sv;
  recipes := recipes sv;
  broadcasts := broadcasts sv
|}.

Definition with_panel (p : option InstructionPanel) (sv : ServerState) : ServerState := {|
  overlay := overlay sv;
  panel := p;
  lastSpokenTextKey := lastSpokenTextKey sv;
  lastSpokenAtMs := lastSpokenAtMs sv;
  waitingForUserAnswer := waitingForUserAnswer sv;
  lastQuestionAtMs := lastQuestionAtMs sv;
  lastQuestionText := lastQuestionText sv;
  activeDishKey := activeDishKey sv;
  recipeStoredForSession := recipeStoredForSession sv;
  completionConfirmedForSession := completionConfirmedForSession sv;
  recipes := recipes sv;
  broadcasts := broadcasts sv
|}.

(** The timer that clears an overlay after its time to live runs outside
    the request that set it and is not modelled, and the date at which the
    overlay expires is left out of the state. [setOverlay] here is the change
    of the state; [outputs_setOverlay] below is the function of the server,
    which can throw. *)
Definition clearOverlay (sv : ServerState) : ServerState :=
  broadcast overlay_clear (with_overlay None sv).

Definition setOverlay (update : OverlayUpdate) (sv : ServerState) : ServerState :=
  broadcast (overlay_set update) (with_overlay (Some update) sv).

Definition setPanel (next : InstructionPanel) (sv : ServerState) : ServerState :=
  broadcast (panel_set next) (with_panel (Some next) sv).

Definition clearPanel (sv : ServerState) : ServerState :=
  broadcast panel_clear (with_panel None sv).

Definition publishState (st : CookingState) (sv : ServerState) : ServerState :=
  broadcast (state_event st) sv.

(** *** [userConfirmedCompletion] *)

Definition negated_completion_regex : regex :=
  seqs [RWordB;
        alts [wordi "not"; wordi "isn't"; wordi "isnt"; wordi "don't"; wordi "dont"];
        plus (cls is_space);
        alts [wordi "done"; wordi "finished"; wordi "complete"; wordi "completed"];
        RWordB].

Definition completion_regex : regex :=
  seqs [RWordB;
        alts [wordi "done"; wordi "finished"; wordi "all done"; wordi "complete";
              wordi "completed"; wordi "that's it"; wordi "thats it";
              seqs [wordi "we"; alts [opt (ci "'"); wordi " a"]; wordi "re done"];
              wordi "it's done"; wordi "its done"];
        RWordB].

Definition asked_completion_regex : regex :=
  seqs [RWordB;
        alts [wordi "done"; wordi "finished"; wordi "complete"; wordi "completed";
              wordi "wrap up"; wordi "stop now"];
        RWordB].

Definition affirmative_regex : regex :=
  seqs [RBegin;
        alts [wordi "yes"; wordi "yep"; wordi "yeah"; wordi "correct"; wordi "sure";
              wordi "ok"; wordi "okay"; wordi "affirmative"];
        RStar (cls (fun c => is_char "." c || is_char "!" c));
        REnd].

Definition userConfirmedCompletion (message : list ascii) (waitingForAnswer : bool)
    (lastQuestion : list ascii) : bool :=
  let normalized := toLowerCase (trim message) in
  if negb (truthy normalized) then false
  else if test negated_completion_regex normalized then false
  else if test completion_regex normalized then true
  else if negb waitingForAnswer then false
  else
    let askedAboutCompletion := test asked_completion_regex lastQuestion in
    let affirmative := test affirmative_regex normalized in
    askedAboutCompletion && affirmative.

(** The state changes of [POST /api/user-message] that precede the
    assistant's turn; [None] is the 400 answer to an empty message. *)
Definition onUserMessage (body_message : list ascii) (sv : ServerState)
  : option (list ascii * ServerState) :=
  let message := trim body_message in
  if negb (truthy message) then None
  else
    Some (message,
      {| overlay := overlay sv;
         panel := panel sv;
         lastSpokenTextKey := lastSpokenTextKey sv;
         lastSpokenAtMs := lastSpokenAtMs sv;
         waitingForUserAnswer := false;
         lastQuestionAtMs := lastQuestionAtMs sv;
         lastQuestionText := [];
         activeDishKey := activeDishKey sv;
         recipeStoredForSession := recipeStoredForSession sv;
         completionConfirmedForSession :=
           if userConfirmedCompletion message (waitingForUserAnswer sv)
                (lastQuestionText sv)
           then true else completionConfirmedForSession sv;
         recipes := recipes sv;
         broadcasts := broadcasts sv |}).

(** The state changes of [POST /api/session/start] that follow the
    assistant's first turn. *)
Definition onSessionStarted (recipeIdea : list ascii) (sv : ServerState)
  : ServerState := {|
  overlay := overlay sv;
  panel := panel sv;
  lastSpokenTextKey := lastSpokenTextKey sv;
  lastSpokenAtMs := lastSpokenAtMs sv;
  waitingForUserAnswer := false;
  lastQuestionAtMs := lastQuestionAtMs sv;
  lastQuestionText := [];
  activeDishKey := normalizeDishKey recipeIdea;
  recipeStoredForSession := false;
  completionConfirmedForSession := false;
  recipes := recipes sv;
  broadcasts := broadcasts sv
|}.

(** The server's part of [POST /api/session/reset]. *)
Definition onSessionReset (sv : ServerState) : ServerState :=
  clearPanel (clearOverlay {|
    overlay := overlay sv;
    panel := panel sv;
    lastSpokenTextKey := [];
    lastSpokenAtMs := 0;
    waitingForUserAnswer := false;
    lastQuestionAtMs := 0;
    lastQuestionText := [];
    activeDishKey := [];
    recipeStoredForSession := false;
    completionConfirmedForSession := false;
    recipes := recipes sv;
    broadcasts := broadcasts sv
  |}).

(** *** The speech gate of [outputs.speak] *)

(** [/\b(what|which)\b.*\b(kind|type|brand|milk|flour|pan|oil|butter|sugar|salt)\b/i] *)
Definition preference_regex : regex :=
  seqs [RWordB; alts [wordi "what"; wordi "which"]; RWordB;
        RStar (cls is_dot);
        RWordB;
        alts [wordi "kind"; wordi "type"; wordi "brand"; wordi "milk"; wordi "flour";
              wordi "pan"; wordi "oil"; wordi "butter"; wordi "sugar"; wordi "salt"];
        RWordB].

Definition textKeyOf (t : list ascii) : list ascii :=
  toLowerCase (trim (replace_runs is_space (js " ") t)).

Definition isQuestion (t : list ascii) : bool := test question_regex t.
Definition isUrgent (t : list ascii) : bool := test urgent_regex t.
Definition isRoutinePreferenceQuestion (t : list ascii) : bool :=
  isQuestion t && test preference_regex t.

(** [a - b < limit] on a difference of timestamps *)
Definition within (a b : Z) (limit : Q) : bool :=
  Qltb (inject_Z (a - b)) limit.

(** The early returns of [outputs.speak], in their order. *)
Inductive Suppression : Type :=
| duplicate_recent
| awaiting_answer
| question_repeat_too_soon
| routine_preference_question
| question_gap_too_short.

Definition shouldSuppress (cfg : Config) (now : Z) (t : list ascii) (sv : ServerState)
  : option Suppression :=
  if eqb (textKeyOf t) (lastSpokenTextKey sv)
     && within now (lastSpokenAtMs sv) (speechRepeatCooldownMs cfg)
  then Some duplicate_recent
  else if waitingForUserAnswer sv && negb (isUrgent t)
  then Some awaiting_answer
  else if isQuestion t && waitingForUserAnswer sv
          && within now (lastQuestionAtMs sv) (questionRepeatCooldownMs cfg)
  then Some question_repeat_too_soon
  else if isRoutinePreferenceQuestion t
  then Some routine_preference_question
  else if isQuestion t && negb (isUrgent t)
          && within now (lastQuestionAtMs sv) (minQuestionGapMs cfg)
  then Some question_gap_too_short
  else None.

Definition voiced (now : Z) (t : list ascii) (sv : ServerState) : ServerState :=
  let sv1 := broadcast (speech t) sv in
  {| overlay := overlay sv1;
     panel := panel sv1;
     lastSpokenTextKey := textKeyOf t;
     lastSpokenAtMs := now;
     waitingForUserAnswer := if isQuestion t then true else waitingForUserAnswer sv1;
     lastQuestionAtMs := if isQuestion t then now else lastQuestionAtMs sv1;
     lastQuestionText := if isQuestion t then t else lastQuestionText sv1;
     activeDishKey := activeDishKey sv1;
     recipeStoredForSession := recipeStoredForSession sv1;
     completionConfirmedForSession := completionConfirmedForSession sv1;
     recipes := recipes sv1;
     broadcasts := broadcasts sv1 |}.

(** [outputs.speak]: [now] is [Date.now()], [synthesized] what
    [tts.synthesize(text)] does when it is reached. *)
Definition speak (cfg : Config) (now : Z) (synthesized : result unit)
    (message : list ascii) (sv : ServerState) : result unit * ServerState :=
  let t := trim message in
  if negb (truthy t) then (Ok tt, sv)
  else
    match shouldSuppress cfg now t sv with
    | Some _ => (Ok tt, sv)
    | None =>
        match synthesized with
        | Ok _ => (Ok tt, voiced now t sv)
        | Throw errText =>
            if requireVoice cfg
            then (Throw (js "Voice output failed: " ++ errText), sv)
            else (Ok tt, broadcast (error (js "Voice output failed: " ++ errText)) sv)
        end
    end.

(** *** [completeRecipe] and [lookupRecipe] *)

Definition recipe_json (r : StoredRecipe) : json :=
  JObj [(js "dish", JStr (dish r));
        (js "dishKey", JStr (dishKey r));
        (js "recipe", JStr (recipe r));
        (js "completedAt", JStr (completedAt r));
        (js "timesCooked", num_of_Z (timesCooked r))].

Definition refused (message : list ascii) : list (list ascii * json) :=
  [(js "ok", JBool false); (js "saved", JBool false); (js "error", JStr message)].

Definition after_save (file : list StoredRecipe) (sv : ServerState) : ServerState := {|
  overlay := overlay sv;
  panel := panel sv;
  lastSpokenTextKey := lastSpokenTextKey sv;
  lastSpokenAtMs := lastSpokenAtMs sv;
  waitingForUserAnswer := waitingForUserAnswer sv;
  lastQuestionAtMs := lastQuestionAtMs sv;
  lastQuestionText := lastQuestionText sv;
  activeDishKey := activeDishKey sv;
  recipeStoredForSession := true;
  completionConfirmedForSession := false;
  recipes := file;
  broadcasts := broadcasts sv
|}.

Section CompleteRecipe.

Variable localeCompare : list ascii -> list ascii -> comparison.

(** [completeRecipe]: [nowIso] is the date the store stamps the entry with.
    The result is the object handed back to the tool call. *)
Definition completeRecipe (nowIso : list ascii) (payload_dish payload_recipe : list ascii)
    (st : CookingState) (sv : ServerState)
  : result (list (list ascii * json)) * CookingState * ServerState :=
  let d := trim payload_dish in
  let r := trim payload_recipe in
  if negb (truthy d) || negb (truthy r) then
    (Ok (refused (js "Both dish and recipe are required.")), st, sv)
  else
    let key := normalizeDishKey d in
    if negb (truthy key) then
      (Ok (refused (js "Could not normalize dish name.")), st, sv)
    else if negb (truthy (activeDishKey sv)) then
      (Ok (refused (js "No active cooking session.")), st, sv)
    else if negb (eqb key (activeDishKey sv)) then
      (Ok (refused (js "Dish " ++ quote ++ d ++ quote
                    ++ js " does not match active session dish.")), st, sv)
    else if recipeStoredForSession sv then
      (Ok [(js "ok", JBool true); (js "saved", JBool false);
           (js "reason", JStr (js "already_saved_for_session"))], st, sv)
    else if negb (completionConfirmedForSession sv) then
      (Ok (refused (js "Recipe can only be saved after user confirms the dish is finished.")),
       st, sv)
    else
      match saveCompletedRecipe localeCompare (recipes sv) nowIso d r with
      | Throw e => (Throw e, st, sv)
      | Ok (file, saved) =>
          (Ok [(js "ok", JBool true); (js "saved", JBool true);
               (js "recipe", recipe_json saved)],
           addObservation
             (js "Saved completed recipe " ++ quote ++ dish saved ++ quote ++ js " ("
              ++ decimal (timesCooked saved) ++ js " total cook"
              ++ (if (timesCooked saved =? 1)%Z then [] else js "s") ++ js ").") st,
           after_save file sv)
      end.

End CompleteRecipe.

Definition matchType_string (m : MatchType) : list ascii :=
  match m with
  | exact => js "exact"
  | fuzzy => js "fuzzy"
  | none => js "none"
  end.

Definition lookupRecipe (dishInput : list ascii) (sv : ServerState)
  : list (list ascii * json) :=
  let d := trim dishInput in
  if negb (truthy d) then
    [(js "found", JBool false); (js "query", JStr dishInput);
     (js "matchType", JStr (js "none")); (js "error", JStr (js "dish is required"))]
  else
    let lookup := lookupByDish (recipes sv) d in
    match found lookup, lookup_recipe lookup with
    | true, Some r =>
        [(js "found", JBool true); (js "query", JStr d);
         (js "matchType", JStr (matchType_string (matchType lookup)));
         (js "dish", JStr (dish r));
         (js "dishKey", JStr (dishKey r));
         (js "recipe", JStr (recipe r));
         (js "completedAt", JStr (completedAt r));
         (js "timesCooked", num_of_Z (timesCooked r))]
    | _, _ =>
        [(js "found", JBool false); (js "query", JStr d);
         (js "matchType", JStr (js "none"))]
    end.

End Server.

(** ** The assistant ([assistant-browser.ts]) *)

Module Assistant.

Import RecipeStore State Server.

Record VisionFrame : Type := {
  takenAt : list ascii;
  mimeType : list ascii;
  base64 : list ascii
}.

Inductive StepStatus : Type := not_started | in_progress | complete | unclear.

Record FrameAssessment : Type := {
  observation : list ascii;
  stepStatus : StepStatus;
  confidence : Q;
  reason : list ascii
}.

Record VisionHistoryEntry : Type := {
  takenAtMs : Z;
  entry_observation : list ascii;
  entry_stepStatus : StepStatus
}.

Definition MAX_VISION_HISTORY : nat := 10.
Definition HISTORY_PROMPT_WINDOW : nat := 6.
Definition ROUTINE_SPEAK_MIN_GAP_MS : Z := 45000.

Definition STOPWORDS : gset (list ascii) :=
  list_to_set (js <$>
    ["a"; "an"; "and"; "are"; "as"; "at"; "be"; "by"; "for"; "from"; "has";
     "have"; "in"; "into"; "is"; "it"; "of"; "on"; "or"; "that"; "the"; "then";
     "to"; "up"; "with"; "your"; "you"]%string).

(** The fields of [BrowserCookingAssistant]; the promise queue is the order
    in which the events are run. *)
Record AssistantState : Type := {
  previousResponseId : option (list ascii);
  currentDish : list ascii;
  currentStep : option (list ascii);
  pendingNextStep : option (list ascii);
  latestFrameAssessment : option FrameAssessment;
  frameAllowsStepAdvance : bool;
  visionHistory : list VisionHistoryEntry;
  completedStepKeys : gset (list ascii);
  lastRoutineSpeakAtMs : Z
}.

Definition initialAssistant : AssistantState := {|
  previousResponseId := None;
  currentDish := [];
  currentStep := None;
  pendingNextStep := None;
  latestFrameAssessment := None;
  frameAllowsStepAdvance := true;
  visionHistory := [];
  completedStepKeys := ∅;
  lastRoutineSpeakAtMs := 0
|}.

Definition resetSession (a : AssistantState) : AssistantState := initialAssistant.

(** A string or [null] in a condition *)
Definition truthy_opt (s : option (list ascii)) : bool :=
  match s with Some s => truthy s | None => false end.

(** *** Step keys and token overlap *)

Definition normalizeStepKey (input : list ascii) : list ascii :=
  trim
    (replace_runs is_space (js " ")
       (replace_each (fun c => negb (is_lower_alnum c || is_space c)) (js " ")
          (toLowerCase input))).

(** [s.slice(0, -n)] *)
Definition drop_end (n : nat) (s : list ascii) : list ascii :=
  take (length s - n) s.

Definition endsWithStr (s suffix : list ascii) : bool :=
  startsWith (rev s) (rev suffix).

Definition normalizeToken (token : list ascii) : list ascii :=
  let normalized := trim token in
  if length normalized <=? 2 then []
  else if endsWithStr normalized (js "ing") && (5 <? length normalized)
  then drop_end 3 normalized
  else if endsWithStr normalized (js "ed") && (4 <? length normalized)
  then drop_end 2 normalized
  else if endsWithStr normalized (js "es") && (4 <? length normalized)
  then drop_end 2 normalized
  else if endsWithStr normalized (js "s") && (3 <? length normalized)
  then drop_end 1 normalized
  else normalized.

Fixpoint tokenize_loop (raw : list (list ascii)) : list (list ascii) :=
  match raw with
  | [] => []
  | token :: raw' =>
      let normalized := normalizeToken token in
      if negb (truthy normalized) || bool_decide (normalized ∈ STOPWORDS)
      then tokenize_loop raw'
      else normalized :: tokenize_loop raw'
  end.

Definition tokenize (t : list ascii) : list (list ascii) :=
  tokenize_loop
    (filterBoolean (split_runs (fun c => negb (is_lower_alnum c)) (toLowerCase t))).

Definition tokenOverlap (left right : list ascii) : Q :=
  let leftTokens : gset (list ascii) := list_to_set (tokenize left) in
  let rightTokens : gset (list ascii) := list_to_set (tokenize right) in
  if (size leftTokens =? 0) || (size rightTokens =? 0) then 0
  else
    let matches := size (filter (fun token => token ∈ rightTokens) leftTokens) in
    ratio matches (Nat.min (size leftTokens) (size rightTokens)).

Definition isSameStep (left right : list ascii) : bool :=
  let leftKey := normalizeStepKey left in
  let rightKey := normalizeStepKey right in
  if negb (truthy leftKey) || negb (truthy rightKey) then false
  else if eqb leftKey rightKey then true
  else Qle_bool (65 # 100) (tokenOverlap leftKey rightKey).

Definition isUrgentMessage (message : list ascii) : bool := test urgent_regex message.

Definition isQuestion (message : list ascii) : bool := test question_regex message.

(** *** Step sanitation *)

(** [/^next\s*step\s*[:\-]\s*/i] *)
Definition next_step_label : regex :=
  seqs [RBegin; wordi "next"; RStar (cls is_space); wordi "step"; RStar (cls is_space);
        cls (fun c => is_char ":" c || is_char "-" c); RStar (cls is_space)].

(** [/^step\s*\d+\s*[:.)-]?\s*/i] *)
Definition step_number_label : regex :=
  seqs [RBegin; wordi "step"; RStar (cls is_space); plus (cls is_digit);
        RStar (cls is_space);
        opt (cls (fun c => is_char ":" c || is_char "." c || is_char ")" c || is_char "-" c));
        RStar (cls is_space)].

(** [/^[-*•]\s+/]; the bullet U+2022 is not a code unit below 256. *)
Definition bullet_label : regex :=
  seqs [RBegin; cls (fun c => is_char "-" c || is_char "*" c); plus (cls is_space)].

Definition endsWithTerminator (s : list ascii) : bool :=
  endsWith s "." || endsWith s "!" || endsWith s "?".

(** [step.replace(/[.!?]+$/g, "").split(/\s+/).filter(Boolean)] *)
Definition stepWords (step : list ascii) : list (list ascii) :=
  filterBoolean (split_runs is_space (strip_trailing is_terminator step)).

Definition sanitizePanelStep (input : list ascii) : list ascii :=
  let firstLine :=
    List.find truthy
      (map trim (split_char "010" (replace_each (is_char "013") ["010"%char] input))) in
  match firstLine with
  | None => []
  | Some firstLine =>
      let step :=
        trim (remove_first bullet_label
                (remove_first step_number_label
                   (remove_first next_step_label firstLine))) in
      if negb (truthy step) then []
      else
        let step :=
          match search_class is_terminator step with
          | Some sentenceBoundary => trim (take (sentenceBoundary + 1) step)
          | None => step
          end in
        let step := if endsWithTerminator step then step else step ++ js "." in
        let words := stepWords step in
        if 12 <? length words
        then join (js " ") (take 12 words) ++ js "."
        else step
  end.

(** [text.split(/\s+/).filter(Boolean).length] *)
Definition wordCount (t : list ascii) : nat :=
  length (filterBoolean (split_runs is_space t)).

Definition isStepTooBroad (step : list ascii) : bool :=
  let t := toLowerCase step in
  if negb (truthy (trim t)) then true
  else if test (seqs [RWordB; word "analy"; alts [word "s"; word "z"];
                      alts [word "e"; word "ing"; word "ed"; word "is"]; RWordB]) t
  then true
  else if test (seqs [RWordB; word "ingredient"; opt (word "s"); RWordB]) t
  then true
  else if test (alts [seqs [RWordB; word "then"; RWordB];
                      seqs [RWordB; word "after that"; RWordB];
                      seqs [RWordB; word "next"; RWordB]]) t
  then true
  else if 2 <=? count_matches (seqs [lit1 ","; RStar (cls is_space)]) t
  then true
  else if 2 <=? count_matches (seqs [RWordB; word "and"; RWordB]) t
  then true
  else if test (seqs [RBegin; plus (cls is_digit);
                      cls (fun c => is_char ")" c || is_char "." c)]) t
  then true
  else 12 <? wordCount t.

(** *** Frame assessment coercion and the vision history *)

(** [JSON.parse] is the runtime's; a [Throw] is its [SyntaxError]. *)
Section Frames.

Variable JSON_parse : list ascii -> result json.

(** The value when it is an object or an array, [null] otherwise. *)
Definition tryParseUnknownJson (t : list ascii) : option json :=
  match JSON_parse t with
  | Ok (JObj fields) => Some (JObj fields)
  | Ok (JArr items) => Some (JArr items)
  | Ok _ => None
  | Throw _ => None
  end.

(** [/\{[\s\S]*\}/] *)
Definition braces_regex : regex :=
  seqs [lit1 "{"; RStar (cls (fun _ => true)); lit1 "}"].

Definition tryParseJsonObject (t : list ascii) : option (list (list ascii * json)) :=
  match tryParseUnknownJson t with
  | Some (JObj fields) => Some fields
  | _ =>
      match match0 braces_regex t with
      | None => None
      | Some m =>
          match tryParseUnknownJson m with
          | Some (JObj fields) => Some fields
          | _ => None
          end
      end
  end.

Definition parseFrameAssessment (t : list ascii) : list (list ascii * json) :=
  match tryParseJsonObject t with
  | None => []
  | Some parsed => parsed
  end.

Definition coerceStepStatus (value : option json) (fallback : StepStatus) : StepStatus :=
  match value with
  | Some (JStr s) =>
      if eqb s (js "not_started") then not_started
      else if eqb s (js "in_progress") then in_progress
      else if eqb s (js "complete") then complete
      else if eqb s (js "unclear") then unclear
      else fallback
  | _ => fallback
  end.

Definition coerceConfidence (value : option json) : Q :=
  match value with
  | Some (JNum (Finite q)) => Qmax 0 (Qmin 1 q)
  | Some (JNum PosInfinity) => 1
  | Some (JNum NegInfinity) => 0
  | _ => 1 # 2
  end.

Definition limitWords (t : list ascii) : list (list ascii) :=
  filterBoolean (split_char " " (trim (replace_runs is_space (js " ") t))).

Definition trimToWordLimit (t : list ascii) (maxWords : nat) : list ascii :=
  let words := limitWords t in
  if length words =? 0 then []
  else if length words <=? maxWords then join (js " ") words
  else join (js " ") (take maxWords words) ++ js "...".

Definition string_or (value : option json) (default : list ascii) : list ascii :=
  match value with
  | Some (JStr s) => s
  | _ => default
  end.

(** The assessment [analyzeFrame] builds from the text the vision call
    returned. *)
Definition coerceAssessment (step : option (list ascii)) (outputText : list ascii)
  : FrameAssessment :=
  let parsed := parseFrameAssessment outputText in
  let defaultStatus := if truthy_opt step then unclear else not_started in
  {| observation :=
       trimToWordLimit
         (string_or (get parsed (js "observation")) (js "No clear visual change.")) 14;
     stepStatus :=
       coerceStepStatus
         (nullish (get parsed (js "step_status")) (get parsed (js "stepStatus")))
         defaultStatus;
     confidence := coerceConfidence (get parsed (js "confidence"));
     reason :=
       trimToWordLimit
         (string_or (get parsed (js "reason")) (js "Insufficient visual evidence.")) 18 |}.

End Frames.

(** [visionHistory.push(entry)], then the cut to the last ten *)
Definition pushHistory (entry : VisionHistoryEntry) (history : list VisionHistoryEntry)
  : list VisionHistoryEntry :=
  let pushed := history ++ [entry] in
  if MAX_VISION_HISTORY <? length pushed
  then slice_last MAX_VISION_HISTORY pushed
  else pushed.

Definition formatElapsedMs (elapsedMs : Z) : list ascii :=
  let totalSeconds := Z.max 0 (elapsedMs / 1000) in
  let minutes := (totalSeconds / 60)%Z in
  let seconds := (totalSeconds mod 60)%Z in
  if (0 <? minutes)%Z
  then decimal minutes ++ js "m " ++ decimal seconds ++ js "s"
  else decimal seconds ++ js "s".

Definition formatHistoryEntry (history : list VisionHistoryEntry)
    (entry : VisionHistoryEntry) : list ascii :=
  let firstTimestamp :=
    match head history with
    | Some first => takenAtMs first
    | None => takenAtMs entry
    end in
  let elapsedMs := Z.max 0 (takenAtMs entry - firstTimestamp) in
  let statusSuffix :=
    match entry_stepStatus entry with
    | complete => js " (step complete)"
    | _ => []
    end in
  formatElapsedMs elapsedMs ++ js " - " ++ entry_observation entry ++ statusSuffix.

(** *** The step gate of [set_panel] and of [speak] *)

Definition with_step (dishName : list ascii) (step pending : option (list ascii))
    (a : AssistantState) : AssistantState := {|
  previousResponseId := previousResponseId a;
  currentDish := dishName;
  currentStep := step;
  pendingNextStep := pending;
  latestFrameAssessment := latestFrameAssessment a;
  frameAllowsStepAdvance := frameAllowsStepAdvance a;
  visionHistory := visionHistory a;
  completedStepKeys := completedStepKeys a;
  lastRoutineSpeakAtMs := lastRoutineSpeakAtMs a
|}.

Definition with_completedStepKeys (keys : gset (list ascii)) (a : AssistantState)
  : AssistantState := {|
  previousResponseId := previousResponseId a;
  currentDish := currentDish a;
  currentStep := currentStep a;
  pendingNextStep := pendingNextStep a;
  latestFrameAssessment := latestFrameAssessment a;
  frameAllowsStepAdvance := frameAllowsStepAdvance a;
  visionHistory := visionHistory a;
  completedStepKeys := keys;
  lastRoutineSpeakAtMs := lastRoutineSpeakAtMs a
|}.

Definition markCurrentStepCompleted (st : CookingState) (a : AssistantState)
  : CookingState * AssistantState :=
  match currentStep a with
  | Some step =>
      if negb (truthy step) then (st, a)
      else
        let key := normalizeStepKey step in
        if negb (truthy key) || bool_decide (key ∈ completedStepKeys a) then (st, a)
        else (addCompletedStep step st,
              with_completedStepKeys ({[ key ]} ∪ completedStepKeys a) a)
  | None => (st, a)
  end.

Definition statusName (s : StepStatus) : list ascii :=
  match s with
  | not_started => js "not_started"
  | in_progress => js "in_progress"
  | complete => js "complete"
  | unclear => js "unclear"
  end.

Definition orElse (s fallback : list ascii) : list ascii :=
  if truthy s then s else fallback.

(** [applyPanelStepGate]: the object returned to the tool call and the three
    pieces of state it works on. *)
Definition applyPanelStepGate (cookingName requestedStep : list ascii)
    (st : CookingState) (sv : ServerState) (a : AssistantState)
  : list (list ascii * json) * CookingState * ServerState * AssistantState :=
  let next := sanitizePanelStep requestedStep in
  if negb (truthy next) then
    ([(js "ok", JBool false); (js "error", JStr (js "next_step is empty"))], st, sv, a)
  else if isStepTooBroad next then
    ([(js "ok", JBool false); (js "blocked", JBool true);
      (js "reason", JStr (js "next_step_must_be_single_action"));
      (js "suggested_format", JStr (js "Use one short action like 'Grab 2 eggs.'"))],
     addObservation (js "step_rejected: " ++ quote ++ requestedStep ++ quote) st, sv, a)
  else
    let dishName := orElse (trim cookingName) (currentDish a) in
    let shown := {| cooking := cookingName; nextStep := next |} in
    if negb (truthy_opt (currentStep a)) then
      ([(js "ok", JBool true); (js "step_locked", JStr next); (js "advanced", JBool false)],
       st, setPanel shown sv, with_step dishName (Some next) None a)
    else
      let current := default [] (currentStep a) in
      if isSameStep current next then
        ([(js "ok", JBool true); (js "step_locked", JStr next); (js "advanced", JBool false)],
         st, setPanel shown sv, with_step dishName (Some next) None a)
      else if negb (frameAllowsStepAdvance a) then
        ([(js "ok", JBool false); (js "blocked", JBool true);
          (js "reason", JStr (js "current_step_not_visually_complete"));
          (js "current_step", JStr current);
          (js "requested_next_step", JStr next);
          (js "frame_status",
           JStr (match latestFrameAssessment a with
                 | Some assessment => statusName (stepStatus assessment)
                 | None => js "unknown"
                 end))],
         addObservation
           (js "step_gate_blocked: waiting to finish " ++ quote ++ current ++ quote
            ++ js " before " ++ quote ++ next ++ quote ++ js ".") st,
         sv, with_step dishName (currentStep a) (Some next) a)
      else
        let '(st1, a1) :=
          markCurrentStepCompleted st (with_step dishName (currentStep a) (Some next) a) in
        ([(js "ok", JBool true); (js "advanced", JBool true); (js "current_step", JStr next)],
         st1, setPanel shown sv, with_step dishName (Some next) None a1).

Definition messageMatchesCurrentStep (message : list ascii) (a : AssistantState) : bool :=
  if negb (truthy_opt (currentStep a)) then true
  else
    let current := default [] (currentStep a) in
    if Qle_bool (25 # 100) (tokenOverlap current message) then true
    else
      let messageKey := normalizeStepKey message in
      let stepKey := normalizeStepKey current in
      if negb (truthy messageKey) || negb (truthy stepKey) then true
      else includes messageKey stepKey || includes stepKey messageKey.

(** [getBlockedSpeakReason]; [now] is the reading of [Date.now()]. *)
Definition getBlockedSpeakReason (now : Z) (message : list ascii) (a : AssistantState)
  : option (list ascii) :=
  if negb (truthy_opt (currentStep a)) || frameAllowsStepAdvance a then None
  else if isUrgentMessage message || isQuestion message then None
  else if negb (messageMatchesCurrentStep message a)
  then Some (js "blocked_next_step_until_visual_completion")
  else if (now - lastRoutineSpeakAtMs a <? ROUTINE_SPEAK_MIN_GAP_MS)%Z
  then Some (js "step_waiting_repeat_suppressed")
  else None.

(** *** Timers ([timers.ts])

    The active timers in the order the map holds them.  A timer that runs
    out fires outside the event being handled ([timers_fire] below); until
    then [listActiveTimers] only hides it. *)

Definition cancelTimer (l : list ascii) (timers : list ActiveTimerSnapshot)
  : bool * list ActiveTimerSnapshot :=
  let safeLabel := trim l in
  if existsb (fun t => eqb (label t) safeLabel) timers
  then (true, List.filter (fun t => negb (eqb (label t) safeLabel)) timers)
  else (false, timers).

Fixpoint insert_by_end (x : ActiveTimerSnapshot) (l : list ActiveTimerSnapshot)
  : list ActiveTimerSnapshot :=
  match l with
  | [] => [x]
  | y :: l' => if (endsAt x <=? endsAt y)%Z then x :: l else y :: insert_by_end x l'
  end.

(** The timers still running at [now], sorted by their end (a stable sort). *)
Definition listActiveTimers (now : Z) (timers : list ActiveTimerSnapshot)
  : list ActiveTimerSnapshot :=
  fold_right insert_by_end [] (List.filter (fun t => (now <? endsAt t)%Z) timers).

(** [Math.round] *)
Definition round (q : Q) : Z := Qfloor (q + (1 # 2)).

(** The time values, in milliseconds, that are dates: up to 8.64e15 on
    either side of the epoch. *)
Definition MAX_DATE_MS : Z := 8640000000000000.

Definition valid_date (t : Z) : bool :=
  (- MAX_DATE_MS <=? t)%Z && (t <=? MAX_DATE_MS)%Z.

(** *** The conversation with the model *)

Record FunctionCall : Type := {
  name : list ascii;
  arguments : list ascii;
  call_id : list ascii
}.

(** An item of [response.output]: a function call or anything else. *)
Inductive OutputItem : Type :=
| function_call (call : FunctionCall)
| other_item.

Record Response : Type := {
  id : list ascii;
  output : list OutputItem;
  output_text : option (list ascii)
}.

Record FunctionCallOutput : Type := {
  out_call_id : list ascii;
  out_output : list ascii
}.

(** What is sent to the model; the prompt texts built for a frame are not
    kept. *)
Inductive Request : Type :=
| vision_request (frame : VisionFrame)
| frame_request (frame : VisionFrame)
| text_request (t : list ascii)
| tool_results (previous : list ascii) (results : list FunctionCallOutput)
| python_request (code : list ascii).

(** The runtime, and what the outside world answers at each interaction:
    the interactions of one run are numbered, and the answer to the [n]th is
    read at [n]. *)
Record Env : Type := {
  config : Config;
  localeCompare : list ascii -> list ascii -> comparison;
  JSON_parse : list ascii -> result json;
  JSON_stringify : list (list ascii * json) -> list ascii;
  stringify_output : list OutputItem -> list ascii;
  Date_parse : list ascii -> option Z;
  Date_now : nat -> Z;
  toISOString : Z -> list ascii;
  synthesize : nat -> result unit;
  create : nat -> result Response
}.

Record World : Type := {
  store : CookingState;
  server : ServerState;
  asst : AssistantState;
  timers : list ActiveTimerSnapshot;
  tick : nat;
  requests : list Request
}.

(** A computation on the world that may throw; the world it leaves is kept
    in both cases. *)
Definition M (A : Type) : Type := World -> result A * World.

#[global] Instance M_ret : MRet M := fun _ a w => (Ok a, w).
#[global] Instance M_bind : MBind M := fun _ _ f m w =>
  match m w with
  | (Ok a, w') => f a w'
  | (Throw e, w') => (Throw e, w')
  end.

Definition throw {A : Type} (e : list ascii) : M A := fun w => (Throw e, w).

Definition lift {A : Type} (r : result A) : M A := fun w => (r, w).

Definition gets {A : Type} (f : World -> A) : M A := fun w => (Ok (f w), w).

Definition modify (f : World -> World) : M unit := fun w => (Ok tt, f w).

Definition act {A : Type} (f : World -> result A * World) : M A := f.

Definition on_store (f : CookingState -> CookingState) (w : World) : World := {|
  store := f (store w); server := server w; asst := asst w;
  timers := timers w; tick := tick w; requests := requests w
|}.

Definition on_server (f : ServerState -> ServerState) (w : World) : World := {|
  store := store w; server := f (server w); asst := asst w;
  timers := timers w; tick := tick w; requests := requests w
|}.

Definition on_asst (f : AssistantState -> AssistantState) (w : World) : World := {|
  store := store w; server := server w; asst := f (asst w);
  timers := timers w; tick := tick w; requests := requests w
|}.

Definition on_timers (f : list ActiveTimerSnapshot -> list ActiveTimerSnapshot)
    (w : World) : World := {|
  store := store w; server := server w; asst := asst w;
  timers := f (timers w); tick := tick w; requests := requests w
|}.

(** The next interaction with the outside: its number, and the count moves on. *)
Definition interact : M nat := fun w =>
  (Ok (tick w),
   {| store := store w; server := server w; asst := asst w;
      timers := timers w; tick := S (tick w); requests := requests w |}).

Definition sent (r : Request) (w : World) : World := {|
  store := store w; server := server w; asst := asst w;
  timers := timers w; tick := tick w; requests := requests w ++ [r]
|}.

Definition with_previousResponseId (i : list ascii) (a : AssistantState)
  : AssistantState := {|
  previousResponseId := Some i;
  currentDish := currentDish a;
  currentStep := currentStep a;
  pendingNextStep := pendingNextStep a;
  latestFrameAssessment := latestFrameAssessment a;
  frameAllowsStepAdvance := frameAllowsStepAdvance a;
  visionHistory := visionHistory a;
  completedStepKeys := completedStepKeys a;
  lastRoutineSpeakAtMs := lastRoutineSpeakAtMs a
|}.

Definition with_lastRoutineSpeakAtMs (t : Z) (a : AssistantState) : AssistantState := {|
  previousResponseId := previousResponseId a;
  currentDish := currentDish a;
  currentStep := currentStep a;
  pendingNextStep := pendingNextStep a;
  latestFrameAssessment := latestFrameAssessment a;
  frameAllowsStepAdvance := frameAllowsStepAdvance a;
  visionHistory := visionHistory a;
  completedStepKeys := completedStepKeys a;
  lastRoutineSpeakAtMs := t
|}.

Definition with_frame (assessment : FrameAssessment) (allows : bool)
    (a : AssistantState) : AssistantState := {|
  previousResponseId := previousResponseId a;
  currentDish := currentDish a;
  currentStep := currentStep a;
  pendingNextStep := pendingNextStep a;
  latestFrameAssessment := Some assessment;
  frameAllowsStepAdvance := allows;
  visionHistory := visionHistory a;
  completedStepKeys := completedStepKeys a;
  lastRoutineSpeakAtMs := lastRoutineSpeakAtMs a
|}.

Definition with_visionHistory (h : list VisionHistoryEntry) (a : AssistantState)
  : AssistantState := {|
  previousResponseId := previousResponseId a;
  currentDish := currentDish a;
  currentStep := currentStep a;
  pendingNextStep := pendingNextStep a;
  latestFrameAssessment := latestFrameAssessment a;
  frameAllowsStepAdvance := frameAllowsStepAdvance a;
  visionHistory := h;
  completedStepKeys := completedStepKeys a;
  lastRoutineSpeakAtMs := lastRoutineSpeakAtMs a
|}.

(** *** Tool arguments *)

(** [args[key]]; reading a property of [null] throws. *)
Definition property (args : json) (key : list ascii) : result (option json) :=
  match args with
  | JObj fields => Ok (get fields key)
  | JNull => Throw (js "Cannot read properties of null")
  | _ => Ok None
  end.

Definition readStringArg (args : json) (key : list ascii) : result (list ascii) :=
  value ← property args key;
  match value with
  | Some (JStr s) =>
      if truthy (trim s) then Ok (trim s)
      else Throw (js "Missing string argument: " ++ key)
  | _ => Throw (js "Missing string argument: " ++ key)
  end.

Definition readNumberArg (args : json) (key : list ascii) : result number :=
  value ← property args key;
  match value with
  | Some (JNum NaN) => Throw (js "Missing numeric argument: " ++ key)
  | Some (JNum n) => Ok n
  | _ => Throw (js "Missing numeric argument: " ++ key)
  end.

Definition readOptionalNumberArg (args : json) (key : list ascii)
  : result (option number) :=
  value ← property args key;
  match value with
  | None | Some JNull => Ok None
  | Some (JNum NaN) => Throw (js "Invalid numeric argument: " ++ key)
  | Some (JNum n) => Ok (Some n)
  | _ => Throw (js "Invalid numeric argument: " ++ key)
  end.

Definition readPriorityArg (args : json) (key : list ascii) : result Priority :=
  value ← property args key;
  match value with
  | Some (JStr s) =>
      if eqb s (js "normal") then Ok normal
      else if eqb s (js "urgent") then Ok urgent
      else Throw (js "Invalid priority argument: " ++ key)
  | _ => Throw (js "Invalid priority argument: " ++ key)
  end.

(** *** Tool dispatch and the resolution loop *)

Section Run.

Variable env : Env.

Definition now : M Z := n ← interact; mret (Date_now env n).

Definition tryParseArguments (raw : list ascii) : json :=
  match JSON_parse env raw with
  | Ok v => v
  | Throw _ => JObj []
  end.

(** The listener of the timers' [changed] event in [server.ts] *)
Definition timers_changed (t : Z) (w : World) : World :=
  let w1 := on_store (setActiveTimers (listActiveTimers t (timers w))) w in
  on_server (publishState (store w1)) w1.

Definition timers_cancelTimer (l : list ascii) : M bool :=
  t ← now;
  act (fun w =>
    let '(cancelled, rest) := cancelTimer l (timers w) in
    if cancelled then (Ok true, timers_changed t (on_timers (fun _ => rest) w))
    else (Ok false, w)).

(** [setTimer]. The dates of the snapshot are rendered by [toISOString],
    which throws a [RangeError] when the end is no date: for a duration that
    is [NaN] or infinite, and for a finite one that leads past the last
    date. The timer that had the label is cancelled by then. Up to the last
    date the sums are whole numbers below 2^53, on which the arithmetic of
    the program is exact. *)
Definition timers_setTimer (duration : number) (l : list ascii) : M ActiveTimerSnapshot :=
  let safeLabel := trim l in
  if negb (truthy safeLabel) then throw (js "Timer label cannot be empty.")
  else
    timers_cancelTimer safeLabel;;
    t ← now;
    match duration with
    | NaN | PosInfinity => throw (js "Invalid time value")
    | Finite _ | NegInfinity =>
        let safeDuration :=
          match duration with
          | Finite q => Z.max 1 (round q)
          | _ => 1%Z
          end in
        if negb (valid_date (t + safeDuration * 1000)) then throw (js "Invalid time value")
        else
          let snapshot := {| label := safeLabel; durationSeconds := safeDuration;
                             startedAt := t; endsAt := (t + safeDuration * 1000)%Z |} in
          modify (fun w => timers_changed t (on_timers (fun ts => ts ++ [snapshot]) w));;
          mret snapshot
    end.

Definition timer_json (t : ActiveTimerSnapshot) : json :=
  JObj [(js "label", JStr (label t));
        (js "durationSeconds", num_of_Z (durationSeconds t));
        (js "startedAt", JStr (toISOString env (startedAt t)));
        (js "endsAt", JStr (toISOString env (endsAt t)))].

(** [outputs.setOverlay] of the server, on the world. With a time to live
    (a number that is not zero) the date at which the overlay expires is
    rendered by [toISOString], which throws a [RangeError] when that date
    is past the last one, as it is for an infinite time to live; the overlay
    is as it was then and nothing is sent. The product by 1000 is taken
    exactly; the program rounds it to a double, which can move the time to
    live by one millisecond. *)
Definition outputs_setOverlay (update : OverlayUpdate) : M unit :=
  match ttlSeconds update with
  | None | Some NaN => modify (on_server (setOverlay update))
  | Some PosInfinity => now;; throw (js "Invalid time value")
  | Some NegInfinity =>
      t ← now;
      if negb (valid_date (t + 1000)) then throw (js "Invalid time value")
      else modify (on_server (setOverlay update))
  | Some (Finite q) =>
      if Qeq_bool q 0 then modify (on_server (setOverlay update))
      else
        t ← now;
        if negb (valid_date (t + Z.max 1000 (round (q * 1000))))
        then throw (js "Invalid time value")
        else modify (on_server (setOverlay update))
  end.

(** [outputs.speak] of the server, on the world *)
Definition outputs_speak (message : list ascii) : M unit :=
  n ← interact;
  act (fun w =>
    let '(r, sv) := speak (config env) (Date_now env n) (synthesize env n)
                      message (server w) in
    (r, on_server (fun _ => sv) w)).

Definition runPython (code : list ascii) : M (list ascii) :=
  n ← interact;
  modify (sent (python_request code));;
  response ← lift (create env n);
  match output_text response with
  | Some t => if truthy (trim t) then mret (trim t)
              else mret (stringify_output env (output response))
  | None => mret (stringify_output env (output response))
  end.

Definition ok_true : list (list ascii * json) := [(js "ok", JBool true)].

Definition string_field (o : list (list ascii * json)) (key fallback : list ascii)
  : list ascii :=
  match get o key with
  | Some (JStr s) => if truthy (trim s) then trim s else fallback
  | _ => fallback
  end.

(** The [switch] of [executeFunctionCall]: the result object of one call. *)
Definition toolResult (call : FunctionCall) (args : json)
  : M (list (list ascii * json)) :=
  if eqb (name call) (js "speak") then
    message ← lift (readStringArg args (js "message"));
    t ← now;
    a ← gets asst;
    match getBlockedSpeakReason t message a with
    | Some blockedReason =>
        mret [(js "ok", JBool true); (js "suppressed", JBool true);
              (js "reason", JStr blockedReason)]
    | None =>
        outputs_speak message;;
        modify (on_store (recordConversation assistant message));;
        (if negb (isQuestion message) && negb (isUrgentMessage message)
         then t' ← now; modify (on_asst (with_lastRoutineSpeakAtMs t'))
         else mret tt);;
        mret ok_true
    end
  else if eqb (name call) (js "stay_silent") then
    r ← lift (readStringArg args (js "reason"));
    modify (on_store (addObservation (js "stay_silent: " ++ r)));;
    mret [(js "ok", JBool true); (js "silent", JBool true)]
  else if eqb (name call) (js "set_timer") then
    durationSeconds ← lift (readNumberArg args (js "duration_seconds"));
    l ← lift (readStringArg args (js "label"));
    timer ← timers_setTimer durationSeconds l;
    t ← now;
    modify (fun w => on_store (setActiveTimers (listActiveTimers t (timers w))) w);;
    mret [(js "ok", JBool true); (js "timer", timer_json timer)]
  else if eqb (name call) (js "cancel_timer") then
    l ← lift (readStringArg args (js "label"));
    cancelled ← timers_cancelTimer l;
    t ← now;
    modify (fun w => on_store (setActiveTimers (listActiveTimers t (timers w))) w);;
    mret [(js "ok", JBool cancelled)]
  else if eqb (name call) (js "update_plan") then
    changes ← lift (readStringArg args (js "changes"));
    modify (on_store (updatePlan changes));;
    mret ok_true
  else if eqb (name call) (js "update_state") then
    o ← lift (readStringArg args (js "observation"));
    modify (on_store (addObservation o));;
    mret ok_true
  else if eqb (name call) (js "lookup_recipe") then
    d ← lift (readStringArg args (js "dish"));
    sv ← gets server;
    let result := lookupRecipe d sv in
    let wasFound := match get result (js "found") with
                    | Some (JBool true) => true
                    | _ => false
                    end in
    let resolvedDish := string_field result (js "dish") d in
    let matched := string_field result (js "matchType") (js "none") in
    modify (on_store (addObservation
      (if wasFound
       then js "recipe_lookup: " ++ quote ++ d ++ quote ++ js " -> " ++ quote
            ++ resolvedDish ++ quote ++ js " (" ++ matched ++ js ")"
       else js "recipe_lookup: no match for " ++ quote ++ d ++ quote)));;
    mret result
  else if eqb (name call) (js "set_overlay") then
    t ← lift (readStringArg args (js "text"));
    p ← lift (readPriorityArg args (js "priority"));
    ttl ← lift (readOptionalNumberArg args (js "ttl_seconds"));
    outputs_setOverlay {| text := t; priority := p; ttlSeconds := ttl |};;
    mret ok_true
  else if eqb (name call) (js "set_panel") then
    c ← lift (readStringArg args (js "cooking"));
    next ← lift (readStringArg args (js "next_step"));
    act (fun w =>
      let '(result, st, sv, a) := applyPanelStepGate c next (store w) (server w) (asst w) in
      (Ok result,
       {| store := st; server := sv; asst := a;
          timers := timers w; tick := tick w; requests := requests w |}))
  else if eqb (name call) (js "clear_panel") then
    modify (on_server clearPanel);;
    modify (on_asst (fun a => with_step (currentDish a) None None a));;
    mret ok_true
  else if eqb (name call) (js "clear_overlay") then
    modify (on_server clearOverlay);;
    mret ok_true
  else if eqb (name call) (js "complete_recipe") then
    d ← lift (readStringArg args (js "dish"));
    r ← lift (readStringArg args (js "recipe"));
    t ← now;
    act (fun w =>
      let '(result, st, sv) :=
        completeRecipe (localeCompare env) (toISOString env t) d r (store w) (server w) in
      (result,
       {| store := st; server := sv; asst := asst w;
          timers := timers w; tick := tick w; requests := requests w |}))
  else if eqb (name call) (js "run_python") then
    code ← lift (readStringArg args (js "code"));
    out ← runPython code;
    mret [(js "ok", JBool true); (js "output", JStr out)]
  else
    mret [(js "ok", JBool false);
          (js "error", JStr (js "Unknown tool: " ++ name call))].

Definition executeFunctionCall (call : FunctionCall) : M FunctionCallOutput :=
  let args := tryParseArguments (arguments call) in
  result ← toolResult call args;
  modify (on_store (recordConversation tool
    (name call ++ js "(" ++ arguments call ++ js ") => " ++ JSON_stringify env result)));;
  mret {| out_call_id := call_id call; out_output := JSON_stringify env result |}.

Fixpoint executeAll (calls : list FunctionCall) : M (list FunctionCallOutput) :=
  match calls with
  | [] => mret []
  | call :: calls' =>
      o ← executeFunctionCall call;
      os ← executeAll calls';
      mret (o :: os)
  end.

Fixpoint functionCallsOf (items : list OutputItem) : list FunctionCall :=
  match items with
  | [] => []
  | function_call call :: items' => call :: functionCallsOf items'
  | other_item :: items' => functionCallsOf items'
  end.

Definition loop_exceeded : list ascii := js "Tool-call loop exceeded safety depth.".

(** The [for] loop of [resolveResponse], by the number of rounds left. *)
Fixpoint resolveRounds (rounds : nat) (response : Response) : M unit :=
  match rounds with
  | O => throw loop_exceeded
  | S rounds' =>
      let functionCalls := functionCallsOf (output response) in
      if length functionCalls =? 0 then
        let t := match output_text response with
                 | Some t => trim t
                 | None => []
                 end in
        if truthy t then
          modify (on_store (recordConversation assistant t));;
          modify (on_store (addObservation (js "assistant_note: " ++ t)))
        else mret tt
      else
        toolResults ← executeAll functionCalls;
        n ← interact;
        modify (sent (tool_results (id response) toolResults));;
        response' ← lift (create env n);
        modify (on_asst (with_previousResponseId (id response')));;
        resolveRounds rounds' response'
  end.

Definition resolveResponse (initialResponse : Response) : M unit :=
  resolveRounds 8 initialResponse.

Definition sendTextTurn (t : list ascii) : M unit :=
  n ← interact;
  modify (sent (text_request t));;
  response ← lift (create env n);
  modify (on_asst (with_previousResponseId (id response)));;
  resolveResponse response.

(** *** The events of a session *)

Definition parseTimestampMs (isoTimestamp : list ascii) : M Z :=
  match Date_parse env isoTimestamp with
  | Some parsed => mret parsed
  | None => now
  end.

Definition analyzeFrame (frame : VisionFrame) : M FrameAssessment :=
  n ← interact;
  modify (sent (vision_request frame));;
  let outputText :=
    match create env n with
    | Ok response => default [] (output_text response)
    | Throw _ => []
    end in
  a ← gets asst;
  let assessment := coerceAssessment (JSON_parse env) (currentStep a) outputText in
  ms ← parseTimestampMs (takenAt frame);
  let entry := {| takenAtMs := ms;
                  entry_observation := observation assessment;
                  entry_stepStatus := stepStatus assessment |} in
  modify (on_asst (fun a => with_visionHistory (pushHistory entry (visionHistory a)) a));;
  mret assessment.

Definition is_complete (s : StepStatus) : bool :=
  match s with complete => true | _ => false end.

Definition processFrame (frame : VisionFrame) : M unit :=
  assessment ← analyzeFrame frame;
  modify (on_asst (fun a =>
    with_frame assessment
      (negb (truthy_opt (currentStep a)) || is_complete (stepStatus assessment)) a));;
  a ← gets asst;
  entry ← match last (visionHistory a) with
          | Some entry => mret entry
          | None =>
              t ← now;
              mret {| takenAtMs := t;
                      entry_observation := observation assessment;
                      entry_stepStatus := stepStatus assessment |}
          end;
  modify (on_store (addObservation
    (js "vision: " ++ formatHistoryEntry (visionHistory a) entry)));;
  n ← interact;
  modify (sent (frame_request frame));;
  response ← lift (create env n);
  modify (on_asst (with_previousResponseId (id response)));;
  resolveResponse response.

Definition handleUserMessage (message : list ascii) : M unit :=
  modify (on_store (recordConversation user message));;
  sendTextTurn (js "User update: " ++ message).

Definition handleTimerFired (timer : ActiveTimerSnapshot) (firedAt : list ascii)
  : M unit :=
  modify (on_store (addObservation
    (js "Timer " ++ quote ++ label timer ++ quote ++ js " fired at " ++ firedAt
     ++ js " (duration " ++ decimal (durationSeconds timer) ++ js "s).")));;
  sendTextTurn
    (js "Timer event: " ++ quote ++ label timer ++ quote
     ++ js " just completed. Decide whether to notify now and next action.").

(** The callback of the timeout that [setTimer] arms, when it fires: the
    timer leaves the map, the listeners of [changed] and of [fired] run, and
    the assistant takes its turn; a failure of the turn is sent to the
    clients. It is an event of its own, after the call that set the timer;
    a timer cancelled or replaced before never fires. *)
Definition timers_fire (snapshot : ActiveTimerSnapshot) : M unit :=
  t ← now;
  modify (fun w =>
    timers_changed t
      (on_timers (List.filter (fun x => negb (eqb (label x) (label snapshot)))) w));;
  t' ← now;
  let firedAt := toISOString env t' in
  modify (on_server (broadcast (timer_fired (label snapshot) firedAt)));;
  act (fun w =>
    match handleTimerFired snapshot firedAt w with
    | (Ok _, w') => (Ok tt, w')
    | (Throw e, w') =>
        (Ok tt, on_server (broadcast (error (js "Failed handling timer event: " ++ e))) w')
    end).

Definition blank_line : list ascii := ["010"%char; "010"%char].

(** [priorRecipe] carries the dish, the text, the date and the count of the
    stored entry. *)
Definition initializeWithRecipeIdea (recipeIdea : list ascii)
    (priorRecipe : option StoredRecipe) : M unit :=
  modify (on_asst (fun a =>
    {| previousResponseId := previousResponseId a;
       currentDish := recipeIdea;
       currentStep := None;
       pendingNextStep := None;
       latestFrameAssessment := None;
       frameAllowsStepAdvance := true;
       visionHistory := [];
       completedStepKeys := ∅;
       lastRoutineSpeakAtMs := 0 |}));;
  modify (on_store (setOriginalPlan recipeIdea));;
  modify (on_store (recordConversation user recipeIdea));;
  sendTextTurn
    (match priorRecipe with
     | Some prior =>
         join blank_line
           [js "The user wants to cook: " ++ recipeIdea;
            js "Default to the previously completed recipe unless the user asks to change it.";
            js "Previously completed recipe for " ++ quote ++ dish prior ++ quote
              ++ js " (times cooked: " ++ decimal (timesCooked prior)
              ++ js ", completed at: " ++ completedAt prior ++ js "):";
            recipe prior]
     | None =>
         join blank_line
           [js "The user wants to cook: " ++ recipeIdea;
            js "Before inventing a new recipe, call lookup_recipe with this dish."]
     end).

(** [POST /api/user-message]: the flags, the assistant's turn, the state
    sent to the clients.  [None] is the 400 answer. *)
Definition postUserMessage (body_message : list ascii) (w : World)
  : option (result unit * World) :=
  match onUserMessage body_message (server w) with
  | None => None
  | Some (message, sv) =>
      Some ((handleUserMessage message;;
             modify (fun w => on_server (publishState (store w)) w))
              (on_server (fun _ => sv) w))
  end.

End Run.

Definition initialWorld (file : list StoredRecipe) : World := {|
  store := createEmptyState;
  server := initialServer file;
  asst := initialAssistant;
  timers := [];
  tick := 0;
  requests := []
|}.

End Assistant.

Import JS RecipeStore State Server Assistant.

(** ** Statements *)

(** The history after the entries were pushed in this order. *)
Definition ingestAll (entries : list VisionHistoryEntry) (h : list VisionHistoryEntry)
  : list VisionHistoryEntry :=
  fold_left (fun h e => pushHistory e h) entries h.

(** One of the conditions of [completeRecipe] on the session fails. *)
Definition precondition_violated (key : list ascii) (sv : ServerState) : Prop :=
  recipeStoredForSession sv = true \/ key <> activeDishKey sv \/
  activeDishKey sv = [] \/ completionConfirmedForSession sv = false.

Definition already_saved : list (list ascii * json) :=
  [(js "ok", JBool true); (js "saved", JBool false);
   (js "reason", JStr (js "already_saved_for_session"))].

Definition refusals_as_stated : Prop :=
  forall lc nowIso d r st sv,
    precondition_violated (normalizeDishKey (trim d)) sv ->
    exists e, completeRecipe lc nowIso d r st sv = (Ok (refused e), st, sv).

(** A comparison of dish names for the examples: equal or before. *)
Definition byCode (a b : list ascii) : comparison :=
  if bool_decide (a = b) then Eq else Lt.

Definition pancakes_saved : ServerState := {|
  overlay := None; panel := None;
  lastSpokenTextKey := []; lastSpokenAtMs := 0;
  waitingForUserAnswer := false; lastQuestionAtMs := 0; lastQuestionText := [];
  activeDishKey := js "pancakes";
  recipeStoredForSession := true;
  completionConfirmedForSession := false;
  recipes := [];
  broadcasts := []
|}.

Definition frame_status_of (a : AssistantState) : list ascii :=
  match latestFrameAssessment a with
  | Some assessment => statusName (stepStatus assessment)
  | None => js "unknown"
  end.

Definition gate_rejection (current next status : list ascii) : list (list ascii * json) :=
  [(js "ok", JBool false); (js "blocked", JBool true);
   (js "reason", JStr (js "current_step_not_visually_complete"));
   (js "current_step", JStr current);
   (js "requested_next_step", JStr next);
   (js "frame_status", JStr status)].

Definition locked_result (next : list ascii) : list (list ascii * json) :=
  [(js "ok", JBool true); (js "step_locked", JStr next); (js "advanced", JBool false)].

Definition advanced_result (next : list ascii) : list (list ascii * json) :=
  [(js "ok", JBool true); (js "advanced", JBool true); (js "current_step", JStr next)].

(** A session in which "Grab 2 eggs." is locked. *)
Definition eggs_locked (allows : bool) : AssistantState := {|
  previousResponseId := None;
  currentDish := js "pancakes";
  currentStep := Some (js "Grab 2 eggs.");
  pendingNextStep := None;
  latestFrameAssessment := None;
  frameAllowsStepAdvance := allows;
  visionHistory := [];
  completedStepKeys := ∅;
  lastRoutineSpeakAtMs := 0
|}.

Definition first_proposal :=
  applyPanelStepGate (js "pancakes") (js "Grab two eggs!")
    createEmptyState (initialServer []) (eggs_locked true).

Definition second_proposal :=
  applyPanelStepGate (js "pancakes") (js "Grab two eggs!")
    first_proposal.1.1.2 first_proposal.1.2 first_proposal.2.

Definition repeat_is_edit_as_stated : Prop :=
  forall cookingName requestedStep st sv a,
    truthy_opt (currentStep a) = true ->
    let first := applyPanelStepGate cookingName requestedStep st sv a in
    let second :=
      applyPanelStepGate cookingName requestedStep first.1.1.2 first.1.2 first.2 in
    second.1.1.1 = locked_result (sanitizePanelStep requestedStep) /\
    completedStepKeys second.2 = completedStepKeys first.2 /\
    completedSteps second.1.1.2 = completedSteps first.1.1.2.

(** The server after "Stop!" was voiced at time 1000. *)
Definition stop_voiced : ServerState :=
  (speak defaultConfig 1000 (Ok tt) (js "Stop!") (initialServer [])).2.

Definition urgent_always_voiced_as_stated : Prop :=
  forall cfg now nowA t sv a,
    isUrgent t = true ->
    getBlockedSpeakReason nowA t a = None /\ shouldSuppress cfg now t sv = None.

(** The three early returns of [outputs.speak] that do not look at urgency. *)
Definition repeats_last (cfg : Config) (now : Z) (t : list ascii) (sv : ServerState) : bool :=
  eqb (textKeyOf t) (lastSpokenTextKey sv)
  && within now (lastSpokenAtMs sv) (speechRepeatCooldownMs cfg).

Definition repeats_question (cfg : Config) (now : Z) (t : list ascii) (sv : ServerState)
  : bool :=
  Server.isQuestion t && waitingForUserAnswer sv
  && within now (lastQuestionAtMs sv) (questionRepeatCooldownMs cfg).

Definition pasta_bolognese : StoredRecipe := {|
  dish := js "Pasta Bolognese";
  dishKey := js "pasta bolognese";
  recipe := js "Brown the mince, add the tomatoes, simmer.";
  completedAt := js "2026-01-01T00:00:00.000Z";
  timesCooked := 1
|}.

(** The first tokens of the two keys exist and are equal. *)
Definition first_tokens_match (queryTokens candidateTokens : list (list ascii)) : bool :=
  bool_decide (is_Some (head queryTokens) /\ head queryTokens = head candidateTokens).

Definition no_shared_token_as_stated : Prop :=
  forall recipes dishQuery,
    (forall c, c ∈ recipes ->
       shared_tokens (tokenizeDishKey (normalizeDishKey (trim dishQuery)))
         (tokenizeDishKey (dishKey c)) = 0) ->
    matchType (lookupByDish recipes dishQuery) = none.

(** The number of words of a text: the places where a character that is not
    white space follows white space or the start. *)
Fixpoint word_starts (after_space : bool) (s : list ascii) : nat :=
  match s with
  | [] => 0
  | c :: s' =>
      (if after_space && negb (is_space c) then 1 else 0) + word_starts (is_space c) s'
  end.

(** No white space in a text *)
Definition spaceless (s : list ascii) : Prop := Forall (fun c => is_space c = false) s.

(** A word: not empty and without white space *)
Definition is_a_word (w : list ascii) : Prop := w <> [] /\ spaceless w.

(** Whether the next character comes after white space, [b] telling it for
    the start of the text. *)
Definition ends_in_space (b : bool) (s : list ascii) : bool :=
  match last s with Some c => is_space c | None => b end.

Definition twelve_tokens_as_stated : Prop :=
  forall input,
    sanitizePanelStep input = [] \/
    (endsWithTerminator (sanitizePanelStep input) = true /\
     wordCount (sanitizePanelStep input) <= 12).









(** The trace a final answer leaves: the text is kept in the conversation
    and as an observation, nothing else changes. *)
Definition noted (response : Response) (w : World) : World :=
  let t := match output_text response with
           | Some t => trim t
           | None => []
           end in
  if truthy t
  then on_store (addObservation (js "assistant_note: " ++ t))
         (on_store (recordConversation assistant t) w)
  else w.

(** One pass through the body of the loop of [resolveResponse]. *)
Inductive RoundOutcome : Type :=
| Finished (w : World)
| Continue (response : Response) (w : World)
| Raised (e : list ascii) (w : World).

Definition after_request (previous : list ascii) (results : list FunctionCallOutput)
    (w : World) : World :=
  sent (tool_results previous results)
    {| store := store w; server := server w; asst := asst w;
       timers := timers w; tick := S (tick w); requests := requests w |}.

Definition oneRound (env : Env) (response : Response) (w : World) : RoundOutcome :=
  let functionCalls := functionCallsOf (output response) in
  if length functionCalls =? 0 then Finished (noted response w)
  else
    match executeAll env functionCalls w with
    | (Throw e, w1) => Raised e w1
    | (Ok results, w1) =>
        match create env (tick w1) with
        | Throw e => Raised e (after_request (id response) results w1)
        | Ok response' =>
            Continue response'
              (on_asst (with_previousResponseId (id response'))
                 (after_request (id response) results w1))
        end
    end.

(** [reaches env k r w r' w']: starting with the response [r] in the world
    [w], [k] rounds of tool calls run to their end and leave the loop with
    the response [r'] in the world [w']. *)
Inductive reaches (env : Env) : nat -> Response -> World -> Response -> World -> Prop :=
| reaches_now r w : reaches env 0 r w r w
| reaches_later k r w r1 w1 r2 w2 :
    oneRound env r w = Continue r1 w1 ->
    reaches env k r1 w1 r2 w2 ->
    reaches env (S k) r w r2 w2.

Definition two_outcomes_as_stated : Prop :=
  forall env response w,
    (resolveResponse env response w).1 = Ok tt \/
    (resolveResponse env response w).1 = Throw loop_exceeded.

(** A runtime for the examples: [JSON.parse] knows the empty object, the
    clock counts the interactions, the voice always works, and the model
    answers every request with [reply]. *)
Definition example_env (reply : Response) : Env := {|
  config := defaultConfig;
  localeCompare := byCode;
  JSON_parse := fun t => if eqb t (js "{}") then Ok (JObj [])
                         else Throw (js "Unexpected token");
  JSON_stringify := fun _ => js "{}";
  stringify_output := fun _ => js "[]";
  Date_parse := fun _ => None;
  Date_now := fun n => Z.of_nat n;
  toISOString := fun _ => js "1970-01-01T00:00:00.000Z";
  synthesize := fun _ => Ok tt;
  create := fun _ => Ok reply
|}.

Definition plain_answer : Response := {|
  id := js "resp_2"; output := [other_item]; output_text := Some (js "Done.")
|}.

(** The model asks to speak and gives no message. *)
Definition speak_without_message : Response := {|
  id := js "resp_1";
  output := [function_call {| name := js "speak"; arguments := js "{}";
                              call_id := js "call_1" |}];
  output_text := None
|}.

(** The model keeps calling a tool that does not exist. *)
Definition unknown_tool_call : Response := {|
  id := js "resp_1";
  output := [function_call {| name := js "taste"; arguments := js "{}";
                              call_id := js "call_1" |}];
  output_text := None
|}.

(** The characters of the class [p] in a text are single space characters,
    never two in a row; [after] tells that the character before the text is
    of the class. *)
Fixpoint single_spaced (p : ascii -> bool) (after : bool) (z : list ascii) : Prop :=
  match z with
  | [] => True
  | c :: z' =>
      if p c then c = " "%char /\ after = false /\ single_spaced p true z'
      else single_spaced p false z'
  end.

(** A text that neither starts nor ends with white space. *)
Definition trimmed (z : list ascii) : Prop :=
  (forall c, head z = Some c -> is_space c = false) /\
  (forall c, last z = Some c -> is_space c = false).

Definition not_lower_alnum (c : ascii) : bool := negb (is_lower_alnum c).

(** The form of a dish key and of a step key: lower-case letters and digits
    in words separated by single spaces. *)
Definition key_form (z : list ascii) : Prop :=
  single_spaced not_lower_alnum false z /\ trimmed z.

(** [/[^a-z0-9\s]/]: what [normalizeStepKey] replaces by a space. *)
Definition not_key_char (c : ascii) : bool := negb (is_lower_alnum c || is_space c).

(** The loop of [findBestFuzzyDishMatch] over the scores as the runtime
    computes them: [score] stands for [scoreDishMatch] in the arithmetic of
    the runtime, [above a b] for [a > b], [zero] for [0] and [below s] for
    [s < 0.62]. *)
Section FuzzyLoop.

Variable Score : Type.
Variable score : list ascii -> list ascii -> Score.
Variable above : Score -> Score -> bool.
Variable zero : Score.
Variable below : Score -> bool.

Fixpoint best_loop_by (queryKey : list ascii) (recipes : list StoredRecipe)
    (bestScore : Score) (bestRecipe : option StoredRecipe)
  : Score * option StoredRecipe :=
  match recipes with
  | [] => (bestScore, bestRecipe)
  | candidate :: rest =>
      let s := score queryKey (dishKey candidate) in
      if above s bestScore
      then best_loop_by queryKey rest s (Some candidate)
      else best_loop_by queryKey rest bestScore bestRecipe
  end.

Definition findBestFuzzyBy (queryKey : list ascii) (recipes : list StoredRecipe)
  : option StoredRecipe :=
  let '(bestScore, bestRecipe) := best_loop_by queryKey recipes zero None in
  if below bestScore then None else bestRecipe.

(** What the loop knows after the entries [seen]: no entry seen scores above
    the best score, which is not below [zero]; and the best entry, if there
    is one, has the best score, which is above [zero] and above the score of
    every entry before it. *)
Definition best_so_far (queryKey : list ascii) (seen : list StoredRecipe)
    (bestScore : Score) (bestRecipe : option StoredRecipe) : Prop :=
  (forall c, In c seen -> above (score queryKey (dishKey c)) bestScore = false) /\
  above zero bestScore = false /\
  match bestRecipe with
  | None => True
  | Some f =>
      exists before after,
        seen = before ++ f :: after /\
        bestScore = score queryKey (dishKey f) /\
        above bestScore zero = true /\
        forall c, In c before -> above bestScore (score queryKey (dishKey c)) = true
  end.

End FuzzyLoop.

(** The dish of [a] does not come after the dish of [b]. *)
Definition dish_before (lc : list ascii -> list ascii -> comparison)
    (a b : StoredRecipe) : Prop :=
  lc (dish a) (dish b) <> Gt.

Definition pancakes_entry : StoredRecipe := {|
  dish := js "Pancakes";
  dishKey := js "pancakes";
  recipe := js "Mix, rest, fry.";
  completedAt := js "2026-02-01T00:00:00.000Z";
  timesCooked := 3
|}.

(** A comparison of dish names for the examples that does order them: by
    code units, the shorter of two names first when it starts the other. *)
Fixpoint byCodeUnits (a b : list ascii) : comparison :=
  match a, b with
  | [], [] => Eq
  | [], _ :: _ => Lt
  | _ :: _, [] => Gt
  | c :: a', d :: b' =>
      match N.compare (N_of_ascii c) (N_of_ascii d) with
      | Eq => byCodeUnits a' b'
      | o => o
      end
  end.

Definition banana_bread_entry : StoredRecipe := {|
  dish := js "Banana Bread";
  dishKey := js "banana bread";
  recipe := js "Mash and bake.";
  completedAt := js "now";
  timesCooked := 1
|}.

(** A count on which adding one is exact in the doubles of the program. *)
Definition safe_count (r : StoredRecipe) : Prop :=
  (Z.abs (timesCooked r) < 2 ^ 53)%Z.

(** A run of [addObservation], and one of [recordConversation]. *)
Definition observeAll (observations : list (list ascii)) (st : CookingState)
  : CookingState :=
  fold_left (fun s o => addObservation o s) observations st.

Definition recordAll (entries : list (ConversationRole * list ascii)) (st : CookingState)
  : CookingState :=
  fold_left (fun s e => recordConversation (fst e) (snd e) s) entries st.

Definition not_blank (s : list ascii) : bool := truthy (trim s).

(** One call of [outputs.speak]: the clock, what the synthesizer does, the
    message. *)
Record SpeakCall : Type := {
  call_now : Z;
  call_synthesized : result unit;
  call_message : list ascii
}.

(** The server after a run of calls of [outputs.speak]; a call that throws
    ends its request, not the server. *)
Definition speakAll (cfg : Config) (calls : list SpeakCall) (sv : ServerState)
  : ServerState :=
  fold_left
    (fun s c => snd (speak cfg (call_now c) (call_synthesized c) (call_message c) s))
    calls sv.

(** The texts of the speech events among [events]. *)
Definition spoken (events : list ServerEvent) : list (list ascii) :=
  flat_map (fun e => match e with speech t => [t] | _ => [] end) events.

(** A session for banana bread whose user has said the dish is finished. *)
Definition banana_confirmed : ServerState := {|
  overlay := None; panel := None;
  lastSpokenTextKey := []; lastSpokenAtMs := 0;
  waitingForUserAnswer := false; lastQuestionAtMs := 0; lastQuestionText := [];
  activeDishKey := js "banana bread";
  recipeStoredForSession := false;
  completionConfirmedForSession := true;
  recipes := [pancakes_entry];
  broadcasts := []
|}.

(** A [complete_recipe] call for banana bread, a runtime whose [JSON.parse]
    reads its arguments and nothing else, and a world whose session is
    confirmed for banana bread. *)
Definition complete_banana_args : list ascii :=
  js "{" ++ quote ++ js "dish" ++ quote ++ js ":" ++ quote ++ js "Banana Bread" ++ quote
  ++ js "," ++ quote ++ js "recipe" ++ quote ++ js ":" ++ quote ++ js "Mash and bake."
  ++ quote ++ js "}".

Definition complete_banana : FunctionCall := {|
  name := js "complete_recipe"; arguments := complete_banana_args; call_id := js "call_1"
|}.

Definition kitchen_env : Env := {|
  config := defaultConfig;
  localeCompare := byCodeUnits;
  JSON_parse := fun t => if eqb t complete_banana_args
                         then Ok (JObj [(js "dish", JStr (js "Banana Bread"));
                                        (js "recipe", JStr (js "Mash and bake."))])
                         else Throw (js "Unexpected token");
  JSON_stringify := fun _ => js "{}";
  stringify_output := fun _ => js "[]";
  Date_parse := fun _ => None;
  Date_now := fun n => Z.of_nat n;
  toISOString := fun _ => js "1970-01-01T00:00:00.000Z";
  synthesize := fun _ => Ok tt;
  create := fun _ => Ok plain_answer
|}.

Definition banana_world : World := {|
  store := createEmptyState;
  server := banana_confirmed;
  asst := initialAssistant;
  timers := [];
  tick := 0;
  requests := []
|}.

(** The keys the assistant holds are those of the steps the cooking state
    lists as completed, and no two of these steps have the same key. *)
Definition completed_in_sync (st : CookingState) (a : AssistantState) : Prop :=
  completedStepKeys a = list_to_set (map normalizeStepKey (completedSteps st)) /\
  NoDup (map normalizeStepKey (completedSteps st)).

(** What the last frame decided. *)
Definition frame_verdict (a : AssistantState)
  : option FrameAssessment * bool * list VisionHistoryEntry :=
  (latestFrameAssessment a, frameAllowsStepAdvance a, visionHistory a).

(** The completed steps between two worlds: those listed are still listed,
    in front and in their order, and the keys held are still those of the
    list if they were. *)
Definition steps_kept (w w' : World) : Prop :=
  (completed_in_sync (store w) (asst w) -> completed_in_sync (store w') (asst w')) /\
  exists more, completedSteps (store w') = completedSteps (store w) ++ more.

(** The catalog, the dish of the session and its two marks are the same in
    two states of the server. *)
Definition session_same (sv sv' : ServerState) : Prop :=
  recipes sv' = recipes sv /\
  activeDishKey sv' = activeDishKey sv /\
  completionConfirmedForSession sv' = completionConfirmedForSession sv /\
  recipeStoredForSession sv' = recipeStoredForSession sv.

(** A recipe was saved between two states of the server: the session had a
    dish, the user had confirmed and nothing was stored; afterwards the
    confirmation is taken back, the session is marked as stored, the dish is
    the same and the catalog holds an entry under the key of the session. *)
Definition session_saved (sv sv' : ServerState) : Prop :=
  completionConfirmedForSession sv = true /\
  recipeStoredForSession sv = false /\
  truthy (activeDishKey sv) = true /\
  completionConfirmedForSession sv' = false /\
  recipeStoredForSession sv' = true /\
  activeDishKey sv' = activeDishKey sv /\
  exists saved, In saved (recipes sv') /\ dishKey saved = activeDishKey sv.

(** How the session may differ between two worlds when only tools ran in
    between: the frame's verdict is the same; the catalog, the dish and the
    marks of the session are the same or, where [may_save] holds, a recipe
    was saved; the completed steps are kept. *)
Definition session_kept (may_save : Prop) (w w' : World) : Prop :=
  frame_verdict (asst w') = frame_verdict (asst w) /\
  (session_same (server w) (server w') \/
   (may_save /\ session_saved (server w) (server w'))) /\
  steps_kept w w'.

(** A computation that keeps the session, whatever the world it starts in
    and whether it returns or throws. *)
Definition keeps {A : Type} (may_save : Prop) (m : M A) : Prop :=
  forall w, session_kept may_save w (snd (m w)).

(** The text the vision call returns at the interaction [n]. *)
Definition vision_text (env : Env) (n : nat) : list ascii :=
  match create env n with
  | Ok response => default [] (output_text response)
  | Throw _ => []
  end.

(** The timer [a] does not end after the timer [b]. *)
Definition ends_before (a b : ActiveTimerSnapshot) : Prop := (endsAt a <= endsAt b)%Z.

Definition running (now : Z) (t : ActiveTimerSnapshot) : bool := (now <? endsAt t)%Z.

Definition other_label (l : list ascii) (t : ActiveTimerSnapshot) : bool :=
  negb (eqb (label t) l).

Definition lower_alnum (c : ascii) : Prop := is_lower_alnum c = true.

(** ** The recipe file ([normalizeRecipeFile], [writeFile])

    The file is YAML; what is modelled is the value that the YAML library
    parses from it and the value the store hands to the library to write. *)

(** An entry as [normalizeRecipeFile] returns it: [timesCooked] is a number
    of JavaScript, which may be [NaN] or infinite when the file says so. *)
Record ReadRecipe : Type := {
  read_dish : list ascii;
  read_dishKey : list ascii;
  read_recipe : list ascii;
  read_completedAt : list ascii;
  read_timesCooked : number
}.

Record RecipeFile : Type := {
  version : number;
  file_recipes : list ReadRecipe
}.

Definition RECIPE_SCHEMA_VERSION : number := Finite 1.

Definition createEmptyFile : RecipeFile :=
  {| version := RECIPE_SCHEMA_VERSION; file_recipes := [] |}.

(** The properties of a value for which [isRecord] holds; an array has none
    of the names the program reads. *)
Definition record_fields (v : json) : option (list (list ascii * json)) :=
  match v with
  | JObj fields => Some fields
  | JArr _ => Some []
  | _ => None
  end.

(** [typeof v === "string" ? v : fallback] *)
Definition string_else (v : option json) (fallback : list ascii) : list ascii :=
  match v with
  | Some (JStr s) => s
  | _ => fallback
  end.

Definition number_else (v : option json) (fallback : number) : number :=
  match v with
  | Some (JNum n) => n
  | _ => fallback
  end.

(** [Math.max(1, Math.round(x))] *)
Definition atLeastOne (x : number) : number :=
  match x with
  | NaN => NaN
  | Finite q => Finite (inject_Z (Z.max 1 (round q)))
  | PosInfinity => PosInfinity
  | NegInfinity => Finite 1
  end.

Section RecipeFiles.

(** [Date.parse], the rendering of a date by [toISOString], and the date of
    the reading. *)
Variable Date_parse : list ascii -> option Z.
Variable toISOString : Z -> list ascii.
Variable nowMs : Z.

Definition normalizeRecipeItem (item : json) : option ReadRecipe :=
  match record_fields item with
  | None => None
  | Some fields =>
      let d := match get fields (js "dish") with
               | Some (JStr s) => trim s
               | _ => []
               end in
      let dishKeyRaw :=
        string_else (get fields (js "dishKey")) (string_else (get fields (js "dish_key")) []) in
      let key := normalizeDishKey (orElse dishKeyRaw d) in
      let r := match get fields (js "recipe") with
               | Some (JStr s) => trim s
               | _ => []
               end in
      let completedAtRaw :=
        string_else (get fields (js "completedAt"))
          (string_else (get fields (js "completed_at")) []) in
      let completed :=
        if truthy completedAtRaw then
          match Date_parse completedAtRaw with
          | Some ms => toISOString ms
          | None => toISOString nowMs
          end
        else toISOString nowMs in
      let timesCookedRaw :=
        number_else (get fields (js "timesCooked"))
          (number_else (get fields (js "times_cooked")) (Finite 1)) in
      if negb (truthy d) || negb (truthy key) || negb (truthy r) then None
      else Some {| read_dish := d; read_dishKey := key; read_recipe := r;
                   read_completedAt := completed;
                   read_timesCooked := atLeastOne timesCookedRaw |}
  end.

Definition normalizeRecipeFile (raw : json) : RecipeFile :=
  match record_fields raw with
  | None => createEmptyFile
  | Some fields =>
      let recipesRaw := match get fields (js "recipes") with
                        | Some (JArr items) => items
                        | _ => []
                        end in
      {| version := match get fields (js "version") with
                    | Some (JNum (Finite q)) => Finite q
                    | _ => RECIPE_SCHEMA_VERSION
                    end;
         file_recipes := omap normalizeRecipeItem recipesRaw |}
  end.

End RecipeFiles.

(** The value [writeFile] gives to [YAML.stringify]. *)
Definition written_recipe (r : StoredRecipe) : json :=
  JObj [(js "dish", JStr (dish r));
        (js "dish_key", JStr (dishKey r));
        (js "recipe", JStr (recipe r));
        (js "completed_at", JStr (completedAt r));
        (js "times_cooked", num_of_Z (timesCooked r))].

Definition number_truthy (n : number) : bool :=
  match n with
  | NaN => false
  | Finite q => negb (Qeq_bool q 0)
  | _ => true
  end.

Definition writeFile_payload (v : number) (recipes : list StoredRecipe) : json :=
  JObj [(js "version", JNum (if number_truthy v then v else RECIPE_SCHEMA_VERSION));
        (js "recipes", JArr (map written_recipe recipes))].

(** A stored entry read as it is. *)
Definition as_read (r : StoredRecipe) : ReadRecipe := {|
  read_dish := dish r;
  read_dishKey := dishKey r;
  read_recipe := recipe r;
  read_completedAt := completedAt r;
  read_timesCooked := Finite (inject_Z (timesCooked r))
|}.

(** An entry as the store writes them: a trimmed dish and recipe, a key in
    key form, none of them empty, a date that [Date.parse] reads and
    [toISOString] renders as it is written, cooked once at least. *)
Definition well_formed (Date_parse : list ascii -> option Z) (toISOString : Z -> list ascii)
    (r : StoredRecipe) : Prop :=
  trim (dish r) = dish r /\ truthy (dish r) = true /\
  key_form (dishKey r) /\ truthy (dishKey r) = true /\
  trim (recipe r) = recipe r /\ truthy (recipe r) = true /\
  truthy (completedAt r) = true /\
  (exists ms, Date_parse (completedAt r) = Some ms /\ toISOString ms = completedAt r) /\
  (1 <= timesCooked r)%Z.

(** A clock for the examples: the only date is the epoch. *)
Definition epoch : list ascii := js "1970-01-01T00:00:00.000Z".

Definition parse_epoch (s : list ascii) : option Z :=
  if eqb s epoch then Some 0%Z else None.

Definition pancakes_at_epoch : StoredRecipe := {|
  dish := js "Pancakes";
  dishKey := js "pancakes";
  recipe := js "Mix, rest, fry.";
  completedAt := epoch;
  timesCooked := 3
|}.

(** The counts [Math.max(1, Math.round(x))] can give: a whole number from 1
    on, or, for a file that says so, [NaN] or infinity. *)
Definition count_read (n : number) : Prop :=
  (exists k, (1 <= k)%Z /\ n = Finite (inject_Z k)) \/ n = NaN \/ n = PosInfinity.

(** ** Basic facts *)

Lemma eqb_true s t : eqb s t = true <-> s = t.
Proof. unfold eqb. apply bool_decide_eq_true. Qed.

Lemma eqb_false s t : eqb s t = false <-> s <> t.
Proof. unfold eqb. apply bool_decide_eq_false. Qed.

Lemma eqb_refl s : eqb s s = true.
Proof. apply eqb_true. reflexivity. Qed.

Lemma truthy_false s : truthy s = false <-> s = [].
Proof. destruct s; simpl; split; congruence. Qed.

Lemma truthy_true s : truthy s = true <-> s <> [].
Proof. destruct s; simpl; split; congruence. Qed.

(** ** The vision history *)

Lemma pushHistory_length e h : length (pushHistory e h) <= 10.
Proof.
  unfold pushHistory, slice_last, MAX_VISION_HISTORY.
  destruct (10 <? length (h ++ [e])) eqn:E.
  - apply Nat.ltb_lt in E. rewrite length_drop. lia.
  - apply Nat.ltb_ge in E. exact E.
Qed.

Lemma pushHistory_suffix e h :
  pushHistory e h = drop (length h + 1 - 10) (h ++ [e]).
Proof.
  unfold pushHistory, slice_last, MAX_VISION_HISTORY.
  rewrite length_app. simpl.
  destruct (10 <? length h + 1) eqn:E; [reflexivity|].
  apply Nat.ltb_ge in E.
  replace (length h + 1 - 10) with 0 by lia. reflexivity.
Qed.

Lemma pushHistory_last e h : last (pushHistory e h) = Some e.
Proof.
  rewrite pushHistory_suffix.
  rewrite drop_app_le by lia. rewrite last_app. reflexivity.
Qed.

Lemma ingestAll_window (entries pre : list VisionHistoryEntry) :
  ingestAll entries (drop (length pre - 10) pre)
  = drop (length (pre ++ entries) - 10) (pre ++ entries).
Proof.
  revert pre. induction entries as [|e entries IH]; intros pre.
  - rewrite app_nil_r. reflexivity.
  - simpl.
    assert (pushHistory e (drop (length pre - 10) pre)
            = drop (length (pre ++ [e]) - 10) (pre ++ [e])) as ->.
    { rewrite pushHistory_suffix, length_drop, length_app. simpl.
      destruct (decide (length pre <= 10)).
      - replace (length pre - 10) with 0 by lia. simpl. f_equal. lia.
      - rewrite <- (drop_app_le pre [e] (length pre - 10)) by lia.
        rewrite drop_drop. f_equal. lia. }
    fold (ingestAll entries (drop (length (pre ++ [e]) - 10) (pre ++ [e]))).
    rewrite IH. rewrite <- app_assoc. reflexivity.
Qed.

Lemma analyzeFrame_pushes env frame w :
  exists a ms k,
    analyzeFrame env frame w = (Ok a, k) /\
    visionHistory (asst k)
    = pushHistory {| takenAtMs := ms; entry_observation := observation a;
                     entry_stepStatus := stepStatus a |} (visionHistory (asst w)).
Proof.
  unfold analyzeFrame, parseTimestampMs.
  destruct (Date_parse env (takenAt frame)) as [ms|] eqn:E.
  - eexists _, ms, _. cbn. split; reflexivity.
  - eexists _, _, _. cbn. split; reflexivity.
Qed.

(** C7. The vision history never holds more than ten entries: a frame
    ingestion ([analyzeFrame]) always succeeds and pushes one entry at the
    end, a push keeps at most ten entries and drops only from the front, so
    that the history after any number of ingestions is the last ten entries
    ingested; after eleven, the first is gone and the eleventh is last. *)
Theorem vision_history_capacity :
  (forall env frame w, exists a ms k,
      analyzeFrame env frame w = (Ok a, k) /\
      visionHistory (asst k)
      = pushHistory {| takenAtMs := ms; entry_observation := observation a;
                       entry_stepStatus := stepStatus a |} (visionHistory (asst w))) /\
  (forall e h,
      length (pushHistory e h) <= 10 /\
      last (pushHistory e h) = Some e /\
      pushHistory e h = drop (length h + 1 - 10) (h ++ [e])) /\
  (forall entries,
      ingestAll entries [] = drop (length entries - 10) entries) /\
  (forall e1 e2 e3 e4 e5 e6 e7 e8 e9 e10 e11,
      ingestAll [e1; e2; e3; e4; e5; e6; e7; e8; e9; e10; e11] []
      = [e2; e3; e4; e5; e6; e7; e8; e9; e10; e11]).
Proof.
  split; [exact analyzeFrame_pushes|].
  split; [intros e h; auto using pushHistory_length, pushHistory_last, pushHistory_suffix|].
  split.
  - intros entries. exact (ingestAll_window entries []).
  - reflexivity.
Qed.

(** ** Recipe completion *)

(** C2 (as amended). When a session precondition of [complete_recipe] fails,
    the catalog, the session flags and the cooking state are left as they
    were and the result has [saved: false]; the result is
    [{ok: false, saved: false, error}] except when the only failing
    condition is that the recipe was already saved in this session, where it
    is [{ok: true, saved: false, reason: "already_saved_for_session"}]. *)
Theorem completeRecipe_refusals lc nowIso d r st sv :
  precondition_violated (normalizeDishKey (trim d)) sv ->
  exists res,
    completeRecipe lc nowIso d r st sv = (Ok res, st, sv) /\
    get res (js "saved") = Some (JBool false) /\
    (res = already_saved \/
     exists e, res = refused e) /\
    (res = already_saved <->
     truthy (trim d) = true /\ truthy (trim r) = true /\
     truthy (normalizeDishKey (trim d)) = true /\
     normalizeDishKey (trim d) = activeDishKey sv /\
     recipeStoredForSession sv = true).
Proof.
  intros Hv. unfold completeRecipe.
  set (key := normalizeDishKey (trim d)) in *. clearbody key.
  destruct (truthy (trim d)) eqn:Hd; cbn [negb orb].
  2:{ eexists; split; [reflexivity|]. split; [reflexivity|]. split; [right; eauto|].
      split; [discriminate|]. intros (? & _); discriminate. }
  destruct (truthy (trim r)) eqn:Hr; cbn [negb orb].
  2:{ eexists; split; [reflexivity|]. split; [reflexivity|]. split; [right; eauto|].
      split; [discriminate|]. intros (? & ? & _); discriminate. }
  destruct (truthy key) eqn:Hk; cbn [negb orb].
  2:{ eexists; split; [reflexivity|]. split; [reflexivity|]. split; [right; eauto|].
      split; [discriminate|]. intros (? & ? & ? & _); discriminate. }
  destruct (truthy (activeDishKey sv)) eqn:Ha; cbn [negb orb].
  2:{ eexists; split; [reflexivity|]. split; [reflexivity|]. split; [right; eauto|].
      split; [discriminate|]. intros (_ & _ & _ & E & _).
      rewrite <- E, Hk in Ha. discriminate. }
  destruct (eqb key (activeDishKey sv)) eqn:He; cbn [negb orb].
  2:{ eexists; split; [reflexivity|]. split; [reflexivity|]. split; [right; eauto|].
      split; [discriminate|]. intros (_ & _ & _ & E & _).
      apply eqb_false in He. contradiction. }
  apply eqb_true in He.
  destruct (recipeStoredForSession sv) eqn:Hs.
  { eexists; split; [reflexivity|]. split; [reflexivity|]. split; [left; reflexivity|].
    split; auto. }
  destruct (completionConfirmedForSession sv) eqn:Hc; cbn [negb orb].
  { exfalso. destruct Hv as [Hv|[Hv|[Hv|Hv]]]; try congruence.
    apply truthy_false in Hv. congruence. }
  eexists; split; [reflexivity|]. split; [reflexivity|]. split; [right; eauto|].
  split; [discriminate|]. intros (_ & _ & _ & _ & ?); discriminate.
Qed.

Lemma completeRecipe_refusals_witness :
  precondition_violated (normalizeDishKey (trim (js "Pancakes"))) pancakes_saved /\
  exists res,
    completeRecipe byCode (js "now") (js "Pancakes") (js "Mix and fry.")
      createEmptyState pancakes_saved = (Ok res, createEmptyState, pancakes_saved) /\
    get res (js "saved") = Some (JBool false) /\
    (res = already_saved \/ exists e, res = refused e) /\
    (res = already_saved <->
     truthy (trim (js "Pancakes")) = true /\ truthy (trim (js "Mix and fry.")) = true /\
     truthy (normalizeDishKey (trim (js "Pancakes"))) = true /\
     normalizeDishKey (trim (js "Pancakes")) = activeDishKey pancakes_saved /\
     recipeStoredForSession pancakes_saved = true).
Proof.
  assert (H : precondition_violated (normalizeDishKey (trim (js "Pancakes"))) pancakes_saved)
    by (left; reflexivity).
  split; [exact H|].
  exact (completeRecipe_refusals byCode (js "now") (js "Pancakes") (js "Mix and fry.")
           createEmptyState pancakes_saved H).
Defined.

(** C2 as stated fails: with the recipe already saved in the session, the
    result of saving "Pancakes" again is not an error object. *)
Lemma completeRecipe_already_saved_not_refused : ~ refusals_as_stated.
Proof.
  intros H.
  destruct (H byCode (js "now") (js "Pancakes") (js "Mix and fry.")
              createEmptyState pancakes_saved) as [e He].
  - left. reflexivity.
  - vm_compute in He. discriminate He.
Qed.

(** ** The step gate *)

Lemma isSameStep_false left right :
  normalizeStepKey left <> normalizeStepKey right ->
  (tokenOverlap (normalizeStepKey left) (normalizeStepKey right) < 65 # 100)%Q ->
  isSameStep left right = false.
Proof.
  intros Hne Hlt. unfold isSameStep.
  destruct (negb (truthy (normalizeStepKey left)) || negb (truthy (normalizeStepKey right)));
    [reflexivity|].
  apply eqb_false in Hne. rewrite Hne.
  destruct (Qle_bool (65 # 100) _) eqn:E; [|reflexivity].
  apply Qle_bool_iff in E. exfalso. apply (Qlt_not_le _ _ Hlt E).
Qed.

(** C3. With a step locked and the frame gate closed, a proposal that
    sanitizes to a non-empty, not too broad step with another key and a token
    overlap below 0.65 is rejected with [current_step_not_visually_complete];
    the rejection carries the current step, the candidate and the latest frame
    status, the server is untouched and the locked step stays. *)
Theorem step_gate_blocks_new_step cookingName requestedStep st sv a current :
  currentStep a = Some current ->
  truthy current = true ->
  frameAllowsStepAdvance a = false ->
  truthy (sanitizePanelStep requestedStep) = true ->
  isStepTooBroad (sanitizePanelStep requestedStep) = false ->
  normalizeStepKey current <> normalizeStepKey (sanitizePanelStep requestedStep) ->
  (tokenOverlap (normalizeStepKey current)
     (normalizeStepKey (sanitizePanelStep requestedStep)) < 65 # 100)%Q ->
  exists st' a',
    applyPanelStepGate cookingName requestedStep st sv a
    = (gate_rejection current (sanitizePanelStep requestedStep) (frame_status_of a),
       st', sv, a') /\
    currentStep a' = Some current /\
    pendingNextStep a' = Some (sanitizePanelStep requestedStep) /\
    completedStepKeys a' = completedStepKeys a.
Proof.
  intros Hcur Ht Hf Hn Hb Hne Hlt.
  unfold applyPanelStepGate.
  set (next := sanitizePanelStep requestedStep) in *. clearbody next.
  rewrite Hn, Hb, Hcur. cbn [negb truthy_opt from_option Datatypes.id].
  rewrite Ht. cbn [negb].
  rewrite (isSameStep_false _ _ Hne Hlt), Hf. cbn [negb].
  eexists _, _. split; [reflexivity|]. split; [reflexivity|]. split; reflexivity.
Qed.

Lemma step_gate_blocks_new_step_witness :
  exists st' a',
    applyPanelStepGate (js "pancakes") (js "Crack the eggs into a bowl.")
      createEmptyState (initialServer []) (eggs_locked false)
    = (gate_rejection (js "Grab 2 eggs.")
         (sanitizePanelStep (js "Crack the eggs into a bowl."))
         (frame_status_of (eggs_locked false)),
       st', initialServer [], a') /\
    currentStep a' = Some (js "Grab 2 eggs.") /\
    pendingNextStep a' = Some (sanitizePanelStep (js "Crack the eggs into a bowl.")) /\
    completedStepKeys a' = completedStepKeys (eggs_locked false).
Proof.
  apply (step_gate_blocks_new_step (js "pancakes") (js "Crack the eggs into a bowl.")
           createEmptyState (initialServer []) (eggs_locked false) (js "Grab 2 eggs.")).
  - reflexivity.
  - reflexivity.
  - reflexivity.
  - vm_compute. reflexivity.
  - vm_compute. reflexivity.
  - vm_compute. discriminate.
  - vm_compute. reflexivity.
Defined.

Lemma addObservation_completedSteps o st :
  completedSteps (addObservation o st) = completedSteps st.
Proof. unfold addObservation. destruct (negb (truthy (trim o))); reflexivity. Qed.

Lemma isSameStep_refl s :
  truthy (normalizeStepKey s) = true -> isSameStep s s = true.
Proof. intros H. unfold isSameStep. rewrite H, eqb_refl. reflexivity. Qed.

Lemma isSameStep_refl_empty s :
  truthy (normalizeStepKey s) = false -> isSameStep s s = false.
Proof. intros H. unfold isSameStep. rewrite H. reflexivity. Qed.

Lemma mark_empty_key st a s :
  currentStep a = Some s -> truthy (normalizeStepKey s) = false ->
  markCurrentStepCompleted st a = (st, a).
Proof.
  intros Hc Hk. unfold markCurrentStepCompleted. rewrite Hc, Hk.
  destruct (negb (truthy s)); reflexivity.
Qed.

Lemma mark_frameAllows st a :
  frameAllowsStepAdvance (markCurrentStepCompleted st a).2 = frameAllowsStepAdvance a.
Proof.
  unfold markCurrentStepCompleted.
  destruct (currentStep a) as [s|]; [|reflexivity].
  destruct (negb (truthy s)); [reflexivity|].
  destruct (negb (truthy (normalizeStepKey s)) || _); reflexivity.
Qed.

(** The gate on a proposal whose sanitized text is the locked step. *)
Lemma gate_on_locked_text cookingName next requestedStep st sv a r st' sv' a' :
  next = sanitizePanelStep requestedStep ->
  currentStep a = Some next ->
  truthy next = true ->
  isStepTooBroad next = false ->
  applyPanelStepGate cookingName requestedStep st sv a = (r, st', sv', a') ->
  completedStepKeys a' = completedStepKeys a /\
  completedSteps st' = completedSteps st /\
  (truthy (normalizeStepKey next) = true ->
   r = locked_result next /\ currentStep a' = Some next).
Proof.
  intros Hnext Hc Ht Hb. unfold applyPanelStepGate.
  rewrite <- Hnext. clear Hnext.
  rewrite Ht, Hb, Hc. cbn [negb truthy_opt from_option Datatypes.id].
  rewrite Ht. cbn [negb].
  destruct (truthy (normalizeStepKey next)) eqn:Hk.
  - rewrite (isSameStep_refl _ Hk). intros [= <- <- <- <-]. auto.
  - rewrite (isSameStep_refl_empty _ Hk).
    destruct (frameAllowsStepAdvance a) eqn:Hf; cbn [negb].
    + rewrite (mark_empty_key st _ next) by (cbn; auto).
      intros [= <- <- <- <-]. cbn. split; [reflexivity|]. split; [reflexivity|]. discriminate.
    + intros [= <- <- <- <-]. cbn. rewrite addObservation_completedSteps.
      split; [reflexivity|]. split; [reflexivity|]. discriminate.
Qed.

Lemma repeated_proposal_edit
    cooking1 cooking2 requestedStep st sv a r1 st1 sv1 a1 r2 st2 sv2 a2 :
  applyPanelStepGate cooking1 requestedStep st sv a = (r1, st1, sv1, a1) ->
  applyPanelStepGate cooking2 requestedStep st1 sv1 a1 = (r2, st2, sv2, a2) ->
  completedStepKeys a2 = completedStepKeys a1 /\
  completedSteps st2 = completedSteps st1 /\
  (get r1 (js "ok") = Some (JBool true) ->
   truthy (normalizeStepKey (sanitizePanelStep requestedStep)) = true ->
   r2 = locked_result (sanitizePanelStep requestedStep) /\
   currentStep a1 = Some (sanitizePanelStep requestedStep) /\
   currentStep a2 = Some (sanitizePanelStep requestedStep)).
Proof.
  intros H1 H2. revert H1. unfold applyPanelStepGate at 1.
  remember (sanitizePanelStep requestedStep) as next eqn:Hnext.
  destruct (truthy next) eqn:Ht; cbn [negb].
  2:{ intros [= <- <- <- <-]. revert H2. unfold applyPanelStepGate.
      rewrite <- Hnext, Ht. cbn [negb].
      intros [= <- <- <- <-]. split; [reflexivity|]. split; [reflexivity|]. discriminate. }
  destruct (isStepTooBroad next) eqn:Hb.
  { intros [= <- <- <- <-]. revert H2. unfold applyPanelStepGate.
    rewrite <- Hnext, Ht, Hb. cbn [negb].
    intros [= <- <- <- <-]. rewrite addObservation_completedSteps.
    split; [reflexivity|]. split; [reflexivity|]. discriminate. }
  destruct (truthy_opt (currentStep a)) eqn:Hl; cbn [negb].
  2:{ intros [= <- <- <- <-].
      eapply (gate_on_locked_text _ next) in H2 as (K1 & K2 & K3);
        [|exact Hnext|reflexivity|exact Ht|exact Hb].
      split; [exact K1|]. split; [exact K2|]. intros _ Hk.
      destruct (K3 Hk) as [-> ->]. auto. }
  destruct (isSameStep (default [] (currentStep a)) next) eqn:Hs.
  { intros [= <- <- <- <-].
      eapply (gate_on_locked_text _ next) in H2 as (K1 & K2 & K3);
        [|exact Hnext|reflexivity|exact Ht|exact Hb].
    split; [exact K1|]. split; [exact K2|]. intros _ Hk.
    destruct (K3 Hk) as [-> ->]. auto. }
  destruct (frameAllowsStepAdvance a) eqn:Hf; cbn [negb].
  2:{ intros [= <- <- <- <-]. revert H2. unfold applyPanelStepGate.
      rewrite <- Hnext, Ht, Hb. cbn [negb with_step currentStep frameAllowsStepAdvance].
      rewrite Hl. cbn [negb]. rewrite Hs, Hf. cbn [negb].
      intros [= <- <- <- <-]. cbn [with_step completedStepKeys].
      rewrite addObservation_completedSteps.
      split; [reflexivity|]. split; [reflexivity|]. discriminate. }
  destruct (markCurrentStepCompleted st _) as [stm am] eqn:Hm.
  intros [= <- <- <- <-].
      eapply (gate_on_locked_text _ next) in H2 as (K1 & K2 & K3);
        [|exact Hnext|reflexivity|exact Ht|exact Hb].
  split; [exact K1|]. split; [exact K2|]. intros _ Hk.
  destruct (K3 Hk) as [-> ->]. auto.
Qed.

Lemma first_call_accepted cookingName requestedStep st sv a r st' sv' a' :
  applyPanelStepGate cookingName requestedStep st sv a = (r, st', sv', a') ->
  get r (js "ok") = Some (JBool true) ->
  truthy (sanitizePanelStep requestedStep) = true /\
  isStepTooBroad (sanitizePanelStep requestedStep) = false /\
  currentStep a' = Some (sanitizePanelStep requestedStep) /\
  frameAllowsStepAdvance a' = frameAllowsStepAdvance a /\
  latestFrameAssessment a' = latestFrameAssessment a.
Proof.
  unfold applyPanelStepGate.
  set (next := sanitizePanelStep requestedStep). clearbody next.
  destruct (truthy next) eqn:Ht; cbn [negb]; [|intros [= <- <- <- <-]; discriminate].
  destruct (isStepTooBroad next) eqn:Hb; [intros [= <- <- <- <-]; discriminate|].
  destruct (negb (truthy_opt (currentStep a))).
  { intros [= <- <- <- <-] _. auto 10. }
  destruct (isSameStep _ next).
  { intros [= <- <- <- <-] _. auto 10. }
  destruct (negb (frameAllowsStepAdvance a)); [intros [= <- <- <- <-]; discriminate|].
  set (a0 := with_step _ (currentStep a) (Some next) a).
  pose proof (mark_frameAllows st a0) as Hf.
  assert (latestFrameAssessment (markCurrentStepCompleted st a0).2
          = latestFrameAssessment a0) as Hl.
  { unfold markCurrentStepCompleted.
    destruct (currentStep a0) as [s|]; [|reflexivity].
    destruct (negb (truthy s)); [reflexivity|].
    destruct (negb (truthy (normalizeStepKey s)) || _); reflexivity. }
  destruct (markCurrentStepCompleted st a0) as [st1 a1]. cbn [snd] in Hf, Hl.
  intros [= <- <- <- <-] _. cbn [with_step currentStep frameAllowsStepAdvance
    latestFrameAssessment]. auto 10.
Qed.

Lemma gate_on_locked_empty_key cookingName next requestedStep st sv a :
  next = sanitizePanelStep requestedStep ->
  currentStep a = Some next ->
  truthy next = true ->
  isStepTooBroad next = false ->
  truthy (normalizeStepKey next) = false ->
  (applyPanelStepGate cookingName requestedStep st sv a).1.1.1
  = if frameAllowsStepAdvance a then advanced_result next
    else gate_rejection next next (frame_status_of a).
Proof.
  intros Hnext Hc Ht Hb Hk. unfold applyPanelStepGate.
  rewrite <- Hnext. clear Hnext.
  rewrite Ht, Hb, Hc. cbn [negb truthy_opt from_option Datatypes.id].
  rewrite Ht. cbn [negb]. rewrite (isSameStep_refl_empty _ Hk).
  destruct (frameAllowsStepAdvance a); cbn [negb].
  - rewrite (mark_empty_key st _ next) by (cbn; auto). reflexivity.
  - reflexivity.
Qed.

Lemma repeated_rejection cooking1 cooking2 requestedStep st sv a r1 st1 sv1 a1 :
  applyPanelStepGate cooking1 requestedStep st sv a = (r1, st1, sv1, a1) ->
  get r1 (js "ok") = Some (JBool false) ->
  (applyPanelStepGate cooking2 requestedStep st1 sv1 a1).1.1.1 = r1.
Proof.
  unfold applyPanelStepGate.
  set (next := sanitizePanelStep requestedStep). clearbody next.
  destruct (truthy next) eqn:Ht; cbn [negb]; [|intros [= <- <- <- <-] _; reflexivity].
  destruct (isStepTooBroad next) eqn:Hb; [intros [= <- <- <- <-] _; reflexivity|].
  destruct (truthy_opt (currentStep a)) eqn:Hl; cbn [negb];
    [|intros [= <- <- <- <-]; discriminate].
  destruct (isSameStep _ next) eqn:Hs; [intros [= <- <- <- <-]; discriminate|].
  destruct (frameAllowsStepAdvance a) eqn:Hf; cbn [negb].
  { destruct (markCurrentStepCompleted st _) as [stm am].
    intros [= <- <- <- <-]. discriminate. }
  intros [= <- <- <- <-] _.
  cbn [with_step currentStep frameAllowsStepAdvance latestFrameAssessment].
  rewrite Hl. cbn [negb]. rewrite Hs, Hf. reflexivity.
Qed.

(** C9 (as amended). When [set_panel] is called twice in a row with the same
    step text, the second call marks no step completed and adds no key to
    [completedStepKeys]. If the first call was accepted and the sanitized
    step has a non-empty key, the second call is an edit of the same step: it
    returns [step_locked] with [advanced: false] and the locked step stays.
    A proposal rejected the first time is rejected again, with the same
    answer. If the first call was accepted and the key of the sanitized step
    is empty, the step is the current one and the second call answers
    [advanced: true] when the frame gate is open, and the rejection of the
    frame gate when it is closed. *)
Theorem repeated_proposal_completes_nothing
    cooking1 cooking2 requestedStep st sv a r1 st1 sv1 a1 r2 st2 sv2 a2 :
  applyPanelStepGate cooking1 requestedStep st sv a = (r1, st1, sv1, a1) ->
  applyPanelStepGate cooking2 requestedStep st1 sv1 a1 = (r2, st2, sv2, a2) ->
  completedStepKeys a2 = completedStepKeys a1 /\
  completedSteps st2 = completedSteps st1 /\
  (get r1 (js "ok") = Some (JBool true) ->
   truthy (normalizeStepKey (sanitizePanelStep requestedStep)) = true ->
   r2 = locked_result (sanitizePanelStep requestedStep) /\
   currentStep a1 = Some (sanitizePanelStep requestedStep) /\
   currentStep a2 = Some (sanitizePanelStep requestedStep)) /\
  (get r1 (js "ok") = Some (JBool false) -> r2 = r1) /\
  (get r1 (js "ok") = Some (JBool true) ->
   truthy (normalizeStepKey (sanitizePanelStep requestedStep)) = false ->
   currentStep a1 = Some (sanitizePanelStep requestedStep) /\
   r2 = if frameAllowsStepAdvance a
        then advanced_result (sanitizePanelStep requestedStep)
        else gate_rejection (sanitizePanelStep requestedStep)
               (sanitizePanelStep requestedStep) (frame_status_of a)).
Proof.
  intros H1 H2.
  destruct (repeated_proposal_edit _ _ _ _ _ _ _ _ _ _ _ _ _ _ H1 H2) as (K1 & K2 & K3).
  split; [exact K1|]. split; [exact K2|]. split; [exact K3|]. split.
  - intros Hok. pose proof (repeated_rejection _ cooking2 _ _ _ _ _ _ _ _ H1 Hok) as H.
    rewrite H2 in H. exact H.
  - intros Hok Hk.
    destruct (first_call_accepted _ _ _ _ _ _ _ _ _ H1 Hok) as (Ht & Hb & Hc & Hf & Hl).
    split; [exact Hc|].
    pose proof (gate_on_locked_empty_key cooking2 _ requestedStep st1 sv1 a1
                  eq_refl Hc Ht Hb Hk) as H.
    rewrite H2 in H. cbn [fst] in H. rewrite H, Hf. unfold frame_status_of. rewrite Hl.
    reflexivity.
Qed.

Lemma repeated_proposal_completes_nothing_witness :
  completedStepKeys second_proposal.2 = completedStepKeys first_proposal.2 /\
  completedSteps second_proposal.1.1.2 = completedSteps first_proposal.1.1.2 /\
  (get first_proposal.1.1.1 (js "ok") = Some (JBool true) ->
   truthy (normalizeStepKey (sanitizePanelStep (js "Grab two eggs!"))) = true ->
   second_proposal.1.1.1 = locked_result (sanitizePanelStep (js "Grab two eggs!")) /\
   currentStep first_proposal.2 = Some (sanitizePanelStep (js "Grab two eggs!")) /\
   currentStep second_proposal.2 = Some (sanitizePanelStep (js "Grab two eggs!"))) /\
  (get first_proposal.1.1.1 (js "ok") = Some (JBool false) ->
   second_proposal.1.1.1 = first_proposal.1.1.1) /\
  (get first_proposal.1.1.1 (js "ok") = Some (JBool true) ->
   truthy (normalizeStepKey (sanitizePanelStep (js "Grab two eggs!"))) = false ->
   currentStep first_proposal.2 = Some (sanitizePanelStep (js "Grab two eggs!")) /\
   second_proposal.1.1.1
   = if frameAllowsStepAdvance (eggs_locked true)
     then advanced_result (sanitizePanelStep (js "Grab two eggs!"))
     else gate_rejection (sanitizePanelStep (js "Grab two eggs!"))
            (sanitizePanelStep (js "Grab two eggs!")) (frame_status_of (eggs_locked true))).
Proof.
  apply (repeated_proposal_completes_nothing (js "pancakes") (js "pancakes")
           (js "Grab two eggs!") createEmptyState (initialServer []) (eggs_locked true)
           first_proposal.1.1.1 first_proposal.1.1.2 first_proposal.1.2 first_proposal.2
           second_proposal.1.1.1 second_proposal.1.1.2 second_proposal.1.2 second_proposal.2).
  - vm_compute. reflexivity.
  - vm_compute. reflexivity.
Defined.


(** C9 as stated fails: with "Grab 2 eggs." locked and the frame gate open,
    the step "?" is accepted, and proposed again it is not treated as an edit
    of the same step: its key is empty, and the second call answers
    [advanced: true]. *)
Lemma repeated_bare_terminator_advances : ~ repeat_is_edit_as_stated.
Proof.
  intros H.
  specialize (H (js "pancakes") (js "?") createEmptyState (initialServer [])
                (eggs_locked true) eq_refl).
  cbv zeta in H. destruct H as [H _].
  vm_compute in H. discriminate H.
Qed.

(** A proposal blocked by the frame gate is blocked again when repeated. *)
Example repeated_blocked_proposal_stays_blocked :
  get (applyPanelStepGate (js "pancakes") (js "Crack the eggs into a bowl.")
         (applyPanelStepGate (js "pancakes") (js "Crack the eggs into a bowl.")
            createEmptyState (initialServer []) (eggs_locked false)).1.1.2
         (initialServer [])
         (applyPanelStepGate (js "pancakes") (js "Crack the eggs into a bowl.")
            createEmptyState (initialServer []) (eggs_locked false)).2).1.1.1
      (js "reason")
  = Some (JStr (js "current_step_not_visually_complete")).
Proof. vm_compute. reflexivity. Qed.

(** ** White space *)

Lemma trimStart_app_keep l c :
  is_space c = false ->
  exists l', trimStart (l ++ [c]) = l' ++ [c].
Proof.
  intros Hc. induction l as [|d l IH]; simpl.
  - rewrite Hc. exists []. reflexivity.
  - destruct (is_space d).
    + exact IH.
    + exists (d :: l). reflexivity.
Qed.

Lemma trimStart_fixed s :
  (forall c, head s = Some c -> is_space c = false) -> trimStart s = s.
Proof.
  destruct s as [|c s]; [reflexivity|]. intros H. simpl.
  rewrite (H c eq_refl). reflexivity.
Qed.

Lemma trimStart_head s c : head (trimStart s) = Some c -> is_space c = false.
Proof.
  induction s as [|d s IH]; simpl; [discriminate|].
  destruct (is_space d) eqn:E; [exact IH|].
  simpl. intros [= <-]. exact E.
Qed.

Lemma trimStart_idem s : trimStart (trimStart s) = trimStart s.
Proof. apply trimStart_fixed. intros c. apply trimStart_head. Qed.

Lemma trimEnd_idem s : trimEnd (trimEnd s) = trimEnd s.
Proof. unfold trimEnd. rewrite rev_involutive, trimStart_idem. reflexivity. Qed.

Lemma trimEnd_head s c d :
  head s = Some c -> is_space c = false -> head (trimEnd s) = Some d -> d = c.
Proof.
  destruct s as [|c' s]; [discriminate|]. simpl. intros [= ->] Hc.
  unfold trimEnd. simpl.
  destruct (trimStart_app_keep (rev s) c Hc) as [l' ->].
  rewrite rev_app_distr. simpl. congruence.
Qed.

Lemma trimEnd_nil_head s : head s = None -> trimEnd s = [].
Proof. destruct s; [reflexivity|discriminate]. Qed.

Lemma trim_trimStart s : trimStart (trim s) = trim s.
Proof.
  unfold trim. apply trimStart_fixed. intros d Hd.
  destruct (head (trimStart s)) as [c|] eqn:Hc.
  - pose proof (trimStart_head s c Hc) as Hsp.
    rewrite (trimEnd_head _ c d Hc Hsp Hd). exact Hsp.
  - rewrite (trimEnd_nil_head _ Hc) in Hd. discriminate.
Qed.

Lemma trim_idem s : trim (trim s) = trim s.
Proof.
  unfold trim at 1. rewrite trim_trimStart. unfold trim. apply trimEnd_idem.
Qed.

(** ** The speech gate *)

Lemma urgent_not_empty t : isUrgent t = true -> truthy t = true.
Proof. destruct t; [vm_compute; discriminate|reflexivity]. Qed.

(** C1 (as amended). An utterance that matches the urgency keywords is never
    held back by the step gate, by a pending question or by the minimum gap
    between questions. It is suppressed exactly when it repeats the last
    spoken text within the repeat cooldown, or is a question asked again
    within the question cooldown while an answer is awaited, or is a routine
    preference question; otherwise it is voiced. *)
Theorem urgent_speech_gate cfg now nowA message sv a :
  isUrgent (trim message) = true ->
  getBlockedSpeakReason nowA (trim message) a = None /\
  shouldSuppress cfg now (trim message) sv
  = (if repeats_last cfg now (trim message) sv then Some duplicate_recent
     else if repeats_question cfg now (trim message) sv then Some question_repeat_too_soon
     else if isRoutinePreferenceQuestion (trim message) then Some routine_preference_question
     else None) /\
  (shouldSuppress cfg now (trim message) sv = None ->
   speak cfg now (Ok tt) message sv = (Ok tt, voiced now (trim message) sv) /\
   last (broadcasts (voiced now (trim message) sv)) = Some (speech (trim message))).
Proof.
  intros Hu. split; [|split].
  - unfold getBlockedSpeakReason.
    destruct (negb (truthy_opt (currentStep a)) || frameAllowsStepAdvance a); [reflexivity|].
    unfold isUrgentMessage. unfold isUrgent in Hu. rewrite Hu. reflexivity.
  - unfold shouldSuppress, repeats_last, repeats_question. rewrite Hu.
    rewrite andb_false_r. cbn [negb andb].
    destruct (eqb _ _ && within _ _ _); [reflexivity|].
    rewrite andb_false_r.
    destruct (Server.isQuestion (trim message) && waitingForUserAnswer sv && _);
      [reflexivity|].
    destruct (isRoutinePreferenceQuestion (trim message)); reflexivity.
  - intros Hs. unfold speak. rewrite (urgent_not_empty _ Hu), Hs. cbn [negb].
    split; [reflexivity|].
    unfold voiced, broadcast. cbn [broadcasts]. apply last_snoc.
Qed.

Lemma urgent_speech_gate_witness :
  getBlockedSpeakReason 0 (trim (js "Stop!")) (eggs_locked false) = None /\
  shouldSuppress defaultConfig 200000 (trim (js "Stop!")) stop_voiced
  = (if repeats_last defaultConfig 200000 (trim (js "Stop!")) stop_voiced
     then Some duplicate_recent
     else if repeats_question defaultConfig 200000 (trim (js "Stop!")) stop_voiced
     then Some question_repeat_too_soon
     else if isRoutinePreferenceQuestion (trim (js "Stop!"))
     then Some routine_preference_question
     else None) /\
  (shouldSuppress defaultConfig 200000 (trim (js "Stop!")) stop_voiced = None ->
   speak defaultConfig 200000 (Ok tt) (js "Stop!") stop_voiced
   = (Ok tt, voiced 200000 (trim (js "Stop!")) stop_voiced) /\
   last (broadcasts (voiced 200000 (trim (js "Stop!")) stop_voiced))
   = Some (speech (trim (js "Stop!")))).
Proof.
  apply (urgent_speech_gate defaultConfig 200000 0%Z (js "Stop!") stop_voiced
           (eggs_locked false)).
  vm_compute. reflexivity.
Defined.

(** C1 as stated fails: "Stop!" matches the urgency keywords, and said again
    one second after it was voiced it is suppressed as a recent duplicate. *)
Lemma urgent_duplicate_is_suppressed : ~ urgent_always_voiced_as_stated.
Proof.
  intros H.
  destruct (H defaultConfig 2000%Z 0%Z (js "Stop!") stop_voiced (eggs_locked false))
    as [_ H2].
  - vm_compute. reflexivity.
  - vm_compute in H2. discriminate H2.
Qed.

(** ** Completion detection *)

(** C10. A message in which the pattern of a negated completion ("not",
    "isn't", "isnt", "don't" or "dont", white space, then "done", "finished",
    "complete" or "completed", as whole words) is found is never taken as a
    confirmation, whatever else it says and whatever question is pending; the
    user-message handler then leaves the completion flag as it was. *)
Theorem negated_completion_never_confirms message waiting lastQuestion :
  test negated_completion_regex (toLowerCase (trim message)) = true ->
  userConfirmedCompletion message waiting lastQuestion = false /\
  (forall sv m sv',
      onUserMessage message sv = Some (m, sv') ->
      completionConfirmedForSession sv' = completionConfirmedForSession sv).
Proof.
  intros Hn.
  assert (forall w q, userConfirmedCompletion (trim message) w q = false) as Htrim.
  { intros w q. unfold userConfirmedCompletion. rewrite trim_idem, Hn.
    destruct (negb (truthy (toLowerCase (trim message)))); reflexivity. }
  split.
  - unfold userConfirmedCompletion. rewrite Hn.
    destruct (negb (truthy (toLowerCase (trim message)))); reflexivity.
  - intros sv m sv'. unfold onUserMessage.
    destruct (negb (truthy (trim message))); [discriminate|].
    intros [= <- <-]. cbn [completionConfirmedForSession].
    rewrite Htrim. reflexivity.
Qed.

Lemma negated_completion_never_confirms_witness :
  userConfirmedCompletion (js "We're done but it is NOT  finished") true
    (js "Are you done?") = false /\
  (forall sv m sv',
      onUserMessage (js "We're done but it is NOT  finished") sv = Some (m, sv') ->
      completionConfirmedForSession sv' = completionConfirmedForSession sv).
Proof.
  apply (negated_completion_never_confirms (js "We're done but it is NOT  finished")
           true (js "Are you done?")).
  vm_compute. reflexivity.
Defined.

(** ** The catalog matcher *)

Lemma Qltb_true a b : Qltb a b = true <-> (a < b)%Q.
Proof.
  unfold Qltb. rewrite negb_true_iff. split.
  - intros H. apply Qnot_le_lt. intros Hle. apply Qle_bool_iff in Hle. congruence.
  - intros H. destruct (Qle_bool b a) eqn:E; [|reflexivity].
    apply Qle_bool_iff in E. exfalso. apply (Qlt_not_le _ _ H E).
Qed.

Lemma Qltb_false a b : Qltb a b = false <-> (b <= a)%Q.
Proof.
  unfold Qltb. rewrite negb_false_iff. apply Qle_bool_iff.
Qed.

Lemma ratio_zero n : (ratio 0 n == 0)%Q.
Proof. unfold ratio. simpl. unfold Qdiv. apply Qmult_0_l. Qed.

Lemma startsWith_nil s : startsWith s [] = true.
Proof. destruct s; reflexivity. Qed.

Lemma startsWith_refl s : startsWith s s = true.
Proof.
  induction s as [|c s IH]; [reflexivity|]. simpl.
  rewrite Ascii.eqb_refl. exact IH.
Qed.

Lemma includes_nil s : includes s [] = true.
Proof. destruct s; reflexivity. Qed.

Lemma includes_refl s : includes s s = true.
Proof. destruct s as [|c s]; [reflexivity|]. simpl includes. rewrite Ascii.eqb_refl.
  cbn [startsWith]. rewrite startsWith_refl. reflexivity.
Qed.

Lemma tokenizeDishKey_truthy x t : In t (tokenizeDishKey x) -> truthy t = true.
Proof.
  unfold tokenizeDishKey. destruct (negb (truthy (normalizeDishKey x))); [intros []|].
  unfold filterBoolean. intros H. apply filter_In in H. apply H.
Qed.

Lemma shared_tokens_nil_r qt : shared_tokens qt [] = 0.
Proof.
  unfold shared_tokens. simpl. induction qt as [|t qt IH]; [reflexivity|].
  simpl. rewrite bool_decide_eq_false_2 by set_solver. exact IH.
Qed.

Lemma shared_tokens_head t qt ct :
  shared_tokens (t :: qt) (t :: ct) <> 0.
Proof.
  unfold shared_tokens. simpl.
  rewrite bool_decide_eq_true_2 by set_solver. simpl. lia.
Qed.

Lemma prefixBonus_spec x y :
  prefixBonus (tokenizeDishKey x) (tokenizeDishKey y)
  = if first_tokens_match (tokenizeDishKey x) (tokenizeDishKey y) then 8 # 100 else 0%Q.
Proof.
  unfold prefixBonus, first_tokens_match.
  destruct (tokenizeDishKey y) as [|c ct] eqn:Ey;
    destruct (tokenizeDishKey x) as [|q qt] eqn:Ex; cbn [head].
  - case_bool_decide as H; [destruct H as [[? [=]] _]|reflexivity].
  - case_bool_decide as H; [destruct H as [_ [=]]|reflexivity].
  - case_bool_decide as H; [destruct H as [[? [=]] _]|reflexivity].
  - rewrite (tokenizeDishKey_truthy y c) by (rewrite Ey; left; reflexivity).
    rewrite (tokenizeDishKey_truthy x q) by (rewrite Ex; left; reflexivity).
    cbn [andb]. destruct (eqb c q) eqn:E.
    + apply eqb_true in E. subst. rewrite bool_decide_eq_true_2; [reflexivity|].
      split; [eauto|reflexivity].
    + apply eqb_false in E. rewrite bool_decide_eq_false_2; [reflexivity|].
      intros [_ [= ->]]. contradiction.
Qed.

Lemma scoreDishMatch_formula queryKey candidateKey :
  queryKey <> candidateKey ->
  includes candidateKey queryKey = false ->
  includes queryKey candidateKey = false ->
  (scoreDishMatch queryKey candidateKey ==
   Qmin 1
     (Qmax
        (ratio (shared_tokens (tokenizeDishKey queryKey) (tokenizeDishKey candidateKey))
           (Nat.min (length (tokenizeDishKey queryKey))
              (length (tokenizeDishKey candidateKey))))
        (ratio (shared_tokens (tokenizeDishKey queryKey) (tokenizeDishKey candidateKey))
           (length (tokenizeDishKey queryKey)) * (9 # 10))
      + (if first_tokens_match (tokenizeDishKey queryKey) (tokenizeDishKey candidateKey)
         then 8 # 100 else 0)))%Q.
Proof.
  intros Hne Hi1 Hi2. unfold scoreDishMatch.
  assert (truthy queryKey = true) as ->.
  { destruct queryKey; [|reflexivity]. rewrite includes_nil in Hi1. discriminate. }
  assert (truthy candidateKey = true) as ->.
  { destruct candidateKey; [|reflexivity]. rewrite includes_nil in Hi2. discriminate. }
  cbn [negb orb]. apply eqb_false in Hne. rewrite Hne, Hi1, Hi2. cbn [orb].
  rewrite prefixBonus_spec.
  set (qt := tokenizeDishKey queryKey). set (ct := tokenizeDishKey candidateKey).
  assert (shared_tokens qt ct = 0 ->
          (0 == Qmin 1 (Qmax (ratio (shared_tokens qt ct) (Nat.min (length qt) (length ct)))
                          (ratio (shared_tokens qt ct) (length qt) * (9 # 10))
                        + (if first_tokens_match qt ct then 8 # 100 else 0)))%Q) as Hzero.
  { intros Hs. rewrite Hs.
    assert (first_tokens_match qt ct = false) as ->.
    { unfold first_tokens_match. apply bool_decide_eq_false_2. intros [[t Ht] He].
      destruct qt as [|q qt']; [discriminate|]. destruct ct as [|c ct']; [discriminate|].
      simpl in He. injection He as ->. exact (shared_tokens_head _ _ _ Hs). }
    rewrite !ratio_zero. rewrite Qmult_0_l.
    rewrite Q.max_l by apply Qle_refl. rewrite Qplus_0_r.
    rewrite Q.min_r by (unfold Qle; simpl; lia). reflexivity. }
  destruct ((length qt =? 0) || (length ct =? 0)) eqn:El.
  { apply Hzero. apply orb_true_iff in El as [El|El]; apply Nat.eqb_eq in El.
    - destruct qt; [reflexivity|discriminate].
    - destruct ct; [apply shared_tokens_nil_r|discriminate]. }
  destruct (shared_tokens qt ct =? 0) eqn:Es.
  { apply Hzero. apply Nat.eqb_eq in Es. exact Es. }
  reflexivity.
Qed.

Lemma best_loop_spec queryKey recipes bestScore bestRecipe s r :
  best_loop queryKey recipes bestScore bestRecipe = (s, r) ->
  (bestScore <= s)%Q /\
  (forall c, In c recipes -> (scoreDishMatch queryKey (dishKey c) <= s)%Q) /\
  ((s, r) = (bestScore, bestRecipe) \/
   exists c, In c recipes /\ r = Some c /\ s = scoreDishMatch queryKey (dishKey c)).
Proof.
  revert bestScore bestRecipe. induction recipes as [|candidate rest IH];
    intros bestScore bestRecipe; simpl.
  - intros [= <- <-]. split; [apply Qle_refl|]. split; [intros c []|]. left. reflexivity.
  - destruct (Qltb bestScore (scoreDishMatch queryKey (dishKey candidate))) eqn:E; intros H.
    + apply Qltb_true in E. destruct (IH _ _ H) as (H1 & H2 & H3).
      split; [lra|]. split.
      * intros c [<-|Hc]; [exact H1|exact (H2 c Hc)].
      * right. destruct H3 as [[= -> ->]|(c & Hc & -> & ->)].
        -- exists candidate. auto.
        -- exists c. auto.
    + apply Qltb_false in E. destruct (IH _ _ H) as (H1 & H2 & H3).
      split; [exact H1|]. split.
      * intros c [<-|Hc]; [lra|exact (H2 c Hc)].
      * destruct H3 as [H3|(c & Hc & -> & ->)]; [left; exact H3|].
        right. exists c. auto.
Qed.

Lemma findBest_sound queryKey recipes f :
  findBestFuzzyDishMatch queryKey recipes = Some f ->
  In f recipes /\ (62 # 100 <= scoreDishMatch queryKey (dishKey f))%Q /\
  (forall c, In c recipes ->
     (scoreDishMatch queryKey (dishKey c) <= scoreDishMatch queryKey (dishKey f))%Q).
Proof.
  unfold findBestFuzzyDishMatch.
  destruct (best_loop queryKey recipes 0 None) as [s r] eqn:E.
  destruct (best_loop_spec _ _ _ _ _ _ E) as (H1 & H2 & H3).
  destruct (Qltb s (62 # 100)) eqn:Hs; [discriminate|]. apply Qltb_false in Hs.
  intros ->. destruct H3 as [[= _ [=]]|(c & Hc & [= <-] & ->)].
  auto.
Qed.

Lemma findBest_complete queryKey recipes c :
  In c recipes -> (62 # 100 <= scoreDishMatch queryKey (dishKey c))%Q ->
  exists f, findBestFuzzyDishMatch queryKey recipes = Some f.
Proof.
  intros Hc Hs. unfold findBestFuzzyDishMatch.
  destruct (best_loop queryKey recipes 0 None) as [s r] eqn:E.
  destruct (best_loop_spec _ _ _ _ _ _ E) as (H1 & H2 & H3).
  pose proof (H2 c Hc) as Hle.
  assert (Qltb s (62 # 100) = false) as -> by (apply Qltb_false; lra).
  destruct H3 as [[= -> ->]|(f & _ & -> & _)]; [|eauto].
  exfalso. lra.
Qed.

Lemma findBest_none queryKey recipes :
  (forall c, In c recipes -> (scoreDishMatch queryKey (dishKey c) == 0)%Q) ->
  findBestFuzzyDishMatch queryKey recipes = None.
Proof.
  intros H. destruct (findBestFuzzyDishMatch queryKey recipes) as [f|] eqn:E; [|reflexivity].
  destruct (findBest_sound _ _ _ E) as (Hf & Hs & _).
  pose proof (H f Hf). exfalso. lra.
Qed.

(** C8 (as amended). For a candidate key that is neither equal to the query
    key nor contains it nor is contained in it, the score is
    [min(1, max(overlap, 0.9 * coverage) + prefixBonus)], the bonus being 0.08
    exactly when the first tokens are equal. A fuzzy answer is a stored entry
    of the highest score, of at least 0.62; without an exact match, an entry
    of score 0.62 or more makes the answer fuzzy. When the query key shares
    no token with any stored key and no key contains the other, the answer
    is [none]. *)
Theorem catalog_lookup_scoring :
  (forall queryKey candidateKey,
      queryKey <> candidateKey ->
      includes candidateKey queryKey = false ->
      includes queryKey candidateKey = false ->
      (scoreDishMatch queryKey candidateKey ==
       Qmin 1
         (Qmax
            (ratio (shared_tokens (tokenizeDishKey queryKey) (tokenizeDishKey candidateKey))
               (Nat.min (length (tokenizeDishKey queryKey))
                  (length (tokenizeDishKey candidateKey))))
            (ratio (shared_tokens (tokenizeDishKey queryKey) (tokenizeDishKey candidateKey))
               (length (tokenizeDishKey queryKey)) * (9 # 10))
          + (if first_tokens_match (tokenizeDishKey queryKey) (tokenizeDishKey candidateKey)
             then 8 # 100 else 0)))%Q) /\
  (forall recipes dishQuery,
      matchType (lookupByDish recipes dishQuery) = fuzzy ->
      exists f,
        lookup_recipe (lookupByDish recipes dishQuery) = Some f /\ In f recipes /\
        (62 # 100 <= scoreDishMatch (normalizeDishKey (trim dishQuery)) (dishKey f))%Q /\
        (forall c, In c recipes ->
           (scoreDishMatch (normalizeDishKey (trim dishQuery)) (dishKey c)
            <= scoreDishMatch (normalizeDishKey (trim dishQuery)) (dishKey f))%Q)) /\
  (forall recipes dishQuery c,
      normalizeDishKey (trim dishQuery) <> [] ->
      (forall e, In e recipes -> dishKey e <> normalizeDishKey (trim dishQuery)) ->
      In c recipes ->
      (62 # 100 <= scoreDishMatch (normalizeDishKey (trim dishQuery)) (dishKey c))%Q ->
      matchType (lookupByDish recipes dishQuery) = fuzzy) /\
  (forall recipes dishQuery,
      (forall c, In c recipes ->
         shared_tokens (tokenizeDishKey (normalizeDishKey (trim dishQuery)))
           (tokenizeDishKey (dishKey c)) = 0 /\
         includes (dishKey c) (normalizeDishKey (trim dishQuery)) = false /\
         includes (normalizeDishKey (trim dishQuery)) (dishKey c) = false) ->
      matchType (lookupByDish recipes dishQuery) = none).
Proof.
  split; [exact scoreDishMatch_formula|]. split; [|split].
  - intros recipes dishQuery. unfold lookupByDish.
    set (queryKey := normalizeDishKey (trim dishQuery)).
    destruct (negb (truthy queryKey)); [discriminate|].
    destruct (List.find (has_key queryKey) recipes); [discriminate|].
    destruct (findBestFuzzyDishMatch queryKey recipes) as [f|] eqn:E; [|discriminate].
    intros _. exists f. split; [reflexivity|]. exact (findBest_sound _ _ _ E).
  - intros recipes dishQuery c Hq Hex Hc Hs. unfold lookupByDish.
    set (queryKey := normalizeDishKey (trim dishQuery)) in *.
    assert (truthy queryKey = true) as -> by (apply truthy_true; exact Hq).
    cbn [negb].
    destruct (List.find (has_key queryKey) recipes) as [e|] eqn:Ef.
    { apply find_some in Ef as [He1 He2]. apply eqb_true in He2.
      exfalso. exact (Hex e He1 He2). }
    destruct (findBest_complete queryKey recipes c Hc Hs) as [f ->]. reflexivity.
  - intros recipes dishQuery H. unfold lookupByDish.
    set (queryKey := normalizeDishKey (trim dishQuery)) in *.
    destruct (negb (truthy queryKey)); [reflexivity|].
    destruct (List.find (has_key queryKey) recipes) as [e|] eqn:Ef.
    { apply find_some in Ef as [He1 He2]. apply eqb_true in He2.
      destruct (H e He1) as (_ & Hi & _). rewrite He2, includes_refl in Hi. discriminate. }
    rewrite findBest_none; [reflexivity|].
    intros c Hc. destruct (H c Hc) as (Hs & Hi1 & Hi2).
    unfold scoreDishMatch.
    destruct (negb (truthy queryKey) || negb (truthy (dishKey c))); [reflexivity|].
    destruct (eqb queryKey (dishKey c)) eqn:He.
    { apply eqb_true in He. rewrite He, includes_refl in Hi1. discriminate. }
    rewrite Hi1, Hi2. cbn [orb].
    destruct ((length _ =? 0) || (length _ =? 0)); [reflexivity|].
    rewrite Hs. reflexivity.
Qed.

(** C8 as stated fails in its last part: the query "bolo" shares no token
    with the stored key "pasta bolognese", yet the stored key contains it,
    which scores 0.95, and the answer is fuzzy. *)
Lemma lookup_substring_without_shared_token : ~ no_shared_token_as_stated.
Proof.
  intros H. specialize (H [pasta_bolognese] (js "bolo")).
  assert (matchType (lookupByDish [pasta_bolognese] (js "bolo")) = fuzzy) as E
    by (vm_compute; reflexivity).
  rewrite H in E; [discriminate|].
  intros c Hc. apply list_elem_of_singleton in Hc as ->. vm_compute. reflexivity.
Qed.

(** The example of the specification: "spaghetti" against "pasta bolognese". *)
Example lookup_spaghetti :
  matchType (lookupByDish [pasta_bolognese] (js "spaghetti")) = none.
Proof. vm_compute. reflexivity. Qed.

(** ** Words *)


Lemma word_starts_app b s t :
  word_starts b (s ++ t) = word_starts b s + word_starts (ends_in_space b s) t.
Proof.
  revert b. induction s as [|c s IH]; intros b; [reflexivity|].
  cbn [app word_starts]. rewrite IH.
  assert (ends_in_space b (c :: s) = ends_in_space (is_space c) s) as ->.
  { unfold ends_in_space. destruct s as [|d s']; [reflexivity|].
    change (last (c :: d :: s')) with (last (d :: s')).
    destruct (last (d :: s')) eqn:E; [reflexivity|].
    apply last_None in E. discriminate. }
  lia.
Qed.

Lemma word_starts_le b s t : word_starts b s <= word_starts b (s ++ t).
Proof. rewrite word_starts_app. lia. Qed.

Lemma word_starts_spaceless_false w : spaceless w -> word_starts false w = 0.
Proof.
  induction 1 as [|c w Hc _ IH]; [reflexivity|].
  cbn [word_starts andb]. rewrite Hc. exact IH.
Qed.

Lemma word_starts_spaceless b w : spaceless w -> word_starts b w <= 1.
Proof.
  intros H. destruct H as [|c w Hc H]; [simpl; lia|].
  cbn [word_starts]. rewrite Hc. rewrite (word_starts_spaceless_false w H).
  destruct (b && negb false); lia.
Qed.

Lemma word_starts_word w : is_a_word w -> word_starts true w = 1.
Proof.
  intros [Hne H]. destruct H as [|c w Hc H]; [contradiction|].
  cbn [word_starts]. rewrite Hc. rewrite (word_starts_spaceless_false w H). reflexivity.
Qed.

Lemma ends_in_space_word b w : is_a_word w -> ends_in_space b w = false.
Proof.
  intros [Hne H]. unfold ends_in_space.
  destruct (last w) as [c|] eqn:E.
  - apply last_Some in E as [l' ->]. apply Forall_app in H as [_ H].
    inversion H; assumption.
  - apply last_None in E. contradiction.
Qed.

Lemma ends_in_space_app b s t : t <> [] -> ends_in_space b (s ++ t) = ends_in_space b t.
Proof.
  intros Ht. unfold ends_in_space.
  destruct (last t) as [c|] eqn:E.
  - apply last_Some in E as [l' ->]. rewrite app_assoc, last_snoc. reflexivity.
  - apply last_None in E. contradiction.
Qed.

Lemma is_a_word_app w t : is_a_word w -> spaceless t -> is_a_word (w ++ t).
Proof.
  intros [Hne H] Ht. split.
  - destruct w; [contradiction|discriminate].
  - apply Forall_app. auto.
Qed.

(** A line of words separated by single spaces has that many words. *)
Lemma word_starts_join ws :
  Forall is_a_word ws ->
  word_starts true (join (js " ") ws) = length ws /\
  (ws <> [] -> ends_in_space true (join (js " ") ws) = false).
Proof.
  induction 1 as [|w ws Hw Hws IH]; [split; [reflexivity|congruence]|].
  destruct ws as [|w' ws'].
  - cbn [join length]. split; [apply word_starts_word; exact Hw|].
    intros _. apply ends_in_space_word. exact Hw.
  - destruct IH as [IH1 IH2]. specialize (IH2 ltac:(discriminate)).
    change (join (js " ") (w :: w' :: ws')) with (w ++ js " " ++ join (js " ") (w' :: ws')).
    split.
    + rewrite word_starts_app, (word_starts_word w Hw), (ends_in_space_word _ w Hw).
      change (js " " ++ join (js " ") (w' :: ws')) with (" "%char :: join (js " ") (w' :: ws')).
      cbn [word_starts andb]. change (is_space " ") with true.
      rewrite IH1. reflexivity.
    + intros _. rewrite app_assoc. rewrite ends_in_space_app; [exact IH2|].
      inversion Hws as [|? ? [Hne _] _]; subst.
      cbn [join]. destruct ws'; [exact Hne|]. destruct w'; [contradiction|discriminate].
Qed.

Lemma word_starts_join_suffix ws t :
  Forall is_a_word ws -> ws <> [] -> spaceless t ->
  word_starts true (join (js " ") ws ++ t) = length ws.
Proof.
  intros Hws Hne Ht. destruct (word_starts_join ws Hws) as [H1 H2].
  rewrite word_starts_app, H1, (H2 Hne), (word_starts_spaceless_false t Ht). lia.
Qed.

(** The pieces of a split at runs of a class. *)
Lemma split_go_pieces p runs cur insep s :
  Forall (fun c => p c = false) cur ->
  Forall (Forall (fun c => p c = false)) (split_go p runs cur insep s).
Proof.
  revert cur insep. induction s as [|c s IH]; intros cur insep Hcur; cbn [split_go].
  - constructor; [|constructor]. apply Forall_rev. exact Hcur.
  - destruct (p c) eqn:Hc.
    + destruct (runs && insep).
      * apply IH. constructor.
      * constructor; [apply Forall_rev; exact Hcur|]. apply IH. constructor.
    + apply IH. constructor; assumption.
Qed.

Lemma truthy_rev (s : list ascii) : truthy (rev s) = truthy s.
Proof.
  destruct s as [|c s]; [reflexivity|]. simpl.
  destruct (rev s); reflexivity.
Qed.

Lemma split_go_count cur insep s :
  (insep = true -> cur = []) ->
  length (filterBoolean (split_go is_space true cur insep s))
  = (if truthy cur then 1 else 0) + word_starts (negb (truthy cur)) s.
Proof.
  revert cur insep. induction s as [|c s IH]; intros cur insep Hinv; cbn [split_go].
  - unfold filterBoolean. cbn [List.filter word_starts]. rewrite truthy_rev.
    destruct (truthy cur); reflexivity.
  - cbn [word_starts]. destruct (is_space c) eqn:Hc.
    + rewrite andb_false_r.
      destruct insep; cbn [andb].
      * rewrite (Hinv eq_refl). rewrite IH by auto. reflexivity.
      * pose proof (IH [] true ltac:(auto)) as IH0. cbn [truthy negb] in IH0.
        unfold filterBoolean in *. cbn [List.filter]. rewrite truthy_rev.
        destruct (truthy cur); cbn [length]; rewrite IH0; reflexivity.
    + rewrite IH by discriminate. cbn [truthy negb andb].
      destruct (truthy cur); cbn [negb andb]; lia.
Qed.

Lemma wordCount_word_starts s : wordCount s = word_starts true s.
Proof. unfold wordCount, split_runs. rewrite split_go_count by discriminate. reflexivity. Qed.

Lemma filterBoolean_words p runs s :
  (forall c, is_space c = true -> p c = true) ->
  Forall is_a_word (filterBoolean (split_go p runs [] false s)).
Proof.
  intros Hp. unfold filterBoolean. apply List.Forall_forall. intros w Hw.
  apply filter_In in Hw as [Hin Ht]. split.
  - apply truthy_true. exact Ht.
  - pose proof (split_go_pieces p runs [] false s ltac:(constructor)) as H.
    rewrite List.Forall_forall in H. specialize (H w Hin).
    eapply Forall_impl; [exact H|]. cbn. intros c Hc.
    destruct (is_space c) eqn:E; [|reflexivity]. rewrite (Hp c E) in Hc. discriminate.
Qed.

Lemma Forall_take_words n (ws : list (list ascii)) :
  Forall is_a_word ws -> Forall is_a_word (take n ws).
Proof. apply Forall_take. Qed.

Lemma terminator_not_space c : is_terminator c = true -> is_space c = false.
Proof.
  unfold is_terminator, is_space, in_range. intros H.
  repeat (apply orb_true_iff in H as [H|H]); apply Nat.eqb_eq in H; rewrite H; reflexivity.
Qed.

Lemma drop_while_split p s :
  exists t, s = t ++ drop_while p s /\ Forall (fun c => p c = true) t.
Proof.
  induction s as [|c s IH]; [exists []; split; [reflexivity|constructor]|].
  cbn [drop_while]. destruct (p c) eqn:E.
  - destruct IH as (t & Ht & Hall). exists (c :: t). split.
    + cbn [app]. f_equal. exact Ht.
    + constructor; assumption.
  - exists []. split; [reflexivity|constructor].
Qed.

Lemma strip_trailing_split p s :
  exists t, s = strip_trailing p s ++ t /\ Forall (fun c => p c = true) t.
Proof.
  unfold strip_trailing. destruct (drop_while_split p (rev s)) as (t & Ht & Hall).
  exists (rev t). split.
  - rewrite <- rev_app_distr, <- Ht, rev_involutive. reflexivity.
  - apply Forall_rev. exact Hall.
Qed.

(** ** Step sanitation *)

Lemma endsWithTerminator_dot s : endsWithTerminator (s ++ js ".") = true.
Proof.
  unfold endsWithTerminator, endsWith. change (js ".") with ["."%char].
  rewrite last_snoc. reflexivity.
Qed.

Lemma stepWords_count s :
  length (stepWords s) = word_starts true (strip_trailing is_terminator s).
Proof. unfold stepWords. apply (wordCount_word_starts (strip_trailing is_terminator s)). Qed.

Lemma stepWords_words s : Forall is_a_word (stepWords s).
Proof. unfold stepWords, split_runs. apply filterBoolean_words. auto. Qed.

Lemma wordCount_stepWords s : wordCount s <= length (stepWords s) + 1.
Proof.
  rewrite wordCount_word_starts, stepWords_count.
  destruct (strip_trailing_split is_terminator s) as (t & Hs & Ht).
  rewrite Hs at 1. rewrite word_starts_app.
  assert (spaceless t) as Hsp.
  { eapply Forall_impl; [exact Ht|]. intros c. apply terminator_not_space. }
  pose proof (word_starts_spaceless (ends_in_space true (strip_trailing is_terminator s)) t Hsp).
  lia.
Qed.

Lemma stepWords_le_wordCount s : length (stepWords s) <= wordCount s.
Proof.
  rewrite wordCount_word_starts, stepWords_count.
  destruct (strip_trailing_split is_terminator s) as (t & Hs & _).
  rewrite Hs at 2. apply word_starts_le.
Qed.

Lemma capped_step ws :
  Forall is_a_word ws -> 12 < length ws ->
  endsWithTerminator (join (js " ") (take 12 ws) ++ js ".") = true /\
  wordCount (join (js " ") (take 12 ws) ++ js ".") = 12.
Proof.
  intros Hws Hlen. split; [apply endsWithTerminator_dot|].
  rewrite wordCount_word_starts, word_starts_join_suffix.
  - rewrite length_take. lia.
  - apply Forall_take. exact Hws.
  - destruct ws; [simpl in Hlen; lia|discriminate].
  - change (js ".") with ["."%char]. repeat constructor.
Qed.

(** C4 (as amended). A sanitized step is empty, or it ends with ".", "!" or
    "?" and has at most twelve words once that final punctuation is taken
    off; split at white space alone it has at most thirteen pieces, the
    thirteenth being final punctuation standing apart. *)
Theorem sanitizePanelStep_shape input :
  sanitizePanelStep input = [] \/
  (endsWithTerminator (sanitizePanelStep input) = true /\
   length (stepWords (sanitizePanelStep input)) <= 12 /\
   wordCount (sanitizePanelStep input) <= 13).
Proof.
  unfold sanitizePanelStep.
  destruct (List.find truthy _) as [firstLine|]; [|left; reflexivity].
  set (step0 := trim (remove_first bullet_label _)). clearbody step0.
  destruct (negb (truthy step0)); [left; reflexivity|].
  set (step1 := match search_class is_terminator step0 with
                | Some b => trim (take (b + 1) step0)
                | None => step0
                end). clearbody step1.
  set (step2 := if endsWithTerminator step1 then step1 else step1 ++ js ".").
  assert (endsWithTerminator step2 = true) as Hend.
  { unfold step2. destruct (endsWithTerminator step1) eqn:E; [exact E|].
    apply endsWithTerminator_dot. }
  clearbody step2. right.
  destruct (12 <? length (stepWords step2)) eqn:E.
  - apply Nat.ltb_lt in E.
    destruct (capped_step (stepWords step2) (stepWords_words step2) E) as [H1 H2].
    split; [exact H1|].
    pose proof (stepWords_le_wordCount (join (js " ") (take 12 (stepWords step2)) ++ js ".")).
    lia.
  - apply Nat.ltb_ge in E. split; [exact Hend|]. split; [exact E|].
    pose proof (wordCount_stepWords step2). lia.
Qed.

(** C4 as stated fails: twelve words followed by a full stop standing apart
    are kept as they are, thirteen pieces between white space. *)
Lemma detached_terminator_is_thirteenth : ~ twelve_tokens_as_stated.
Proof.
  intros H. destruct (H (js "a b c d e f g h i j k l .")) as [H0|[_ H1]].
  - vm_compute in H0. discriminate H0.
  - vm_compute in H1. lia.
Qed.

(** The step gate counts that text as thirteen words and rejects it. *)
Example detached_terminator_too_broad :
  isStepTooBroad (sanitizePanelStep (js "a b c d e f g h i j k l .")) = true.
Proof. vm_compute. reflexivity. Qed.

(** ** Word limits *)

Lemma trimStart_drop_while s : trimStart s = drop_while is_space s.
Proof. induction s as [|c s IH]; [reflexivity|]. simpl. rewrite IH. reflexivity. Qed.

Lemma trimEnd_strip_trailing s : trimEnd s = strip_trailing is_space s.
Proof. unfold trimEnd, strip_trailing. rewrite trimStart_drop_while. reflexivity. Qed.















(** ** Frame assessment coercion *)






(** *** The object found in the reply *)















(** ** The tool-call resolution loop *)

Lemma resolveRounds_round env n response w :
  resolveRounds env (S n) response w
  = match oneRound env response w with
    | Finished w' => (Ok tt, w')
    | Continue response' w' => resolveRounds env n response' w'
    | Raised e w' => (Throw e, w')
    end.
Proof.
  cbn [resolveRounds]. unfold oneRound.
  destruct (length (functionCallsOf (output response)) =? 0).
  - unfold noted. destruct (output_text response) as [t|]; [|reflexivity].
    destruct (truthy (trim t)); reflexivity.
  - unfold mbind at 1. unfold M_bind at 1.
    destruct (executeAll env (functionCallsOf (output response)) w) as [[results|e] w1];
      [|reflexivity].
    unfold mbind, M_bind, interact, modify, lift, after_request. cbn [tick].
    destruct (create env (tick w1)) as [response'|e]; reflexivity.
Qed.

Lemma oneRound_finished env response w w' :
  oneRound env response w = Finished w' ->
  functionCallsOf (output response) = [] /\ w' = noted response w.
Proof.
  unfold oneRound. destruct (functionCallsOf (output response)) as [|c cs].
  - cbn. intros [= <-]. auto.
  - cbn [length Nat.eqb].
    destruct (executeAll env (c :: cs) w) as [[results|e] w1]; [|discriminate].
    destruct (create env (tick w1)); discriminate.
Qed.

Lemma noted_only_store response w :
  server (noted response w) = server w /\ asst (noted response w) = asst w /\
  timers (noted response w) = timers w /\ requests (noted response w) = requests w.
Proof.
  unfold noted. destruct (truthy _); auto.
Qed.

Lemma resolveRounds_outcome env n response w :
  (exists k r' wk,
      k < n /\ reaches env k response w r' wk /\
      functionCallsOf (output r') = [] /\
      resolveRounds env n response w = (Ok tt, noted r' wk)) \/
  (exists k r' wk e w',
      k < n /\ reaches env k response w r' wk /\
      oneRound env r' wk = Raised e w' /\
      resolveRounds env n response w = (Throw e, w')) \/
  (exists r' w',
      reaches env n response w r' w' /\
      resolveRounds env n response w = (Throw loop_exceeded, w')).
Proof.
  revert response w. induction n as [|n IH]; intros response w.
  - right. right. exists response, w. split; [constructor|reflexivity].
  - rewrite resolveRounds_round.
    destruct (oneRound env response w) as [w'|r1 w1|e w'] eqn:E.
    + left. apply oneRound_finished in E as [E ->].
      exists 0, response, w. split; [lia|]. split; [constructor|]. auto.
    + destruct (IH r1 w1) as [(k & r' & wk & Hk & Hr & Hc & Hres)
                             |[(k & r' & wk & e & w' & Hk & Hr & Ho & Hres)
                              |(r' & w' & Hr & Hres)]].
      * left. exists (S k), r', wk. split; [lia|].
        split; [econstructor; eassumption|]. auto.
      * right. left. exists (S k), r', wk, e, w'. split; [lia|].
        split; [econstructor; eassumption|]. auto.
      * right. right. exists r', w'. split; [econstructor; eassumption|]. exact Hres.
    + right. left. exists 0, response, w, e, w'. split; [lia|].
      split; [constructor|]. auto.
Qed.

(** C6 (as amended). [resolveResponse] always returns, in one of three ways.
    Either, after fewer than eight rounds of tool calls, the model's answer
    holds no function call: the loop ends normally, the text of the answer is
    only noted in the cooking state, and the server state (what was spoken
    and broadcast), the assistant and the requests are as the last round
    left them. Or, in one of the first eight rounds, a tool call or the
    request to the model raises, and the loop ends with that error. Or eight
    rounds of tool calls ran to their end, and the loop fails with
    "Tool-call loop exceeded safety depth.". *)
Theorem resolveResponse_outcomes env response w :
  (exists k r' wk,
      k < 8 /\ reaches env k response w r' wk /\
      functionCallsOf (output r') = [] /\
      resolveResponse env response w = (Ok tt, noted r' wk) /\
      server (noted r' wk) = server wk /\ asst (noted r' wk) = asst wk /\
      requests (noted r' wk) = requests wk) \/
  (exists k r' wk e w',
      k < 8 /\ reaches env k response w r' wk /\
      functionCallsOf (output r') <> [] /\
      (executeAll env (functionCallsOf (output r')) wk = (Throw e, w') \/
       exists results w1,
         executeAll env (functionCallsOf (output r')) wk = (Ok results, w1) /\
         create env (tick w1) = Throw e /\
         w' = after_request (id r') results w1) /\
      resolveResponse env response w = (Throw e, w')) \/
  (exists r' w',
      reaches env 8 response w r' w' /\
      resolveResponse env response w = (Throw loop_exceeded, w')).
Proof.
  unfold resolveResponse.
  destruct (resolveRounds_outcome env 8 response w)
    as [(k & r' & wk & Hk & Hr & Hc & Hres)
       |[(k & r' & wk & e & w' & Hk & Hr & Ho & Hres)|H]].
  - left. exists k, r', wk. destruct (noted_only_store r' wk) as (H1 & H2 & _ & H4).
    repeat split; assumption.
  - right. left. exists k, r', wk, e, w'.
    split; [exact Hk|]. split; [exact Hr|].
    revert Ho. unfold oneRound.
    destruct (functionCallsOf (output r')) as [|c cs] eqn:Ec; [discriminate|].
    cbn [length Nat.eqb].
    destruct (executeAll env (c :: cs) wk) as [[results|e1] w1] eqn:Ex.
    + destruct (create env (tick w1)) as [|e2] eqn:Ecr; [discriminate|].
      intros [= -> <-]. split; [discriminate|]. split; [|exact Hres].
      right. exists results, w1. auto.
    + intros [= -> ->]. split; [discriminate|]. split; [|exact Hres]. left. reflexivity.
  - right. right. exact H.
Qed.

(** C6 as stated fails: when the model calls [speak] without a message, the
    loop ends in the first round with "Missing string argument: message":
    neither a normal end nor the safety-depth failure. *)
Lemma missing_argument_ends_loop : ~ two_outcomes_as_stated.
Proof.
  intros H.
  destruct (H (example_env plain_answer) speak_without_message (initialWorld [])) as [E|E];
    vm_compute in E; discriminate E.
Qed.

Example missing_argument_error :
  (resolveResponse (example_env plain_answer) speak_without_message (initialWorld [])).1
  = Throw (js "Missing string argument: message").
Proof. vm_compute. reflexivity. Qed.

Example runaway_tool_calls :
  (resolveResponse (example_env unknown_tool_call) unknown_tool_call (initialWorld [])).1
  = Throw loop_exceeded.
Proof. vm_compute. reflexivity. Qed.

Example plain_answer_is_noted :
  let w := (resolveResponse (example_env plain_answer) unknown_tool_call (initialWorld [])).2 in
  recentObservations (store w) = [js "assistant_note: Done."] /\
  broadcasts (server w) = [].
Proof. vm_compute. split; reflexivity. Qed.

(** ** More on the catalog matcher *)

Lemma ratio_nonneg a b : (0 <= ratio a b)%Q.
Proof.
  unfold ratio. destruct b as [|b].
  - unfold Qdiv, Qinv. simpl. rewrite Qmult_0_r. apply Qle_refl.
  - apply Qle_shift_div_l.
    + change 0%Q with (inject_Z 0). rewrite <- Zlt_Qlt. lia.
    + rewrite Qmult_0_l. change 0%Q with (inject_Z 0). rewrite <- Zle_Qle. lia.
Qed.

Lemma ratio_antitone a m n : 0 < m -> m <= n -> (ratio a n <= ratio a m)%Q.
Proof.
  intros Hm Hmn. unfold ratio.
  apply Qle_shift_div_r.
  { change 0%Q with (inject_Z 0). rewrite <- Zlt_Qlt. lia. }
  assert (inject_Z (Z.of_nat a) / inject_Z (Z.of_nat m) * inject_Z (Z.of_nat n)
          == inject_Z (Z.of_nat a) * inject_Z (Z.of_nat n) / inject_Z (Z.of_nat m))%Q as ->.
  { field. intros H. unfold Qeq in H. simpl in H. lia. }
  apply Qle_shift_div_l.
  { change 0%Q with (inject_Z 0). rewrite <- Zlt_Qlt. lia. }
  rewrite <- !inject_Z_mult, <- Zle_Qle. nia.
Qed.

Lemma prefixBonus_range qt ct :
  (0 <= prefixBonus qt ct)%Q /\ (prefixBonus qt ct <= 8 # 100)%Q.
Proof.
  unfold prefixBonus. destruct (head ct), (head qt); try (split; lra).
  destruct (truthy _ && truthy _ && eqb _ _); split; lra.
Qed.

(** X1. The coverage term of [scoreDishMatch] never decides: nine tenths of the
    coverage is at most the overlap, so that for keys that are neither equal
    nor contained in one another the score is [min(1, overlap + prefixBonus)]. *)
Theorem scoreDishMatch_coverage_never_decides queryKey candidateKey :
  queryKey <> candidateKey ->
  includes candidateKey queryKey = false ->
  includes queryKey candidateKey = false ->
  (scoreDishMatch queryKey candidateKey ==
   Qmin 1
     (ratio (shared_tokens (tokenizeDishKey queryKey) (tokenizeDishKey candidateKey))
        (Nat.min (length (tokenizeDishKey queryKey)) (length (tokenizeDishKey candidateKey)))
      + (if first_tokens_match (tokenizeDishKey queryKey) (tokenizeDishKey candidateKey)
         then 8 # 100 else 0)))%Q.
Proof.
  intros Hne Hi1 Hi2. rewrite (scoreDishMatch_formula _ _ Hne Hi1 Hi2).
  set (qt := tokenizeDishKey queryKey). set (ct := tokenizeDishKey candidateKey).
  assert (ratio (shared_tokens qt ct) (length qt) * (9 # 10)
          <= ratio (shared_tokens qt ct) (Nat.min (length qt) (length ct)))%Q as Hle.
  { destruct (decide (Nat.min (length qt) (length ct) = 0)) as [E|E].
    - assert (shared_tokens qt ct = 0) as ->.
      { destruct qt; [reflexivity|]. destruct ct; [apply shared_tokens_nil_r|].
        simpl in E. lia. }
      rewrite !ratio_zero. rewrite Qmult_0_l. apply Qle_refl.
    - pose proof (ratio_antitone (shared_tokens qt ct) (Nat.min (length qt) (length ct))
                    (length qt) ltac:(lia) ltac:(lia)) as H1.
      pose proof (ratio_nonneg (shared_tokens qt ct) (length qt)) as H2.
      lra. }
  rewrite (Q.max_l _ _ Hle). reflexivity.
Qed.

Lemma scoreDishMatch_coverage_never_decides_witness :
  (scoreDishMatch (js "pasta carbonara") (js "pasta bolognese") ==
   Qmin 1
     (ratio (shared_tokens (tokenizeDishKey (js "pasta carbonara"))
               (tokenizeDishKey (js "pasta bolognese")))
        (Nat.min (length (tokenizeDishKey (js "pasta carbonara")))
           (length (tokenizeDishKey (js "pasta bolognese"))))
      + (if first_tokens_match (tokenizeDishKey (js "pasta carbonara"))
              (tokenizeDishKey (js "pasta bolognese"))
         then 8 # 100 else 0)))%Q.
Proof.
  apply (scoreDishMatch_coverage_never_decides (js "pasta carbonara") (js "pasta bolognese")).
  - vm_compute. discriminate.
  - vm_compute. reflexivity.
  - vm_compute. reflexivity.
Defined.

(** X2. A score is a number between 0 and 1. *)
Theorem scoreDishMatch_range queryKey candidateKey :
  (0 <= scoreDishMatch queryKey candidateKey)%Q /\
  (scoreDishMatch queryKey candidateKey <= 1)%Q.
Proof.
  unfold scoreDishMatch.
  destruct (negb (truthy queryKey) || negb (truthy candidateKey));
    [split; lra|].
  destruct (eqb queryKey candidateKey); [split; lra|].
  destruct (includes candidateKey queryKey || includes queryKey candidateKey);
    [split; lra|].
  set (qt := tokenizeDishKey queryKey). set (ct := tokenizeDishKey candidateKey).
  destruct ((length qt =? 0) || (length ct =? 0)); [split; lra|].
  destruct (shared_tokens qt ct =? 0); [split; lra|].
  split; [|apply Q.le_min_l].
  apply Q.min_glb; [lra|].
  pose proof (ratio_nonneg (shared_tokens qt ct) (Nat.min (length qt) (length ct))) as H1.
  pose proof (Q.le_max_l (ratio (shared_tokens qt ct) (Nat.min (length qt) (length ct)))
                (ratio (shared_tokens qt ct) (length qt) * (9 # 10))) as H2.
  destruct (prefixBonus_range qt ct) as [H3 _]. lra.
Qed.

Lemma findBestFuzzyDishMatch_by queryKey recipes :
  findBestFuzzyDishMatch queryKey recipes
  = findBestFuzzyBy Q scoreDishMatch (fun a b => Qltb b a) 0%Q (fun s => Qltb s (62 # 100))
      queryKey recipes.
Proof.
  unfold findBestFuzzyDishMatch, findBestFuzzyBy.
  assert (forall bs br,
    best_loop queryKey recipes bs br
    = best_loop_by Q scoreDishMatch (fun a b => Qltb b a) queryKey recipes bs br) as ->;
    [|reflexivity].
  induction recipes as [|c rest IH]; intros bs br; [reflexivity|].
  cbn [best_loop best_loop_by]. cbv zeta. destruct (Qltb bs _); apply IH.
Qed.

Section FuzzyLoopOrder.

Variable Score : Type.
Variable score : list ascii -> list ascii -> Score.
Variable above : Score -> Score -> bool.
Variable zero : Score.
Variable below : Score -> bool.

Hypothesis above_asym : forall x y, above x y = true -> above y x = false.
Hypothesis above_next :
  forall x y z, above x y = true -> above z y = false -> above x z = true.

Lemma above_irrefl x : above x x = false.
Proof.
  destruct (above x x) eqn:E; [|reflexivity]. rewrite (above_asym _ _ E) in E. discriminate.
Qed.

Lemma best_loop_by_spec queryKey recipes seen bestScore bestRecipe :
  best_so_far Score score above zero queryKey seen bestScore bestRecipe ->
  best_so_far Score score above zero queryKey (seen ++ recipes)
    (best_loop_by Score score above queryKey recipes bestScore bestRecipe).1
    (best_loop_by Score score above queryKey recipes bestScore bestRecipe).2.
Proof.
  revert seen bestScore bestRecipe.
  induction recipes as [|n rest IH]; intros seen bs br Hinv.
  - rewrite app_nil_r. exact Hinv.
  - cbn [best_loop_by]. cbv zeta.
    replace (seen ++ n :: rest) with ((seen ++ [n]) ++ rest)
      by (rewrite <- app_assoc; reflexivity).
    destruct Hinv as (Hseen & Hzero & Hbest).
    destruct (above (score queryKey (dishKey n)) bs) eqn:E; apply IH.
    + assert (above (score queryKey (dishKey n)) zero = true) as Hz
        by exact (above_next _ _ _ E Hzero).
      split; [|split].
      * intros c Hc. apply in_app_or in Hc as [Hc|[<-|[]]]; [|apply above_irrefl].
        apply above_asym. exact (above_next _ _ _ E (Hseen c Hc)).
      * apply above_asym. exact Hz.
      * exists seen, []. split; [reflexivity|]. split; [reflexivity|].
        split; [exact Hz|]. intros c Hc. exact (above_next _ _ _ E (Hseen c Hc)).
    + split; [|split; [exact Hzero|]].
      * intros c Hc. apply in_app_or in Hc as [Hc|[<-|[]]]; [exact (Hseen c Hc)|exact E].
      * destruct br as [f|]; [|exact I].
        destruct Hbest as (before & after & -> & Hs & Hz & Hb).
        exists before, (after ++ [n]). split; [|auto].
        rewrite <- app_assoc. reflexivity.
Qed.

Lemma findBestFuzzyBy_earliest queryKey recipes f :
  findBestFuzzyBy Score score above zero below queryKey recipes = Some f ->
  exists before after,
    recipes = before ++ f :: after /\
    below (score queryKey (dishKey f)) = false /\
    above (score queryKey (dishKey f)) zero = true /\
    (forall c, In c before ->
       above (score queryKey (dishKey f)) (score queryKey (dishKey c)) = true) /\
    (forall c, In c after ->
       above (score queryKey (dishKey c)) (score queryKey (dishKey f)) = false).
Proof.
  unfold findBestFuzzyBy.
  pose proof (best_loop_by_spec queryKey recipes [] zero None) as H.
  destruct (best_loop_by Score score above queryKey recipes zero None) as [bs br].
  cbn [fst snd app] in H.
  destruct H as (Hseen & _ & Hbest).
  { split; [intros c []|]. split; [apply above_irrefl|exact I]. }
  destruct (below bs) eqn:Eb; [discriminate|]. intros ->.
  destruct Hbest as (before & after & -> & -> & Hz & Hb).
  exists before, after. split; [reflexivity|]. split; [exact Eb|]. split; [exact Hz|].
  split; [exact Hb|]. intros c Hc. apply Hseen. apply in_or_app. right. right. exact Hc.
Qed.

End FuzzyLoopOrder.

(** X3. The fuzzy match is the earliest of the entries with the highest
    score, in whatever arithmetic the scores are computed, provided [>] on
    them is an order: the score of the entry returned is not below 0.62 and
    is above 0, it is above the score of every entry before it, and no entry
    after it scores above it. *)
Theorem findBestFuzzy_earliest (Score : Type) (score : list ascii -> list ascii -> Score)
    (above : Score -> Score -> bool) (zero : Score) (below : Score -> bool)
    queryKey recipes f :
  (forall x y, above x y = true -> above y x = false) ->
  (forall x y z, above x y = true -> above z y = false -> above x z = true) ->
  findBestFuzzyBy Score score above zero below queryKey recipes = Some f ->
  exists before after,
    recipes = before ++ f :: after /\
    below (score queryKey (dishKey f)) = false /\
    above (score queryKey (dishKey f)) zero = true /\
    (forall c, In c before ->
       above (score queryKey (dishKey f)) (score queryKey (dishKey c)) = true) /\
    (forall c, In c after ->
       above (score queryKey (dishKey c)) (score queryKey (dishKey f)) = false).
Proof.
  intros H1 H2. exact (findBestFuzzyBy_earliest Score score above zero below H1 H2 _ _ _).
Qed.

Lemma findBestFuzzy_earliest_witness :
  exists before after,
    [pasta_bolognese; pasta_bolognese] = before ++ pasta_bolognese :: after /\
    Qltb (scoreDishMatch (js "bolognese") (dishKey pasta_bolognese)) (62 # 100) = false /\
    Qltb 0%Q (scoreDishMatch (js "bolognese") (dishKey pasta_bolognese)) = true /\
    (forall c, In c before ->
       Qltb (scoreDishMatch (js "bolognese") (dishKey c))
         (scoreDishMatch (js "bolognese") (dishKey pasta_bolognese)) = true) /\
    (forall c, In c after ->
       Qltb (scoreDishMatch (js "bolognese") (dishKey pasta_bolognese))
         (scoreDishMatch (js "bolognese") (dishKey c)) = false).
Proof.
  apply (findBestFuzzy_earliest Q scoreDishMatch (fun a b => Qltb b a) 0%Q
           (fun s => Qltb s (62 # 100)) (js "bolognese")
           [pasta_bolognese; pasta_bolognese] pasta_bolognese).
  - intros x y H. apply Qltb_true in H. apply Qltb_false. lra.
  - intros x y z H1 H2. apply Qltb_true in H1. apply Qltb_false in H2. apply Qltb_true. lra.
  - vm_compute. reflexivity.
Defined.

(** ** Keys in normal form *)

Lemma single_spaced_weaken p b z : single_spaced p b z -> single_spaced p false z.
Proof.
  destruct z as [|c z]; [auto|]. cbn [single_spaced].
  destruct (p c); [|auto]. intros (H1 & _ & H3). auto.
Qed.

Lemma single_spaced_mono (p q : ascii -> bool) b b' z :
  (forall c, q c = true -> p c = true) ->
  (b' = true -> b = true) ->
  single_spaced p b z -> single_spaced q b' z.
Proof.
  intros Hqp. revert b b'. induction z as [|c z IH]; intros b b' Hb; [auto|].
  cbn [single_spaced]. destruct (q c) eqn:Eq.
  - rewrite (Hqp c Eq). intros (H1 & H2 & H3). split; [exact H1|]. split.
    + destruct b'; [|reflexivity]. rewrite (Hb eq_refl) in H2. discriminate.
    + apply (IH true true); auto.
  - destruct (p c).
    + intros (_ & _ & H3). apply (IH true false); [discriminate|exact H3].
    + apply IH. discriminate.
Qed.

Lemma single_spaced_prefix p b z t : single_spaced p b (z ++ t) -> single_spaced p b z.
Proof.
  revert b. induction z as [|c z IH]; intros b; [intros _; exact I|].
  cbn [app single_spaced]. destruct (p c).
  - intros (H1 & H2 & H3). eauto.
  - apply IH.
Qed.

Lemma single_spaced_trimStart p b z :
  single_spaced p b z -> single_spaced p false (trimStart z).
Proof.
  revert b. induction z as [|c z IH]; intros b H; [exact I|].
  cbn [trimStart]. destruct (is_space c).
  - revert H. cbn [single_spaced]. destruct (p c).
    + intros (_ & _ & H3). exact (IH true H3).
    + apply IH.
  - exact (single_spaced_weaken p b _ H).
Qed.

Lemma single_spaced_trim p b z : single_spaced p b z -> single_spaced p false (trim z).
Proof.
  intros H. unfold trim. rewrite trimEnd_strip_trailing.
  pose proof (single_spaced_trimStart p b z H) as H1.
  destruct (strip_trailing_split is_space (trimStart z)) as (t & Ht & _).
  rewrite Ht in H1. exact (single_spaced_prefix _ _ _ _ H1).
Qed.

Lemma replace_runs_go_single p b s :
  p " "%char = true -> single_spaced p b (replace_runs_go p (js " ") b s).
Proof.
  intros Hp. revert b. induction s as [|c s IH]; intros b; [exact I|].
  cbn [replace_runs_go]. destruct (p c) eqn:E.
  - destruct b; [apply IH|].
    change (js " " ++ replace_runs_go p (js " ") true s)
      with (" "%char :: replace_runs_go p (js " ") true s).
    cbn [single_spaced]. rewrite Hp. auto.
  - cbn [single_spaced]. rewrite E. apply IH.
Qed.

Lemma replace_runs_go_fixed p b z :
  single_spaced p b z -> replace_runs_go p (js " ") b z = z.
Proof.
  revert b. induction z as [|c z IH]; intros b; [reflexivity|].
  cbn [single_spaced replace_runs_go]. destruct (p c).
  - intros (-> & -> & H3). rewrite (IH true H3). reflexivity.
  - intros H. rewrite (IH false H). reflexivity.
Qed.

Lemma last_rev_head (l : list ascii) : last (rev l) = head l.
Proof. destruct l as [|c l]; [reflexivity|]. cbn [rev head]. apply last_snoc. Qed.

Lemma trimEnd_last s c : last (trimEnd s) = Some c -> is_space c = false.
Proof.
  unfold trimEnd. rewrite last_rev_head. apply trimStart_head.
Qed.

Lemma trim_trimmed s : trimmed (trim s).
Proof.
  split.
  - intros c Hc. apply (trimStart_head (trim s)). rewrite trim_trimStart. exact Hc.
  - intros c. unfold trim. apply trimEnd_last.
Qed.

Lemma trimEnd_fixed s :
  (forall c, last s = Some c -> is_space c = false) -> trimEnd s = s.
Proof.
  intros H. unfold trimEnd. rewrite trimStart_fixed; [apply rev_involutive|].
  intros c Hc. apply H. rewrite <- (rev_involutive s), last_rev_head. exact Hc.
Qed.

Lemma trim_fixed s : trimmed s -> trim s = s.
Proof.
  intros [H1 H2]. unfold trim. rewrite (trimStart_fixed s H1). apply trimEnd_fixed. exact H2.
Qed.

Lemma key_chars_from b z c :
  single_spaced not_lower_alnum b z -> In c z ->
  is_lower_alnum c = true \/ c = " "%char.
Proof.
  revert b. induction z as [|d z IH]; intros b H [].
  - subst d. revert H. cbn [single_spaced]. unfold not_lower_alnum.
    destruct (is_lower_alnum c); [auto|]. cbn [negb]. intros (-> & _). auto.
  - revert H. cbn [single_spaced]. destruct (not_lower_alnum d).
    + intros (_ & _ & H3). eauto.
    + eauto.
Qed.

Lemma key_chars z c :
  single_spaced not_lower_alnum false z -> In c z ->
  is_lower_alnum c = true \/ c = " "%char.
Proof. apply key_chars_from. Qed.

Lemma lower_char_fixed c : is_lower_alnum c = true \/ c = " "%char -> lower_char c = c.
Proof.
  intros [H| ->]; [|reflexivity].
  unfold lower_char.
  destruct (is_upper c || in_range 192 222 c && negb (code c =? 215)) eqn:E; [|reflexivity].
  exfalso. unfold is_lower_alnum, is_lower, is_digit, is_upper, in_range in *.
  repeat match goal with
         | H : _ || _ = true |- _ => apply orb_true_iff in H as [H|H]
         | H : _ && _ = true |- _ => apply andb_true_iff in H as [? ?]
         | H : negb _ = true |- _ => apply negb_true_iff in H
         | H : (_ <=? _) = true |- _ => apply Nat.leb_le in H
         | H : (_ =? _) = false |- _ => apply Nat.eqb_neq in H
         end; lia.
Qed.

Lemma toLowerCase_fixed z :
  (forall c, In c z -> is_lower_alnum c = true \/ c = " "%char) -> toLowerCase z = z.
Proof.
  intros H. unfold toLowerCase. induction z as [|c z IH]; [reflexivity|].
  cbn [map]. rewrite lower_char_fixed by (apply H; left; reflexivity).
  rewrite IH; [reflexivity|]. intros d Hd. apply H. right. exact Hd.
Qed.

Lemma replace_each_fixed p rep z :
  (forall c, In c z -> p c = false) -> replace_each p rep z = z.
Proof.
  intros H. induction z as [|c z IH]; [reflexivity|].
  cbn [replace_each]. rewrite (H c) by (left; reflexivity).
  rewrite IH; [reflexivity|]. intros d Hd. apply H. right. exact Hd.
Qed.

Lemma space_not_lower_alnum c : is_space c = true -> not_lower_alnum c = true.
Proof.
  intros H. unfold not_lower_alnum. apply negb_true_iff.
  destruct (is_lower_alnum c) eqn:E; [|reflexivity]. exfalso.
  unfold is_lower_alnum, is_lower, is_digit, is_space, in_range in *.
  repeat match goal with
         | H : _ || _ = true |- _ => apply orb_true_iff in H as [H|H]
         | H : _ && _ = true |- _ => apply andb_true_iff in H as [? ?]
         | H : (_ <=? _) = true |- _ => apply Nat.leb_le in H
         | H : (_ =? _) = true |- _ => apply Nat.eqb_eq in H
         end; lia.
Qed.

Lemma key_form_spaces z : key_form z -> single_spaced is_space false z.
Proof.
  intros [H _]. apply (single_spaced_mono not_lower_alnum is_space false false);
    [exact space_not_lower_alnum|auto|exact H].
Qed.

Lemma normalizeDishKey_form x : key_form (normalizeDishKey x).
Proof.
  unfold normalizeDishKey.
  set (y := replace_runs _ _ (replace_each _ _ _)).
  assert (single_spaced not_lower_alnum false (trim y)) as H1.
  { apply (single_spaced_trim _ false). unfold y, replace_runs.
    apply (replace_runs_go_single not_lower_alnum false). reflexivity. }
  assert (single_spaced is_space false (trim y)) as H2.
  { apply (single_spaced_mono not_lower_alnum is_space false false);
      [exact space_not_lower_alnum|auto|exact H1]. }
  unfold replace_runs. rewrite (replace_runs_go_fixed is_space false _ H2).
  split; [exact H1|apply trim_trimmed].
Qed.

Lemma normalizeDishKey_fixed z : key_form z -> normalizeDishKey z = z.
Proof.
  intros Hz. pose proof (key_form_spaces z Hz) as Hsp. destruct Hz as [H1 H2].
  unfold normalizeDishKey.
  rewrite toLowerCase_fixed by (intros c Hc; exact (key_chars z c H1 Hc)).
  rewrite replace_each_fixed.
  2:{ intros c Hc. destruct (key_chars z c H1 Hc) as [H| ->]; [|reflexivity].
      unfold is_char. apply Ascii.eqb_neq. intros <-. vm_compute in H. discriminate. }
  unfold replace_runs.
  change (fun c => negb (is_lower_alnum c)) with not_lower_alnum.
  rewrite (replace_runs_go_fixed not_lower_alnum false z H1).
  rewrite (trim_fixed z H2). apply (replace_runs_go_fixed is_space false z Hsp).
Qed.

(** X4. A dish key is in key form, and a text in key form is its own dish key:
    [normalizeDishKey] is idempotent, which is what lets the store normalize
    a stored key again when it reads the file. *)
Theorem normalizeDishKey_key_form s :
  key_form (normalizeDishKey s) /\
  normalizeDishKey (normalizeDishKey s) = normalizeDishKey s /\
  (forall c, In c (normalizeDishKey s) -> is_lower_alnum c = true \/ c = " "%char).
Proof.
  split; [apply normalizeDishKey_form|].
  split; [apply normalizeDishKey_fixed, normalizeDishKey_form|].
  intros c. apply key_chars. apply normalizeDishKey_form.
Qed.

Lemma single_spaced_ext (p q : ascii -> bool) b z :
  (forall c, In c z -> p c = q c) -> single_spaced p b z -> single_spaced q b z.
Proof.
  revert b. induction z as [|c z IH]; intros b H; [auto|].
  cbn [single_spaced]. rewrite <- (H c) by (left; reflexivity).
  destruct (p c).
  - intros (H1 & H2 & H3). split; [exact H1|]. split; [exact H2|].
    apply IH; [|exact H3]. intros d Hd. apply H. right. exact Hd.
  - apply IH. intros d Hd. apply H. right. exact Hd.
Qed.

Lemma replace_runs_go_chars (Q : ascii -> Prop) p rep b s :
  Forall Q rep -> Forall Q s -> Forall Q (replace_runs_go p rep b s).
Proof.
  intros Hrep Hs. revert b. induction Hs as [|c s Hc _ IH]; intros b; [constructor|].
  cbn [replace_runs_go]. destruct (p c).
  - apply Forall_app. split; [destruct b; [constructor|exact Hrep]|apply IH].
  - constructor; [exact Hc|apply IH].
Qed.

Lemma replace_each_chars (Q : ascii -> Prop) p rep s :
  Forall Q rep -> (forall c, p c = false -> Q c) -> Forall Q (replace_each p rep s).
Proof.
  intros Hrep Hq. induction s as [|c s IH]; [constructor|].
  cbn [replace_each]. destruct (p c) eqn:E.
  - apply Forall_app. split; [exact Hrep|exact IH].
  - constructor; [exact (Hq c E)|exact IH].
Qed.

Lemma lower_alnum_not_space c : is_lower_alnum c = true -> is_space c = false.
Proof.
  intros H. destruct (is_space c) eqn:E; [|reflexivity].
  apply space_not_lower_alnum in E. unfold not_lower_alnum in E.
  rewrite H in E. discriminate.
Qed.

(** X5. A step key is in key form and [normalizeStepKey] is idempotent: the two
    keys that [isSameStep] compares are compared as fixed points. *)
Theorem normalizeStepKey_key_form s :
  key_form (normalizeStepKey s) /\
  normalizeStepKey (normalizeStepKey s) = normalizeStepKey s /\
  normalizeDishKey (normalizeStepKey s) = normalizeStepKey s.
Proof.
  assert (forall x, key_form (normalizeStepKey x)) as Hform.
  { intros x. unfold normalizeStepKey.
    set (x' := replace_each _ (js " ") (toLowerCase x)).
    set (y := replace_runs is_space (js " ") x').
    assert (Forall (fun c => is_lower_alnum c || is_space c = true) x') as Hx'.
    { unfold x'. apply replace_each_chars.
      - repeat constructor.
      - intros c Hc. apply negb_false_iff in Hc. exact Hc. }
    assert (Forall (fun c => is_lower_alnum c || is_space c = true) y) as Hy.
    { unfold y, replace_runs. apply replace_runs_go_chars; [repeat constructor|exact Hx']. }
    assert (single_spaced is_space false y) as Hsp.
    { unfold y, replace_runs. apply (replace_runs_go_single is_space false). reflexivity. }
    assert (single_spaced not_lower_alnum false y) as Hk.
    { apply (single_spaced_ext is_space not_lower_alnum); [|exact Hsp].
      intros c Hc. rewrite List.Forall_forall in Hy. specialize (Hy c Hc). cbv beta in Hy.
      unfold not_lower_alnum. destruct (is_lower_alnum c) eqn:E.
      - rewrite (lower_alnum_not_space c E). reflexivity.
      - cbn [orb] in Hy. rewrite Hy. reflexivity. }
    split; [exact (single_spaced_trim _ false y Hk)|apply trim_trimmed]. }
  assert (forall z, key_form z -> normalizeStepKey z = z) as Hfix.
  { intros z Hz. pose proof (key_form_spaces z Hz) as Hsp. destruct Hz as [H1 H2].
    unfold normalizeStepKey.
    rewrite toLowerCase_fixed by (intros c Hc; exact (key_chars z c H1 Hc)).
    rewrite replace_each_fixed.
    2:{ intros c Hc. apply negb_false_iff.
        destruct (key_chars z c H1 Hc) as [H| ->]; [rewrite H|]; reflexivity. }
    unfold replace_runs. rewrite (replace_runs_go_fixed is_space false z Hsp).
    apply (trim_fixed z H2). }
  split; [apply Hform|]. split; [apply Hfix, Hform|].
  apply normalizeDishKey_fixed, Hform.
Qed.

(** *** White space around a dish name *)

Lemma lower_char_space c : is_space (lower_char c) = is_space c.
Proof.
  unfold lower_char. destruct (is_upper c || _) eqn:E; [|reflexivity].
  assert (is_space c = false) as ->.
  { unfold is_space, is_upper, in_range in *. destruct (_ || _ || _) eqn:F; [|reflexivity].
    exfalso.
    repeat match goal with
           | H : _ || _ = true |- _ => apply orb_true_iff in H as [H|H]
           | H : _ && _ = true |- _ => apply andb_true_iff in H as [? ?]
           | H : negb _ = true |- _ => apply negb_true_iff in H
           | H : (_ <=? _) = true |- _ => apply Nat.leb_le in H
           | H : (_ =? _) = true |- _ => apply Nat.eqb_eq in H
           | H : (_ =? _) = false |- _ => apply Nat.eqb_neq in H
           end; lia. }
  unfold is_space, is_upper, in_range in *. unfold code in *.
  assert (nat_of_ascii c < 256) as Hlt by apply nat_ascii_bounded.
  assert (nat_of_ascii c + 32 < 256) as Hlt'.
  { repeat match goal with
           | H : _ || _ = true |- _ => apply orb_true_iff in H as [H|H]
           | H : _ && _ = true |- _ => apply andb_true_iff in H as [? ?]
           | H : (_ <=? _) = true |- _ => apply Nat.leb_le in H
           end; lia. }
  rewrite nat_ascii_embedding by exact Hlt'.
  destruct (_ || _ || _) eqn:F; [|reflexivity]. exfalso.
  repeat match goal with
         | H : _ || _ = true |- _ => apply orb_true_iff in H as [H|H]
         | H : _ && _ = true |- _ => apply andb_true_iff in H as [? ?]
         | H : negb _ = true |- _ => apply negb_true_iff in H
         | H : (_ <=? _) = true |- _ => apply Nat.leb_le in H
         | H : (_ =? _) = true |- _ => apply Nat.eqb_eq in H
         | H : (_ =? _) = false |- _ => apply Nat.eqb_neq in H
         end; lia.
Qed.

Lemma toLowerCase_trimStart s : toLowerCase (trimStart s) = trimStart (toLowerCase s).
Proof.
  unfold toLowerCase. induction s as [|c s IH]; [reflexivity|].
  cbn [trimStart map]. rewrite lower_char_space. destruct (is_space c); [exact IH|reflexivity].
Qed.

Lemma toLowerCase_trim s : toLowerCase (trim s) = trim (toLowerCase s).
Proof.
  unfold trim, trimEnd. rewrite <- toLowerCase_trimStart.
  unfold toLowerCase at 1. rewrite map_rev.
  fold (toLowerCase (trimStart (rev (trimStart s)))).
  rewrite toLowerCase_trimStart. unfold toLowerCase at 1. rewrite map_rev. reflexivity.
Qed.

Lemma trim_decompose s :
  exists before after,
    s = before ++ trim s ++ after /\
    Forall (fun c => is_space c = true) before /\
    Forall (fun c => is_space c = true) after.
Proof.
  destruct (drop_while_split is_space s) as (t1 & H1 & Ht1).
  rewrite <- trimStart_drop_while in H1.
  destruct (strip_trailing_split is_space (trimStart s)) as (t2 & H2 & Ht2).
  rewrite <- trimEnd_strip_trailing in H2.
  exists t1, t2. split; [|auto]. unfold trim. rewrite <- H2. exact H1.
Qed.

Lemma replace_each_app p rep s t :
  replace_each p rep (s ++ t) = replace_each p rep s ++ replace_each p rep t.
Proof.
  induction s as [|c s IH]; [reflexivity|]. cbn [app replace_each].
  rewrite IH. destruct (p c); [rewrite app_assoc|]; reflexivity.
Qed.

Section Runs.

Variable p : ascii -> bool.
Hypothesis p_space : forall c, is_space c = true -> p c = true.

Lemma trimStart_runs b s :
  trimStart (replace_runs_go p (js " ") b s) = replace_runs_go p (js " ") true s.
Proof.
  revert b. induction s as [|c s IH]; intros b; [reflexivity|].
  cbn [replace_runs_go]. destruct (p c) eqn:E.
  - destruct b; [apply IH|].
    change (js " " ++ replace_runs_go p (js " ") true s)
      with (" "%char :: replace_runs_go p (js " ") true s).
    cbn [trimStart]. change (is_space " ") with true. cbn iota. apply IH.
  - cbn [trimStart]. destruct (is_space c) eqn:F; [|reflexivity].
    rewrite (p_space c F) in E. discriminate.
Qed.

Lemma runs_skip_leading sp s :
  Forall (fun c => is_space c = true) sp ->
  replace_runs_go p (js " ") true (sp ++ s) = replace_runs_go p (js " ") true s.
Proof.
  induction 1 as [|c sp Hc _ IH]; [reflexivity|].
  cbn [app replace_runs_go]. rewrite (p_space c Hc). exact IH.
Qed.

Lemma runs_trailing b s sp :
  Forall (fun c => is_space c = true) sp ->
  exists tl,
    replace_runs_go p (js " ") b (s ++ sp) = replace_runs_go p (js " ") b s ++ tl /\
    (tl = [] \/ tl = js " ").
Proof.
  intros Hsp. revert b. induction s as [|c s IH]; intros b.
  - cbn [app replace_runs_go]. destruct Hsp as [|c sp Hc Hsp]; [exists []; auto|].
    cbn [replace_runs_go]. rewrite (p_space c Hc).
    assert (replace_runs_go p (js " ") true sp = []) as ->.
    { clear Hc. induction Hsp as [|d sp Hd _ IH']; [reflexivity|].
      cbn [replace_runs_go]. rewrite (p_space d Hd). exact IH'. }
    destruct b; [exists []|exists (js " ")]; auto.
  - cbn [app replace_runs_go]. destruct (p c).
    + destruct (IH true) as (tl & -> & Htl). exists tl.
      split; [rewrite app_assoc; reflexivity|exact Htl].
    + destruct (IH false) as (tl & -> & Htl). exists tl. split; [reflexivity|exact Htl].
Qed.

Lemma trimEnd_tail x tl : tl = [] \/ tl = js " " -> trimEnd (x ++ tl) = trimEnd x.
Proof.
  intros [-> | ->]; [rewrite app_nil_r; reflexivity|].
  unfold trimEnd. rewrite rev_app_distr. reflexivity.
Qed.

Lemma trim_runs_spaces sp s sp' :
  Forall (fun c => is_space c = true) sp ->
  Forall (fun c => is_space c = true) sp' ->
  trim (replace_runs p (js " ") (sp ++ s ++ sp')) = trim (replace_runs p (js " ") s).
Proof.
  intros Hsp Hsp'. unfold trim, replace_runs.
  rewrite !trimStart_runs. rewrite (runs_skip_leading sp _ Hsp).
  destruct (runs_trailing true s sp' Hsp') as (tl & -> & Htl).
  apply trimEnd_tail. exact Htl.
Qed.

End Runs.

Lemma normalizeDishKey_trim s : normalizeDishKey (trim s) = normalizeDishKey s.
Proof.
  unfold normalizeDishKey. rewrite toLowerCase_trim.
  destruct (trim_decompose (toLowerCase s)) as (sp & sp' & Hs & Hsp & Hsp').
  set (v := trim (toLowerCase s)) in *. clearbody v. rewrite Hs.
  rewrite !replace_each_app.
  assert (forall t, Forall (fun c => is_space c = true) t ->
                    replace_each (is_char "'") [] t = t) as Hkeep.
  { intros t Ht. apply replace_each_fixed. intros c Hc.
    rewrite List.Forall_forall in Ht. specialize (Ht c Hc). cbv beta in Ht.
    unfold is_char. apply Ascii.eqb_neq. intros <-. vm_compute in Ht. discriminate. }
  rewrite (Hkeep sp Hsp), (Hkeep sp' Hsp').
  rewrite (trim_runs_spaces (fun c => negb (is_lower_alnum c)) space_not_lower_alnum
             sp _ sp' Hsp Hsp').
  reflexivity.
Qed.

(** X6. White space around a dish name does not change its key, nor what
    [findByDish], which normalizes the name as given, and [lookupByDish],
    which trims it first, answer. *)
Theorem dish_lookup_ignores_outer_space s :
  normalizeDishKey (trim s) = normalizeDishKey s /\
  (forall recipes, findByDish recipes (trim s) = findByDish recipes s) /\
  (forall recipes, lookupByDish recipes (trim s) = lookupByDish recipes s).
Proof.
  split; [apply normalizeDishKey_trim|]. split; intros recipes.
  - unfold findByDish. rewrite normalizeDishKey_trim. reflexivity.
  - unfold lookupByDish. rewrite trim_idem. reflexivity.
Qed.

(** X7. The exact answer of [lookupByDish] and the answer of [findByDish] are
    the same entry: the first one stored under the key of the dish. *)
Theorem lookupByDish_exact_is_findByDish recipes d :
  (forall e, findByDish recipes d = Some e ->
     lookupByDish recipes d
     = {| found := true; query := trim d; matchType := exact; lookup_recipe := Some e |}) /\
  (matchType (lookupByDish recipes d) = exact ->
   lookup_recipe (lookupByDish recipes d) = findByDish recipes d /\
   exists e before after,
     findByDish recipes d = Some e /\ recipes = before ++ e :: after /\
     dishKey e = normalizeDishKey d /\
     forall x, In x before -> dishKey x <> normalizeDishKey d).
Proof.
  unfold findByDish, lookupByDish. rewrite normalizeDishKey_trim.
  set (key := normalizeDishKey d).
  destruct (negb (truthy key)); [split; [discriminate|discriminate]|].
  destruct (List.find (has_key key) recipes) as [e|] eqn:E.
  - split; [intros ? [= <-]; reflexivity|]. intros _. split; [reflexivity|].
    clear -E. induction recipes as [|x recipes IH]; [discriminate|].
    revert E. cbn [List.find]. destruct (has_key key x) eqn:Hx.
    + intros [= ->]. exists e, [], recipes. split; [reflexivity|]. split; [reflexivity|].
      split; [apply eqb_true; exact Hx|]. intros ? [].
    + intros E. destruct (IH E) as (e' & b & a & [= <-] & -> & Hk & Hb).
      exists e, (x :: b), a. split; [reflexivity|]. split; [reflexivity|].
      split; [exact Hk|]. intros y [<-|Hy]; [|exact (Hb y Hy)].
      apply eqb_false. exact Hx.
  - split; [discriminate|].
    destruct (findBestFuzzyDishMatch key recipes); discriminate.
Qed.

(** ** Saving a recipe *)

Lemma insert_sorted_perm lc x l : insert_sorted lc x l ≡ₚ x :: l.
Proof.
  induction l as [|y l IH]; [reflexivity|]. cbn [insert_sorted].
  destruct (lc (dish x) (dish y)); try reflexivity.
  rewrite IH. apply perm_swap.
Qed.

Lemma sort_by_dish_perm lc l : sort_by_dish lc l ≡ₚ l.
Proof.
  unfold sort_by_dish. induction l as [|x l IH]; [reflexivity|].
  cbn [fold_right]. rewrite insert_sorted_perm, IH. reflexivity.
Qed.

Lemma insert_sorted_sorted lc x l :
  (forall a b, lc a b = Gt -> lc b a <> Gt) ->
  Sorted (dish_before lc) l -> Sorted (dish_before lc) (insert_sorted lc x l).
Proof.
  intros Hlc Hl. induction Hl as [|y l Hl IH Hy]; [repeat constructor|].
  cbn [insert_sorted]. destruct (lc (dish x) (dish y)) eqn:E.
  - constructor; [constructor; assumption|]. constructor. unfold dish_before. congruence.
  - constructor; [constructor; assumption|]. constructor. unfold dish_before. congruence.
  - constructor; [exact IH|].
    destruct l as [|z l]; cbn [insert_sorted].
    + constructor. unfold dish_before. apply Hlc. exact E.
    + destruct (lc (dish x) (dish z)).
      * constructor. unfold dish_before. apply Hlc. exact E.
      * constructor. unfold dish_before. apply Hlc. exact E.
      * inversion Hy; subst. constructor. assumption.
Qed.

Lemma findIndex_lt f recipes i : findIndex f recipes = Some i -> i < length recipes.
Proof.
  revert i. induction recipes as [|x l IH]; intros i; [discriminate|].
  cbn [findIndex]. destruct (f x); [intros [= <-]; simpl; lia|].
  destruct (findIndex f l) as [j|]; [|discriminate]. intros [= <-].
  specialize (IH j eq_refl). simpl. lia.
Qed.

Lemma saveCompletedRecipe_In lc recipes now d r file saved :
  saveCompletedRecipe lc recipes now d r = Ok (file, saved) ->
  In saved file /\ dishKey saved = normalizeDishKey (trim d).
Proof.
  unfold saveCompletedRecipe.
  destruct (negb (truthy (trim d)) || negb (truthy (trim r))); [discriminate|].
  destruct (findIndex _ recipes) as [i|] eqn:Ei.
  - intros [= <- <-]. split; [|reflexivity].
    apply list_elem_of_In. rewrite sort_by_dish_perm.
    apply list_elem_of_lookup. exists i. apply list_lookup_insert_eq.
    exact (findIndex_lt _ _ _ Ei).
  - intros [= <- <-]. split; [|reflexivity].
    apply list_elem_of_In. rewrite sort_by_dish_perm. set_solver.
Qed.

(** X8. After every save the catalog is in the order of the dish names, whatever
    order the file was in, provided [localeCompare] is an order: it never
    puts two names each after the other, and not-after is transitive. *)
Theorem saveCompletedRecipe_sorted lc recipes now d r file saved :
  (forall a b, lc a b = Gt -> lc b a <> Gt) ->
  (forall a b c, lc a b <> Gt -> lc b c <> Gt -> lc a c <> Gt) ->
  saveCompletedRecipe lc recipes now d r = Ok (file, saved) ->
  StronglySorted (dish_before lc) file /\ In saved file.
Proof.
  intros Hlc Htr. unfold saveCompletedRecipe.
  destruct (negb (truthy (trim d)) || negb (truthy (trim r))); [discriminate|].
  assert (forall l, StronglySorted (dish_before lc) (sort_by_dish lc l)) as Hs.
  { intros l. apply Sorted_StronglySorted.
    - intros x y z. unfold dish_before. apply Htr.
    - unfold sort_by_dish. induction l as [|x l IH]; [constructor|].
      cbn [fold_right]. apply insert_sorted_sorted; assumption. }
  destruct (findIndex _ recipes) as [i|] eqn:Ei.
  - intros [= <- <-]. split; [apply Hs|].
    apply list_elem_of_In. rewrite sort_by_dish_perm.
    assert (i < length recipes) as Hi.
    { clear -Ei. revert i Ei. induction recipes as [|x l IH]; intros i; [discriminate|].
      cbn [findIndex]. destruct (has_key _ x); [intros [= <-]; simpl; lia|].
      destruct (findIndex _ l) as [j|]; [|discriminate]. intros [= <-].
      specialize (IH j eq_refl). simpl. lia. }
    apply list_elem_of_lookup. exists i. apply list_lookup_insert_eq. exact Hi.
  - intros [= <- <-]. split; [apply Hs|].
    apply list_elem_of_In. rewrite sort_by_dish_perm. set_solver.
Qed.

Lemma byCodeUnits_antisym a b : byCodeUnits a b = CompOpp (byCodeUnits b a).
Proof.
  revert b. induction a as [|c a IH]; intros [|d b]; try reflexivity.
  cbn [byCodeUnits]. rewrite (N.compare_antisym (N_of_ascii c) (N_of_ascii d)).
  destruct (N_of_ascii c ?= N_of_ascii d)%N; cbn [CompOpp]; [apply IH|reflexivity|reflexivity].
Qed.

Lemma byCodeUnits_trans a b c :
  byCodeUnits a b <> Gt -> byCodeUnits b c <> Gt -> byCodeUnits a c <> Gt.
Proof.
  revert b c. induction a as [|x a IH]; intros [|y b] [|z c]; cbn [byCodeUnits];
    try congruence.
  destruct (N.compare_spec (N_of_ascii x) (N_of_ascii y)) as [E1|E1|E1];
    destruct (N.compare_spec (N_of_ascii y) (N_of_ascii z)) as [E2|E2|E2];
    try congruence; intros H1 H2.
  - rewrite E1, E2, N.compare_refl. exact (IH b c H1 H2).
  - rewrite E1. rewrite (proj2 (N.compare_lt_iff _ _) E2). discriminate.
  - rewrite <- E2. rewrite (proj2 (N.compare_lt_iff _ _) E1). discriminate.
  - rewrite (proj2 (N.compare_lt_iff _ _) (N.lt_trans _ _ _ E1 E2)). discriminate.
Qed.

Lemma saveCompletedRecipe_sorted_witness :
  StronglySorted (dish_before byCodeUnits) [banana_bread_entry; pancakes_entry] /\
  In banana_bread_entry [banana_bread_entry; pancakes_entry].
Proof.
  apply (saveCompletedRecipe_sorted byCodeUnits [pancakes_entry] (js "now")
           (js " Banana Bread ") (js "Mash and bake.")).
  - intros a b H. rewrite byCodeUnits_antisym, H. discriminate.
  - apply byCodeUnits_trans.
  - vm_compute. reflexivity.
Defined.

Lemma find_key_unique key recipes e :
  NoDup (map dishKey recipes) -> In e recipes -> dishKey e = key ->
  List.find (has_key key) recipes = Some e.
Proof.
  intros Hnd Hin Hk. induction recipes as [|x l IH]; [destruct Hin|].
  cbn [List.find]. apply NoDup_cons in Hnd as [Hx Hnd]. destruct Hin as [->|Hin].
  - unfold has_key. rewrite Hk, eqb_refl. reflexivity.
  - destruct (has_key key x) eqn:E; [|exact (IH Hnd Hin)].
    exfalso. apply eqb_true in E. apply Hx. rewrite E, <- Hk.
    apply list_elem_of_In. apply in_map. exact Hin.
Qed.

Lemma find_key_none key recipes :
  List.find (has_key key) recipes = None <-> (forall e, In e recipes -> dishKey e <> key).
Proof.
  split.
  - intros H e He Hk. pose proof (find_none _ _ H e He) as Hf.
    unfold has_key in Hf. rewrite Hk, eqb_refl in Hf. discriminate.
  - intros H. destruct (List.find (has_key key) recipes) as [e|] eqn:E; [|reflexivity].
    apply find_some in E as [E1 E2]. apply eqb_true in E2. exfalso. exact (H e E1 E2).
Qed.

Lemma findIndex_find f recipes :
  match findIndex f recipes with
  | Some i => exists e, recipes !! i = Some e /\ List.find f recipes = Some e
  | None => List.find f recipes = None
  end.
Proof.
  induction recipes as [|x l IH]; [reflexivity|]. cbn [findIndex List.find].
  destruct (f x); [exists x; auto|].
  destruct (findIndex f l) as [i|]; cbn; [|exact IH].
  destruct IH as (e & H1 & H2). exists e. auto.
Qed.

Lemma NoDup_keys_insert recipes i old new :
  recipes !! i = Some old -> dishKey new = dishKey old ->
  NoDup (map dishKey recipes) -> NoDup (map dishKey (<[i := new]> recipes)).
Proof.
  intros Hi Hk Hnd.
  assert (map dishKey (<[i := new]> recipes) = map dishKey recipes) as ->; [|exact Hnd].
  clear Hnd. revert i Hi. induction recipes as [|x l IH]; intros i Hi; [reflexivity|].
  destruct i as [|i]; cbn in Hi |- *.
  - injection Hi as ->. rewrite Hk. reflexivity.
  - f_equal. exact (IH i Hi).
Qed.

Lemma NoDup_keys_perm (l l' : list StoredRecipe) :
  l ≡ₚ l' -> NoDup (map dishKey l') -> NoDup (map dishKey l).
Proof.
  intros H Hnd. apply (Permutation_map dishKey) in H. rewrite H. exact Hnd.
Qed.

Lemma saveCompletedRecipe_spec lc recipes now d r :
  NoDup (map dishKey recipes) ->
  truthy (trim d) = true -> truthy (trim r) = true ->
  truthy (normalizeDishKey d) = true ->
  exists file saved,
    saveCompletedRecipe lc recipes now d r = Ok (file, saved) /\
    saved = {| dish := trim d; dishKey := normalizeDishKey d; recipe := trim r;
               completedAt := now;
               timesCooked := match findByDish recipes d with
                              | Some old => timesCooked old + 1
                              | None => 1
                              end |} /\
    findByDish file d = Some saved /\
    NoDup (map dishKey file) /\
    (forall e, dishKey e <> normalizeDishKey d -> In e file <-> In e recipes) /\
    length file = match findByDish recipes d with
                  | Some _ => length recipes
                  | None => S (length recipes)
                  end.
Proof.
  intros Hnd Hd Hr Hk. unfold saveCompletedRecipe, findByDish.
  rewrite Hd, Hr, normalizeDishKey_trim, Hk. cbn [negb orb].
  set (key := normalizeDishKey d) in *. clearbody key.
  pose proof (findIndex_find (has_key key) recipes) as Hfi.
  destruct (findIndex (has_key key) recipes) as [i|].
  - destruct Hfi as (old & Hi & Hf). rewrite Hi, Hf.
    set (saved := {| dish := trim d; dishKey := key; recipe := trim r;
                     completedAt := now; timesCooked := (timesCooked old + 1)%Z |}).
    assert (dishKey old = key) as Hold.
    { apply find_some in Hf as [_ Hf]. apply eqb_true. exact Hf. }
    eexists _, saved. split; [reflexivity|]. split; [reflexivity|].
    assert (NoDup (map dishKey (<[i := saved]> recipes))) as Hnd'.
    { apply (NoDup_keys_insert recipes i old saved Hi); [symmetry; exact Hold|exact Hnd]. }
    assert (In saved (<[i := saved]> recipes)) as Hin.
    { apply list_elem_of_In, list_elem_of_lookup. exists i.
      apply list_lookup_insert_eq. apply lookup_lt_Some in Hi. exact Hi. }
    split; [|split; [|split]].
    + apply find_key_unique.
      * exact (NoDup_keys_perm _ _ (sort_by_dish_perm lc _) Hnd').
      * apply list_elem_of_In. rewrite sort_by_dish_perm. apply list_elem_of_In. exact Hin.
      * reflexivity.
    + exact (NoDup_keys_perm _ _ (sort_by_dish_perm lc _) Hnd').
    + intros e He. rewrite <- !list_elem_of_In. rewrite sort_by_dish_perm.
      rewrite !list_elem_of_lookup. split.
      * intros (j & Hj). destruct (decide (i = j)) as [<-|Hne].
        -- rewrite list_lookup_insert_eq in Hj by (apply lookup_lt_Some in Hi; exact Hi).
           injection Hj as <-. contradiction.
        -- rewrite list_lookup_insert_ne in Hj by exact Hne. eauto.
      * intros (j & Hj). destruct (decide (i = j)) as [<-|Hne].
        -- rewrite Hi in Hj. injection Hj as <-. contradiction.
        -- exists j. rewrite list_lookup_insert_ne by exact Hne. exact Hj.
    + rewrite (Permutation_length (sort_by_dish_perm lc _)). apply length_insert.
  - rewrite Hfi.
    set (saved := {| dish := trim d; dishKey := key; recipe := trim r;
                     completedAt := now; timesCooked := 1 |}).
    eexists _, saved. split; [reflexivity|]. split; [reflexivity|].
    assert (NoDup (map dishKey (recipes ++ [saved]))) as Hnd'.
    { rewrite map_app. cbn [map]. apply NoDup_app. split; [exact Hnd|].
      split; [|apply NoDup_singleton].
      intros k Hk1 Hk2. apply list_elem_of_singleton in Hk2. subst k.
      apply list_elem_of_In, in_map_iff in Hk1 as (e & He1 & He2).
      exact (proj1 (find_key_none key recipes) Hfi e He2 He1). }
    split; [|split; [|split]].
    + apply find_key_unique.
      * exact (NoDup_keys_perm _ _ (sort_by_dish_perm lc _) Hnd').
      * apply list_elem_of_In. rewrite sort_by_dish_perm. set_solver.
      * reflexivity.
    + exact (NoDup_keys_perm _ _ (sort_by_dish_perm lc _) Hnd').
    + intros e He. rewrite <- !list_elem_of_In. rewrite sort_by_dish_perm.
      rewrite elem_of_app, list_elem_of_singleton. split; [|auto].
      intros [H|H]; [exact H|]. subst e. contradiction.
    + rewrite (Permutation_length (sort_by_dish_perm lc _)), length_app. simpl. lia.
Qed.

(** X9. Saving and looking up. With one entry per key in the catalog and
    counts of cooks below 2^53 (up to which the count of the program, a
    double, is exact), a save of a dish with a non-empty key succeeds,
    [findByDish] then returns the saved entry, the keys stay unique, the
    entries under other keys stay as they were, and the count of cooks is one
    more than that of the entry replaced, or one for a new dish. *)
Theorem saveCompletedRecipe_roundtrip lc recipes now d r :
  NoDup (map dishKey recipes) ->
  Forall safe_count recipes ->
  truthy (trim d) = true -> truthy (trim r) = true ->
  truthy (normalizeDishKey d) = true ->
  exists file saved,
    saveCompletedRecipe lc recipes now d r = Ok (file, saved) /\
    saved = {| dish := trim d; dishKey := normalizeDishKey d; recipe := trim r;
               completedAt := now;
               timesCooked := match findByDish recipes d with
                              | Some old => timesCooked old + 1
                              | None => 1
                              end |} /\
    findByDish file d = Some saved /\
    NoDup (map dishKey file) /\
    (forall e, dishKey e <> normalizeDishKey d -> In e file <-> In e recipes) /\
    length file = match findByDish recipes d with
                  | Some _ => length recipes
                  | None => S (length recipes)
                  end.
Proof. intros Hnd _. exact (saveCompletedRecipe_spec lc recipes now d r Hnd). Qed.

Lemma saveCompletedRecipe_roundtrip_witness :
  exists file saved,
    saveCompletedRecipe byCode [pancakes_entry] (js "now") (js " Pancakes ") (js "Mix.")
    = Ok (file, saved) /\
    saved = {| dish := trim (js " Pancakes "); dishKey := normalizeDishKey (js " Pancakes ");
               recipe := trim (js "Mix."); completedAt := js "now";
               timesCooked := match findByDish [pancakes_entry] (js " Pancakes ") with
                              | Some old => timesCooked old + 1
                              | None => 1
                              end |} /\
    findByDish file (js " Pancakes ") = Some saved /\
    NoDup (map dishKey file) /\
    (forall e, dishKey e <> normalizeDishKey (js " Pancakes ") ->
               In e file <-> In e [pancakes_entry]) /\
    length file = match findByDish [pancakes_entry] (js " Pancakes ") with
                  | Some _ => length [pancakes_entry]
                  | None => S (length [pancakes_entry])
                  end.
Proof.
  apply (saveCompletedRecipe_roundtrip byCode [pancakes_entry] (js "now")
           (js " Pancakes ") (js "Mix.")).
  - apply NoDup_singleton.
  - constructor; [|constructor]. unfold safe_count. cbn. lia.
  - reflexivity.
  - reflexivity.
  - vm_compute. reflexivity.
Defined.

(** ** Completing a recipe *)

Lemma completeRecipe_stored lc nowIso d r st sv :
  recipeStoredForSession sv = true ->
  exists res,
    completeRecipe lc nowIso d r st sv = (Ok res, st, sv) /\
    get res (js "saved") = Some (JBool false).
Proof.
  intros Hs. unfold completeRecipe.
  destruct (negb (truthy (trim d)) || negb (truthy (trim r)));
    [eexists; split; reflexivity|].
  destruct (negb (truthy (normalizeDishKey (trim d)))); [eexists; split; reflexivity|].
  destruct (negb (truthy (activeDishKey sv))); [eexists; split; reflexivity|].
  destruct (negb (eqb (normalizeDishKey (trim d)) (activeDishKey sv)));
    [eexists; split; reflexivity|].
  rewrite Hs. eexists; split; reflexivity.
Qed.

(** X10. A recipe is saved once per session. The catalog has one entry per
    key and counts of cooks below 2^53, up to which the count of the
    program, a double, is exact. When the session is for the dish, the
    user has confirmed it is finished and nothing was saved yet,
    [completeRecipe] saves the entry, which [findByDish] then returns, and
    takes the confirmation back; every later call in the session, whatever
    its arguments, leaves the catalog and the session as they are and
    answers [saved: false]. *)
Theorem completeRecipe_saves_once lc nowIso d r st sv :
  NoDup (map dishKey (recipes sv)) ->
  Forall safe_count (recipes sv) ->
  truthy (trim d) = true -> truthy (trim r) = true ->
  truthy (activeDishKey sv) = true ->
  normalizeDishKey d = activeDishKey sv ->
  recipeStoredForSession sv = false ->
  completionConfirmedForSession sv = true ->
  exists saved st' sv',
    completeRecipe lc nowIso d r st sv
    = (Ok [(js "ok", JBool true); (js "saved", JBool true);
           (js "recipe", recipe_json saved)], st', sv') /\
    dish saved = trim d /\ recipe saved = trim r /\ completedAt saved = nowIso /\
    timesCooked saved = match findByDish (recipes sv) d with
                        | Some old => (timesCooked old + 1)%Z
                        | None => 1%Z
                        end /\
    findByDish (recipes sv') d = Some saved /\
    recipeStoredForSession sv' = true /\
    completionConfirmedForSession sv' = false /\
    activeDishKey sv' = activeDishKey sv /\
    (forall now2 d2 r2 st2, exists res,
        completeRecipe lc now2 d2 r2 st2 sv' = (Ok res, st2, sv') /\
        get res (js "saved") = Some (JBool false)).
Proof.
  intros Hnd _ Hd Hr Ha Hk Hs Hc. unfold completeRecipe.
  rewrite Hd, Hr, normalizeDishKey_trim, Hk, Ha, eqb_refl, Hs, Hc. cbn [negb orb].
  destruct (saveCompletedRecipe_spec lc (recipes sv) nowIso (trim d) (trim r))
    as (file & saved & E & Hsaved & Hfind & _).
  - exact Hnd.
  - rewrite trim_idem. exact Hd.
  - rewrite trim_idem. exact Hr.
  - rewrite normalizeDishKey_trim, Hk. exact Ha.
  - rewrite E. rewrite !trim_idem in Hsaved.
    assert (findByDish (recipes sv) (trim d) = findByDish (recipes sv) d) as Hf.
    { unfold findByDish. rewrite normalizeDishKey_trim. reflexivity. }
    assert (findByDish file (trim d) = findByDish file d) as Hf'.
    { unfold findByDish. rewrite normalizeDishKey_trim. reflexivity. }
    rewrite Hf in Hsaved. rewrite Hf' in Hfind.
    eexists saved, _, _. split; [reflexivity|].
    rewrite Hsaved at 1 2 3 4. cbn [dish recipe completedAt timesCooked].
    do 4 (split; [reflexivity|]).
    split; [exact Hfind|]. do 3 (split; [reflexivity|]).
    intros now2 d2 r2 st2. apply completeRecipe_stored. reflexivity.
Qed.

Lemma completeRecipe_saves_once_witness :
  exists saved st' sv',
    completeRecipe byCode (js "now") (js " Banana  Bread ") (js "Mash and bake.")
      createEmptyState banana_confirmed
    = (Ok [(js "ok", JBool true); (js "saved", JBool true);
           (js "recipe", recipe_json saved)], st', sv') /\
    dish saved = trim (js " Banana  Bread ") /\
    recipe saved = trim (js "Mash and bake.") /\ completedAt saved = js "now" /\
    timesCooked saved = match findByDish (recipes banana_confirmed) (js " Banana  Bread ") with
                        | Some old => (timesCooked old + 1)%Z
                        | None => 1%Z
                        end /\
    findByDish (recipes sv') (js " Banana  Bread ") = Some saved /\
    recipeStoredForSession sv' = true /\
    completionConfirmedForSession sv' = false /\
    activeDishKey sv' = activeDishKey banana_confirmed /\
    (forall now2 d2 r2 st2, exists res,
        completeRecipe byCode now2 d2 r2 st2 sv' = (Ok res, st2, sv') /\
        get res (js "saved") = Some (JBool false)).
Proof.
  apply (completeRecipe_saves_once byCode (js "now") (js " Banana  Bread ")
           (js "Mash and bake.") createEmptyState banana_confirmed).
  - apply NoDup_singleton.
  - constructor; [|constructor]. unfold safe_count. cbn. lia.
  - reflexivity.
  - reflexivity.
  - reflexivity.
  - vm_compute. reflexivity.
  - reflexivity.
  - reflexivity.
Defined.

(** ** The buffers of the cooking state *)

Lemma slice_last_push {A : Type} (n : nat) (x : A) (pre : list A) :
  0 < n ->
  (if n <? length (slice_last n pre ++ [x])
   then slice_last n (slice_last n pre ++ [x])
   else slice_last n pre ++ [x])
  = slice_last n (pre ++ [x]).
Proof.
  intros Hn. unfold slice_last. rewrite !length_app, length_drop. simpl.
  destruct (decide (length pre < n)) as [Hlt|Hge].
  - replace (length pre - n) with 0 by lia. rewrite Nat.sub_0_r. rewrite !drop_0.
    replace (length pre + 1 - n) with 0 by lia. rewrite !drop_0.
    destruct (n <? length pre + 1); reflexivity.
  - replace (n <? length pre - (length pre - n) + 1) with true
      by (symmetry; apply Nat.ltb_lt; lia).
    rewrite <- (drop_app_le pre [x] (length pre - n)) by lia.
    rewrite drop_drop. f_equal. lia.
Qed.

Lemma slice_last_all {A : Type} (n : nat) (l : list A) :
  length l <= n -> slice_last n l = l.
Proof. intros H. unfold slice_last. replace (length l - n) with 0 by lia. reflexivity. Qed.

Lemma filter_app_one {A : Type} (f : A -> bool) l x :
  List.filter f (l ++ [x]) = List.filter f l ++ (if f x then [x] else []).
Proof. rewrite List.filter_app. reflexivity. Qed.

Lemma observeAll_window observations pre st :
  recentObservations st
  = slice_last MAX_OBSERVATIONS (map trim (List.filter not_blank pre)) ->
  recentObservations (observeAll observations st)
  = slice_last MAX_OBSERVATIONS (map trim (List.filter not_blank (pre ++ observations))).
Proof.
  revert pre st. induction observations as [|o l IH]; intros pre st Hst.
  - rewrite app_nil_r. exact Hst.
  - cbn [observeAll fold_left]. fold (observeAll l (addObservation o st)).
    replace (pre ++ o :: l) with ((pre ++ [o]) ++ l) by (rewrite <- app_assoc; reflexivity).
    apply IH. rewrite filter_app_one. unfold addObservation. fold (not_blank o).
    destruct (not_blank o); cbn [negb].
    + cbn [recentObservations]. rewrite Hst, map_app. cbn [map].
      apply slice_last_push. unfold MAX_OBSERVATIONS. lia.
    + rewrite app_nil_r. exact Hst.
Qed.

Lemma recordAll_window entries pre st :
  conversationHistory st
  = slice_last MAX_HISTORY_ITEMS
      (map (fun e => {| role := fst e; content := trim (snd e) |})
           (List.filter (fun e => not_blank (snd e)) pre)) ->
  conversationHistory (recordAll entries st)
  = slice_last MAX_HISTORY_ITEMS
      (map (fun e => {| role := fst e; content := trim (snd e) |})
           (List.filter (fun e => not_blank (snd e)) (pre ++ entries))).
Proof.
  revert pre st. induction entries as [|o l IH]; intros pre st Hst.
  - rewrite app_nil_r. exact Hst.
  - cbn [recordAll fold_left]. fold (recordAll l (recordConversation (fst o) (snd o) st)).
    replace (pre ++ o :: l) with ((pre ++ [o]) ++ l) by (rewrite <- app_assoc; reflexivity).
    apply IH. rewrite filter_app_one. unfold recordConversation. cbv zeta.
    fold (not_blank (snd o)).
    destruct (not_blank (snd o)); cbn [negb].
    + cbn [conversationHistory]. rewrite Hst, map_app. cbn [map].
      apply slice_last_push. unfold MAX_HISTORY_ITEMS. lia.
    + rewrite app_nil_r. exact Hst.
Qed.

Lemma observeAll_conversation observations st :
  conversationHistory (observeAll observations st) = conversationHistory st.
Proof.
  revert st. induction observations as [|o l IH]; intros st; [reflexivity|].
  cbn [observeAll fold_left]. fold (observeAll l (addObservation o st)). rewrite IH.
  unfold addObservation. destruct (negb (truthy (trim o))); reflexivity.
Qed.

Lemma recordAll_observations entries st :
  recentObservations (recordAll entries st) = recentObservations st.
Proof.
  revert st. induction entries as [|o l IH]; intros st; [reflexivity|].
  cbn [recordAll fold_left]. fold (recordAll l (recordConversation (fst o) (snd o) st)).
  rewrite IH. unfold recordConversation. cbv zeta.
  destruct (negb (truthy (trim (snd o)))); reflexivity.
Qed.

(** X11. The observations of the cooking state are the last 30 of the non-blank
    observations added, trimmed and in their order; the conversation history
    is the last 60 of the non-blank entries recorded. Blank input leaves no
    entry, and neither buffer touches the other. *)
Theorem state_buffers_window :
  (forall observations,
      recentObservations (observeAll observations createEmptyState)
      = slice_last 30 (map trim (List.filter not_blank observations)) /\
      length (recentObservations (observeAll observations createEmptyState)) <= 30 /\
      conversationHistory (observeAll observations createEmptyState) = []) /\
  (forall entries,
      conversationHistory (recordAll entries createEmptyState)
      = slice_last 60
          (map (fun e => {| role := fst e; content := trim (snd e) |})
               (List.filter (fun e => not_blank (snd e)) entries)) /\
      length (conversationHistory (recordAll entries createEmptyState)) <= 60 /\
      recentObservations (recordAll entries createEmptyState) = []).
Proof.
  split.
  - intros l. pose proof (observeAll_window l [] createEmptyState eq_refl) as H.
    cbn [app] in H. split; [exact H|]. split.
    + rewrite H. unfold slice_last, MAX_OBSERVATIONS. rewrite length_drop. lia.
    + apply observeAll_conversation.
  - intros l. pose proof (recordAll_window l [] createEmptyState eq_refl) as H.
    cbn [app] in H. split; [exact H|]. split.
    + rewrite H. unfold slice_last, MAX_HISTORY_ITEMS. rewrite length_drop. lia.
    + apply recordAll_observations.
Qed.

(** ** What the speech gate lets through *)

Lemma shouldSuppress_None cfg now t sv :
  shouldSuppress cfg now t sv = None ->
  isRoutinePreferenceQuestion t = false /\
  (waitingForUserAnswer sv = true -> isUrgent t = true).
Proof.
  unfold shouldSuppress.
  destruct (eqb (textKeyOf t) (lastSpokenTextKey sv)
            && within now (lastSpokenAtMs sv) (speechRepeatCooldownMs cfg));
    [discriminate|].
  destruct (waitingForUserAnswer sv); destruct (isUrgent t); cbn [andb negb];
    try discriminate;
    destruct (Server.isQuestion t); cbn [andb];
    try destruct (within now (lastQuestionAtMs sv) (questionRepeatCooldownMs cfg));
    try discriminate;
    destruct (isRoutinePreferenceQuestion t); try discriminate; auto.
Qed.

Lemma speak_step cfg now s m sv :
  exists new,
    broadcasts (snd (speak cfg now s m sv)) = broadcasts sv ++ new /\
    (forall t, In t (spoken new) ->
       truthy t = true /\ t = trim m /\ s = Ok tt /\
       isRoutinePreferenceQuestion t = false /\
       (waitingForUserAnswer sv = true -> isUrgent t = true)) /\
    (waitingForUserAnswer sv = true ->
     waitingForUserAnswer (snd (speak cfg now s m sv)) = true) /\
    recipes (snd (speak cfg now s m sv)) = recipes sv /\
    activeDishKey (snd (speak cfg now s m sv)) = activeDishKey sv /\
    recipeStoredForSession (snd (speak cfg now s m sv)) = recipeStoredForSession sv /\
    completionConfirmedForSession (snd (speak cfg now s m sv))
    = completionConfirmedForSession sv.
Proof.
  unfold speak. set (t := trim m). clearbody t.
  destruct (truthy t) eqn:Ht; cbn [negb].
  2:{ exists []. rewrite app_nil_r. cbn [snd spoken flat_map].
    split; [reflexivity|]. split; [intros ? []|]. repeat split; auto. }
  destruct (shouldSuppress cfg now t sv) eqn:E.
  { exists []. rewrite app_nil_r. cbn [snd spoken flat_map].
    split; [reflexivity|]. split; [intros ? []|]. repeat split; auto. }
  destruct (shouldSuppress_None _ _ _ _ E) as [Hr Hu].
  destruct s as [[]|err].
  - exists [speech t]. cbn [snd voiced broadcast broadcasts recipes activeDishKey
      recipeStoredForSession completionConfirmedForSession waitingForUserAnswer
      spoken flat_map app].
    split; [reflexivity|]. split.
    + intros t' [<-|[]]. auto.
    + split; [|auto]. intros ->. destruct (Server.isQuestion t); reflexivity.
  - destruct (requireVoice cfg).
    + exists []. rewrite app_nil_r. cbn [snd spoken flat_map].
    split; [reflexivity|]. split; [intros ? []|]. repeat split; auto.
    + eexists [error _]. cbn [snd broadcast broadcasts recipes activeDishKey
        recipeStoredForSession completionConfirmedForSession waitingForUserAnswer
        spoken flat_map app].
      split; [reflexivity|]. split; [intros ? []|]. repeat split; auto.
Qed.

Lemma spoken_app a b : spoken (a ++ b) = spoken a ++ spoken b.
Proof. unfold spoken. apply flat_map_app. Qed.

(** X12. Whatever [speak] is called with, and however often: the events sent only
    grow; each text voiced is non-empty, is the trimmed message of a call
    whose synthesis succeeded, and is no routine preference question; while
    the assistant waits for an answer only urgent texts are voiced and it
    keeps waiting; and the catalog and the completion flags of the session
    are never touched. *)
Theorem speech_log_invariants cfg calls sv :
  exists new,
    broadcasts (speakAll cfg calls sv) = broadcasts sv ++ new /\
    (forall t, In t (spoken new) ->
       truthy t = true /\
       (exists c, In c calls /\ t = trim (call_message c) /\ call_synthesized c = Ok tt) /\
       isRoutinePreferenceQuestion t = false /\
       (waitingForUserAnswer sv = true -> isUrgent t = true)) /\
    (waitingForUserAnswer sv = true -> waitingForUserAnswer (speakAll cfg calls sv) = true) /\
    recipes (speakAll cfg calls sv) = recipes sv /\
    activeDishKey (speakAll cfg calls sv) = activeDishKey sv /\
    recipeStoredForSession (speakAll cfg calls sv) = recipeStoredForSession sv /\
    completionConfirmedForSession (speakAll cfg calls sv)
    = completionConfirmedForSession sv.
Proof.
  revert sv. induction calls as [|c calls IH]; intros sv.
  - exists []. rewrite app_nil_r. cbn [speakAll fold_left spoken flat_map].
    split; [reflexivity|]. split; [intros ? []|]. repeat split; auto.
  - cbn [speakAll fold_left].
    destruct (speak_step cfg (call_now c) (call_synthesized c) (call_message c) sv)
      as (new1 & B1 & S1 & W1 & R1 & A1 & T1 & C1).
    set (sv1 := snd (speak cfg (call_now c) (call_synthesized c) (call_message c) sv)) in *.
    clearbody sv1. fold (speakAll cfg calls sv1).
    destruct (IH sv1) as (new2 & B2 & S2 & W2 & R2 & A2 & T2 & C2).
    exists (new1 ++ new2). split; [rewrite B2, B1, app_assoc; reflexivity|].
    split.
    + intros t Ht. rewrite spoken_app in Ht. apply in_app_or in Ht as [Ht|Ht].
      * destruct (S1 t Ht) as (K1 & K2 & K3 & K4 & K5).
        split; [exact K1|]. split; [exists c; split; [left; reflexivity|auto]|]. auto.
      * destruct (S2 t Ht) as (K1 & (c' & K2 & K3) & K4 & K5).
        split; [exact K1|]. split; [exists c'; split; [right; exact K2|exact K3]|].
        split; [exact K4|]. intros W. apply K5. apply W1. exact W.
    + split; [intros W; apply W2, W1, W|]. repeat split; congruence.
Qed.

(** ** Advancing the step *)

Lemma mark_spec st a :
  markCurrentStepCompleted st a
  = match currentStep a with
    | Some cur =>
        if truthy cur && truthy (normalizeStepKey cur)
           && negb (bool_decide (normalizeStepKey cur ∈ completedStepKeys a))
        then (addCompletedStep cur st,
              with_completedStepKeys ({[ normalizeStepKey cur ]} ∪ completedStepKeys a) a)
        else (st, a)
    | None => (st, a)
    end.
Proof.
  unfold markCurrentStepCompleted. destruct (currentStep a) as [cur|]; [|reflexivity].
  destruct (truthy cur); cbn [negb andb]; [|reflexivity].
  destruct (truthy (normalizeStepKey cur)); cbn [negb andb orb]; [|reflexivity].
  destruct (bool_decide _); reflexivity.
Qed.

Lemma mark_frame_verdict st a :
  frame_verdict (markCurrentStepCompleted st a).2 = frame_verdict a.
Proof.
  unfold markCurrentStepCompleted.
  destruct (currentStep a) as [s|]; [|reflexivity].
  destruct (negb (truthy s)); [reflexivity|].
  destruct (negb (truthy (normalizeStepKey s)) || _); reflexivity.
Qed.

Lemma mark_in_sync st a :
  completed_in_sync st a ->
  completed_in_sync (markCurrentStepCompleted st a).1 (markCurrentStepCompleted st a).2.
Proof.
  intros [Hk Hnd]. rewrite mark_spec. destruct (currentStep a) as [cur|]; [|split; assumption].
  destruct (truthy cur); cbn [andb]; [|split; assumption].
  destruct (truthy (normalizeStepKey cur)); cbn [andb]; [|split; assumption].
  case_bool_decide as Hin; cbn [negb]; [split; assumption|].
  cbn [fst snd]. unfold completed_in_sync.
  cbn [addCompletedStep completedSteps with_completedStepKeys completedStepKeys].
  rewrite map_app. cbn [map]. split.
  - rewrite list_to_set_app_L, Hk. cbn [list_to_set].
    rewrite (right_id_L ∅ (∪)). apply (comm_L (∪)).
  - apply NoDup_app. split; [exact Hnd|]. split; [|apply NoDup_singleton].
    intros k Hk1 Hk2. apply list_elem_of_singleton in Hk2. subst k.
    apply Hin. rewrite Hk. apply elem_of_list_to_set. exact Hk1.
Qed.

Lemma applyPanelStepGate_sync cookingName requestedStep st sv a :
  completed_in_sync st a ->
  let out := applyPanelStepGate cookingName requestedStep st sv a in
  completed_in_sync out.1.1.2 out.2 /\
  (completedSteps out.1.1.2 = completedSteps st \/
   exists cur,
     currentStep a = Some cur /\
     completedSteps out.1.1.2 = completedSteps st ++ [cur] /\
     (normalizeStepKey cur ∉ completedStepKeys a) /\
     get out.1.1.1 (js "advanced") = Some (JBool true)).
Proof.
  intros Hsync. cbv zeta. unfold applyPanelStepGate.
  set (n := sanitizePanelStep requestedStep). clearbody n.
  assert (forall o, completed_in_sync (addObservation o st) a) as Hobs.
  { intros o. destruct Hsync as [H1 H2]. unfold completed_in_sync.
    rewrite addObservation_completedSteps. auto. }
  destruct (negb (truthy n)); [cbn [fst snd]; auto|].
  destruct (isStepTooBroad n).
  { cbn [fst snd]. split; [apply Hobs|]. left. apply addObservation_completedSteps. }
  destruct (negb (truthy_opt (currentStep a))); [cbn [fst snd]; auto|].
  destruct (isSameStep _ n); [cbn [fst snd]; auto|].
  destruct (negb (frameAllowsStepAdvance a)).
  { cbn [fst snd]. split; [apply Hobs|]. left. apply addObservation_completedSteps. }
  set (a0 := with_step _ (currentStep a) (Some n) a).
  assert (completed_in_sync st a0) as Hsync0 by exact Hsync.
  pose proof (mark_in_sync st a0 Hsync0) as Hm.
  pose proof (mark_spec st a0) as Hs.
  destruct (markCurrentStepCompleted st a0) as [st1 a1]. cbn [fst snd] in Hm |- *.
  split; [exact Hm|].
  change (currentStep a0) with (currentStep a) in Hs.
  change (completedStepKeys a0) with (completedStepKeys a) in Hs.
  destruct (currentStep a) as [cur|]; [|injection Hs as -> ->; left; reflexivity].
  destruct (truthy cur && truthy (normalizeStepKey cur)); cbn [andb] in Hs;
    [|injection Hs as -> ->; left; reflexivity].
  case_bool_decide as Hin; cbn [negb] in Hs; [injection Hs as -> ->; left; reflexivity|].
  injection Hs as -> ->. right. exists cur. split; [reflexivity|]. split; [reflexivity|].
  split; [exact Hin|reflexivity].
Qed.

(** X13. The steps recorded as completed. If the keys held by the assistant are
    those of the completed steps of the cooking state, none of them twice,
    this is still so after [applyPanelStepGate]; the call appends at most one
    step, the one that was current, and only when it answers
    [advanced: true]. *)
Theorem step_gate_completed_sync cookingName requestedStep st sv a :
  completed_in_sync st a ->
  let out := applyPanelStepGate cookingName requestedStep st sv a in
  completed_in_sync out.1.1.2 out.2 /\
  (completedSteps out.1.1.2 = completedSteps st \/
   exists cur,
     currentStep a = Some cur /\
     completedSteps out.1.1.2 = completedSteps st ++ [cur] /\
     (normalizeStepKey cur ∉ completedStepKeys a) /\
     get out.1.1.1 (js "advanced") = Some (JBool true)).
Proof. exact (applyPanelStepGate_sync cookingName requestedStep st sv a). Qed.

Lemma step_gate_completed_sync_witness :
  let out := applyPanelStepGate (js "pancakes") (js "Crack the eggs into the bowl.")
               createEmptyState (initialServer []) (eggs_locked true) in
  completed_in_sync out.1.1.2 out.2 /\
  (completedSteps out.1.1.2 = completedSteps createEmptyState \/
   exists cur,
     currentStep (eggs_locked true) = Some cur /\
     completedSteps out.1.1.2 = completedSteps createEmptyState ++ [cur] /\
     (normalizeStepKey cur ∉ completedStepKeys (eggs_locked true)) /\
     get out.1.1.1 (js "advanced") = Some (JBool true)).
Proof.
  apply (step_gate_completed_sync (js "pancakes") (js "Crack the eggs into the bowl.")
           createEmptyState (initialServer []) (eggs_locked true)).
  split; [reflexivity|constructor].
Defined.

(** X14. An advance does not lock the gate again. When the frame allows it, a
    proposal that is a new step is accepted: the panel shows it, it becomes
    the current step and nothing is pending; and [frameAllowsStepAdvance] is
    still set, so that until the next frame every further new step is
    accepted as well. *)
Theorem step_gate_advance_keeps_gate_open cookingName requestedStep st sv a cur :
  truthy (sanitizePanelStep requestedStep) = true ->
  isStepTooBroad (sanitizePanelStep requestedStep) = false ->
  currentStep a = Some cur -> truthy cur = true ->
  isSameStep cur (sanitizePanelStep requestedStep) = false ->
  frameAllowsStepAdvance a = true ->
  exists st' a',
    applyPanelStepGate cookingName requestedStep st sv a
    = ([(js "ok", JBool true); (js "advanced", JBool true);
        (js "current_step", JStr (sanitizePanelStep requestedStep))],
       st',
       setPanel {| cooking := cookingName;
                   nextStep := sanitizePanelStep requestedStep |} sv,
       a') /\
    currentStep a' = Some (sanitizePanelStep requestedStep) /\
    pendingNextStep a' = None /\
    frameAllowsStepAdvance a' = true /\
    latestFrameAssessment a' = latestFrameAssessment a /\
    forall cookingName2 requestedStep2 st2 sv2,
      truthy (sanitizePanelStep requestedStep2) = true ->
      isStepTooBroad (sanitizePanelStep requestedStep2) = false ->
      isSameStep (sanitizePanelStep requestedStep) (sanitizePanelStep requestedStep2) = false ->
      get (applyPanelStepGate cookingName2 requestedStep2 st2 sv2 a').1.1.1 (js "advanced")
      = Some (JBool true).
Proof.
  assert (forall c r s v b x,
    truthy (sanitizePanelStep r) = true -> isStepTooBroad (sanitizePanelStep r) = false ->
    currentStep b = Some x -> truthy x = true ->
    isSameStep x (sanitizePanelStep r) = false -> frameAllowsStepAdvance b = true ->
    exists s' b',
      applyPanelStepGate c r s v b
      = ([(js "ok", JBool true); (js "advanced", JBool true);
          (js "current_step", JStr (sanitizePanelStep r))],
         s', setPanel {| cooking := c; nextStep := sanitizePanelStep r |} v, b') /\
      currentStep b' = Some (sanitizePanelStep r) /\ pendingNextStep b' = None /\
      frameAllowsStepAdvance b' = true /\
      latestFrameAssessment b' = latestFrameAssessment b) as Hadv.
  { intros c r s v b x Hn Hb Hc Hx Hsame Hf. unfold applyPanelStepGate.
    set (n := sanitizePanelStep r) in *. clearbody n.
    rewrite Hn, Hb, Hc. cbn [negb truthy_opt from_option Datatypes.id].
    rewrite Hx. cbn [negb]. rewrite Hsame, Hf. cbn [negb].
    set (b0 := with_step _ (Some x) (Some n) b).
    pose proof (mark_frame_verdict s b0) as Hv.
    destruct (markCurrentStepCompleted s b0) as [s1 b1]. cbn [snd] in Hv.
    eexists s1, _. split; [reflexivity|].
    cbn [with_step currentStep pendingNextStep frameAllowsStepAdvance latestFrameAssessment].
    unfold frame_verdict in Hv. injection Hv as H1 H2 H3.
    repeat split; try reflexivity.
    - rewrite H2. exact Hf.
    - rewrite H1. reflexivity. }
  intros Hn Hb Hc Hx Hsame Hf.
  destruct (Hadv cookingName requestedStep st sv a cur Hn Hb Hc Hx Hsame Hf)
    as (st' & a' & E & K1 & K2 & K3 & K4).
  exists st', a'. split; [exact E|]. do 4 (split; [assumption|]).
  intros c2 r2 st2 sv2 Hn2 Hb2 Hsame2.
  destruct (Hadv c2 r2 st2 sv2 a' (sanitizePanelStep requestedStep) Hn2 Hb2 K1 Hn Hsame2 K3)
    as (s'' & b'' & E2 & _).
  rewrite E2. reflexivity.
Qed.

Lemma step_gate_advance_keeps_gate_open_witness :
  exists st' a',
    applyPanelStepGate (js "pancakes") (js "Whisk the batter") createEmptyState
      (initialServer []) (eggs_locked true)
    = ([(js "ok", JBool true); (js "advanced", JBool true);
        (js "current_step", JStr (sanitizePanelStep (js "Whisk the batter")))],
       st',
       setPanel {| cooking := js "pancakes";
                   nextStep := sanitizePanelStep (js "Whisk the batter") |}
         (initialServer []),
       a') /\
    currentStep a' = Some (sanitizePanelStep (js "Whisk the batter")) /\
    pendingNextStep a' = None /\
    frameAllowsStepAdvance a' = true /\
    latestFrameAssessment a' = latestFrameAssessment (eggs_locked true) /\
    forall cookingName2 requestedStep2 st2 sv2,
      truthy (sanitizePanelStep requestedStep2) = true ->
      isStepTooBroad (sanitizePanelStep requestedStep2) = false ->
      isSameStep (sanitizePanelStep (js "Whisk the batter"))
        (sanitizePanelStep requestedStep2) = false ->
      get (applyPanelStepGate cookingName2 requestedStep2 st2 sv2 a').1.1.1 (js "advanced")
      = Some (JBool true).
Proof.
  apply (step_gate_advance_keeps_gate_open (js "pancakes") (js "Whisk the batter")
           createEmptyState (initialServer []) (eggs_locked true) (js "Grab 2 eggs.")).
  - vm_compute. reflexivity.
  - vm_compute. reflexivity.
  - reflexivity.
  - reflexivity.
  - vm_compute. reflexivity.
  - reflexivity.
Defined.

(** ** What the tools never do *)

Section Keeps.

Variable env : Env.
Variable may_save : Prop.

Lemma steps_kept_same w w' :
  completedSteps (store w') = completedSteps (store w) ->
  completedStepKeys (asst w') = completedStepKeys (asst w) ->
  steps_kept w w'.
Proof.
  intros H1 H2. unfold steps_kept, completed_in_sync. rewrite H1, H2.
  split; [auto|]. exists []. rewrite app_nil_r. reflexivity.
Qed.

Lemma steps_kept_trans w1 w2 w3 : steps_kept w1 w2 -> steps_kept w2 w3 -> steps_kept w1 w3.
Proof.
  intros [H1 (m1 & E1)] [H2 (m2 & E2)]. split; [auto|].
  exists (m1 ++ m2). rewrite E2, E1, app_assoc. reflexivity.
Qed.

Lemma session_same_refl sv : session_same sv sv.
Proof. unfold session_same. auto. Qed.

Lemma session_kept_refl w : session_kept may_save w w.
Proof.
  unfold session_kept. split; [reflexivity|]. split; [left; apply session_same_refl|].
  apply steps_kept_same; reflexivity.
Qed.

Lemma session_kept_same w w' :
  frame_verdict (asst w') = frame_verdict (asst w) ->
  activeDishKey (server w') = activeDishKey (server w) ->
  completionConfirmedForSession (server w') = completionConfirmedForSession (server w) ->
  recipeStoredForSession (server w') = recipeStoredForSession (server w) ->
  recipes (server w') = recipes (server w) ->
  completedSteps (store w') = completedSteps (store w) ->
  completedStepKeys (asst w') = completedStepKeys (asst w) ->
  session_kept may_save w w'.
Proof.
  intros H1 H2 H3 H4 H5 H6 H7. unfold session_kept, session_same.
  split; [exact H1|]. split; [left; auto|]. apply steps_kept_same; assumption.
Qed.

Lemma session_saved_after sv1 sv2 sv3 :
  session_same sv1 sv2 -> session_saved sv2 sv3 -> session_saved sv1 sv3.
Proof.
  intros (R & D & C & S) (A1 & A2 & A3 & A4 & A5 & A6 & saved & A7 & A8).
  unfold session_saved. rewrite <- D, <- C, <- S.
  do 6 (split; [assumption|]). exists saved. auto.
Qed.

Lemma session_saved_before sv1 sv2 sv3 :
  session_saved sv1 sv2 -> session_same sv2 sv3 -> session_saved sv1 sv3.
Proof.
  intros (A1 & A2 & A3 & A4 & A5 & A6 & saved & A7 & A8) (R & D & C & S).
  unfold session_saved. rewrite R, D, C, S.
  do 6 (split; [assumption|]). exists saved. auto.
Qed.

Lemma session_kept_trans w1 w2 w3 :
  session_kept may_save w1 w2 -> session_kept may_save w2 w3 -> session_kept may_save w1 w3.
Proof.
  intros (V1 & R1 & T1) (V2 & R2 & T2). unfold session_kept.
  split; [congruence|]. split; [|exact (steps_kept_trans _ _ _ T1 T2)].
  destruct R1 as [R1|[P1 R1]]; destruct R2 as [R2|[P2 R2]].
  - left. unfold session_same in *. intuition congruence.
  - right. split; [exact P2|]. exact (session_saved_after _ _ _ R1 R2).
  - right. split; [exact P1|]. exact (session_saved_before _ _ _ R1 R2).
  - destruct R1 as (_ & _ & _ & _ & S & _). destruct R2 as (_ & S' & _). congruence.
Qed.

Lemma keeps_ret {A : Type} (a : A) : keeps may_save (mret a).
Proof. intros w. apply session_kept_refl. Qed.

Lemma keeps_throw {A : Type} e : keeps may_save (@throw A e).
Proof. intros w. apply session_kept_refl. Qed.

Lemma keeps_lift {A : Type} (r : result A) : keeps may_save (lift r).
Proof. intros w. apply session_kept_refl. Qed.

Lemma keeps_gets {A : Type} (f : World -> A) : keeps may_save (gets f).
Proof. intros w. apply session_kept_refl. Qed.

Lemma keeps_interact : keeps may_save interact.
Proof. intros w. apply session_kept_same; reflexivity. Qed.

Lemma keeps_bind {A B : Type} (m : M A) (f : A -> M B) :
  keeps may_save m -> (forall a, keeps may_save (f a)) -> keeps may_save (m ≫= f).
Proof.
  intros Hm Hf w. unfold mbind, M_bind. specialize (Hm w).
  destruct (m w) as [[a|e] w1]; cbn [snd] in Hm |- *; [|exact Hm].
  exact (session_kept_trans _ _ _ Hm (Hf a w1)).
Qed.

Lemma keeps_modify (f : World -> World) :
  (forall w, session_kept may_save w (f w)) -> keeps may_save (modify f).
Proof. intros H w. apply H. Qed.

Lemma keeps_on_store f :
  (forall st, completedSteps (f st) = completedSteps st) ->
  keeps may_save (modify (on_store f)).
Proof.
  intros Hf. apply keeps_modify. intros w.
  apply session_kept_same; try reflexivity. apply Hf.
Qed.

Lemma recordConversation_completedSteps r c st :
  completedSteps (recordConversation r c st) = completedSteps st.
Proof. unfold recordConversation. cbv zeta. destruct (negb (truthy (trim c))); reflexivity. Qed.

Lemma updatePlan_completedSteps c st : completedSteps (updatePlan c st) = completedSteps st.
Proof.
  unfold updatePlan. destruct (negb (truthy (trim c))); [reflexivity|].
  destruct (negb (truthy (originalPlan st))); reflexivity.
Qed.

Lemma keeps_now : keeps may_save (now env).
Proof. unfold now. apply keeps_bind; [apply keeps_interact|intros n; apply keeps_ret]. Qed.

Lemma keeps_timers_changed t f w :
  session_kept may_save w (timers_changed t (on_timers f w)).
Proof. apply session_kept_same; reflexivity. Qed.

Lemma keeps_timers_cancelTimer l : keeps may_save (timers_cancelTimer env l).
Proof.
  unfold timers_cancelTimer. apply keeps_bind; [apply keeps_now|]. intros t w.
  unfold act. destruct (cancelTimer l (timers w)) as [[|] rest]; cbn [snd].
  - apply keeps_timers_changed.
  - apply session_kept_refl.
Qed.

Lemma keeps_timers_setTimer d l : keeps may_save (timers_setTimer env d l).
Proof.
  unfold timers_setTimer. destruct (negb (truthy (trim l))); [apply keeps_throw|].
  apply keeps_bind; [apply keeps_timers_cancelTimer|]. intros _.
  apply keeps_bind; [apply keeps_now|]. intros t.
  destruct d; try apply keeps_throw;
    (destruct (negb (valid_date _)); [apply keeps_throw|]);
    (apply keeps_bind; [|intros _; apply keeps_ret]);
    apply keeps_modify; intros w; apply keeps_timers_changed.
Qed.

Lemma keeps_outputs_setOverlay update : keeps may_save (outputs_setOverlay env update).
Proof.
  assert (keeps may_save (modify (on_server (setOverlay update)))) as Hset.
  { apply keeps_modify. intros w. apply session_kept_same; reflexivity. }
  unfold outputs_setOverlay.
  destruct (ttlSeconds update) as [[|q| |]|].
  - exact Hset.
  - destruct (Qeq_bool q 0); [exact Hset|].
    apply keeps_bind; [apply keeps_now|]. intros t.
    destruct (negb (valid_date _)); [apply keeps_throw|exact Hset].
  - apply keeps_bind; [apply keeps_now|]. intros t. apply keeps_throw.
  - apply keeps_bind; [apply keeps_now|]. intros t.
    destruct (negb (valid_date _)); [apply keeps_throw|exact Hset].
  - exact Hset.
Qed.

Lemma keeps_outputs_speak message : keeps may_save (outputs_speak env message).
Proof.
  unfold outputs_speak. apply keeps_bind; [apply keeps_interact|]. intros n w.
  unfold act.
  destruct (speak_step (config env) (Date_now env n) (synthesize env n) message (server w))
    as (new & _ & _ & _ & R & A & T & C).
  destruct (speak (config env) (Date_now env n) (synthesize env n) message (server w))
    as [r sv]. cbn [snd] in *.
  apply session_kept_same; cbn [on_server server asst store]; auto.
Qed.

Lemma keeps_runPython code : keeps may_save (runPython env code).
Proof.
  unfold runPython. apply keeps_bind; [apply keeps_interact|]. intros n.
  apply keeps_bind; [apply keeps_modify; intros w; apply session_kept_same; reflexivity|].
  intros _. apply keeps_bind; [apply keeps_lift|]. intros response.
  destruct (output_text response) as [t|]; [destruct (truthy (trim t))|]; apply keeps_ret.
Qed.

Lemma applyPanelStepGate_keeps c next st sv a :
  let out := applyPanelStepGate c next st sv a in
  frame_verdict out.2 = frame_verdict a /\
  activeDishKey out.1.2 = activeDishKey sv /\
  completionConfirmedForSession out.1.2 = completionConfirmedForSession sv /\
  recipeStoredForSession out.1.2 = recipeStoredForSession sv /\
  recipes out.1.2 = recipes sv /\
  (completed_in_sync st a -> completed_in_sync out.1.1.2 out.2) /\
  exists more, completedSteps out.1.1.2 = completedSteps st ++ more.
Proof.
  assert (let out := applyPanelStepGate c next st sv a in
          (completed_in_sync st a -> completed_in_sync out.1.1.2 out.2) /\
          exists more, completedSteps out.1.1.2 = completedSteps st ++ more) as Hsteps.
  { cbv zeta. split.
    - intros H. exact (proj1 (applyPanelStepGate_sync c next st sv a H)).
    - unfold applyPanelStepGate.
      set (n := sanitizePanelStep next). clearbody n.
      destruct (negb (truthy n)); [exists []; cbn [fst snd]; rewrite app_nil_r; reflexivity|].
      destruct (isStepTooBroad n).
      { exists []. cbn [fst snd]. rewrite app_nil_r. apply addObservation_completedSteps. }
      destruct (negb (truthy_opt (currentStep a)));
        [exists []; cbn [fst snd]; rewrite app_nil_r; reflexivity|].
      destruct (isSameStep _ n); [exists []; cbn [fst snd]; rewrite app_nil_r; reflexivity|].
      destruct (negb (frameAllowsStepAdvance a)).
      { exists []. cbn [fst snd]. rewrite app_nil_r. apply addObservation_completedSteps. }
      set (a0 := with_step _ (currentStep a) (Some n) a).
      pose proof (mark_spec st a0) as Hs.
      destruct (markCurrentStepCompleted st a0) as [st1 a1]. cbn [fst snd].
      destruct (currentStep a0) as [cur|];
        [|injection Hs as -> ->; exists []; rewrite app_nil_r; reflexivity].
      destruct (truthy cur && truthy (normalizeStepKey cur) && _);
        injection Hs as -> ->; [exists [cur]; reflexivity|].
      exists []. rewrite app_nil_r. reflexivity. }
  cbv zeta in Hsteps |- *. revert Hsteps. unfold applyPanelStepGate.
  set (n := sanitizePanelStep next). clearbody n.
  destruct (negb (truthy n)); [cbn [fst snd]; intros []; auto 10|].
  destruct (isStepTooBroad n); [cbn [fst snd]; intros []; auto 10|].
  destruct (negb (truthy_opt (currentStep a))); [cbn [fst snd]; intros []; auto 10|].
  destruct (isSameStep _ n); [cbn [fst snd]; intros []; auto 10|].
  destruct (negb (frameAllowsStepAdvance a)); [cbn [fst snd]; intros []; auto 10|].
  set (a0 := with_step _ (currentStep a) (Some n) a).
  pose proof (mark_frame_verdict st a0) as Hm.
  destruct (markCurrentStepCompleted st a0) as [st1 a1]. cbn [snd fst] in Hm |- *.
  intros []. split; [|auto 10]. unfold frame_verdict in *. cbn [with_step latestFrameAssessment
    frameAllowsStepAdvance visionHistory]. exact Hm.
Qed.

Lemma completeRecipe_store lc0 nowIso d r st sv :
  completedSteps (completeRecipe lc0 nowIso d r st sv).1.2 = completedSteps st.
Proof.
  unfold completeRecipe.
  destruct (negb (truthy (trim d)) || negb (truthy (trim r))); [reflexivity|].
  destruct (negb (truthy (normalizeDishKey (trim d)))); [reflexivity|].
  destruct (negb (truthy (activeDishKey sv))); [reflexivity|].
  destruct (negb (eqb (normalizeDishKey (trim d)) (activeDishKey sv))); [reflexivity|].
  destruct (recipeStoredForSession sv); [reflexivity|].
  destruct (negb (completionConfirmedForSession sv)); [reflexivity|].
  destruct (saveCompletedRecipe lc0 (recipes sv) nowIso (trim d) (trim r)) as [[file saved]|e];
    [|reflexivity].
  cbn [fst snd]. apply addObservation_completedSteps.
Qed.

Lemma completeRecipe_keeps nowIso d r st sv :
  let out := completeRecipe (localeCompare env) nowIso d r st sv in
  session_same sv out.2 \/ session_saved sv out.2.
Proof.
  cbv zeta. unfold completeRecipe.
  assert (forall res,
    let out := (Ok res, st, sv) : result (list (list ascii * json)) * CookingState * ServerState in
    session_same sv out.2 \/ session_saved sv out.2) as Hsame.
  { intros res. cbn [snd]. left. apply session_same_refl. }
  destruct (negb (truthy (trim d)) || negb (truthy (trim r))); [apply Hsame|].
  destruct (negb (truthy (normalizeDishKey (trim d)))); [apply Hsame|].
  destruct (truthy (activeDishKey sv)) eqn:Ha; cbn [negb]; [|apply Hsame].
  destruct (eqb (normalizeDishKey (trim d)) (activeDishKey sv)) eqn:Hk; cbn [negb];
    [|apply Hsame].
  apply eqb_true in Hk.
  destruct (recipeStoredForSession sv) eqn:Hs; [apply Hsame|].
  destruct (completionConfirmedForSession sv) eqn:Hc; cbn [negb]; [|apply Hsame].
  clear Hsame.
  destruct (saveCompletedRecipe (localeCompare env) (recipes sv) nowIso (trim d) (trim r))
    as [[file saved]|e] eqn:E.
  - right. apply saveCompletedRecipe_In in E. destruct E as [E1 E2].
    rewrite normalizeDishKey_trim, Hk in E2.
    unfold session_saved.
    cbn [snd after_save activeDishKey completionConfirmedForSession
         recipeStoredForSession recipes].
    do 6 (split; [first [reflexivity|assumption]|]). exists saved. auto.
  - left. cbn [snd]. apply session_same_refl.
Qed.

Lemma keeps_set_panel c next :
  keeps may_save (act (fun w =>
    let '(result, st, sv, a) := applyPanelStepGate c next (store w) (server w) (asst w) in
    (Ok result,
     {| store := st; server := sv; asst := a;
        timers := timers w; tick := tick w; requests := requests w |}))).
Proof.
  intros w. unfold act.
  pose proof (applyPanelStepGate_keeps c next (store w) (server w) (asst w)) as H.
  cbv zeta in H.
  destruct (applyPanelStepGate c next (store w) (server w) (asst w)) as [[[res st] sv] a'].
  cbn [fst snd] in H |- *. destruct H as (H1 & H2 & H3 & H4 & H5 & H6 & H7).
  unfold session_kept, session_same, steps_kept. cbn [server asst store].
  split; [exact H1|]. split; [left; auto|]. auto.
Qed.

Lemma keeps_complete_recipe nowIso d r :
  may_save ->
  keeps may_save (act (fun w =>
    let '(result, st, sv) := completeRecipe (localeCompare env) nowIso d r (store w) (server w) in
    (result,
     {| store := st; server := sv; asst := asst w;
        timers := timers w; tick := tick w; requests := requests w |}))).
Proof.
  intros Hsave w. unfold act.
  pose proof (completeRecipe_keeps nowIso d r (store w) (server w)) as H.
  pose proof (completeRecipe_store (localeCompare env) nowIso d r (store w) (server w)) as Hst.
  cbv zeta in H.
  destruct (completeRecipe (localeCompare env) nowIso d r (store w) (server w)) as [[res st] sv].
  cbn [fst snd] in H, Hst |- *.
  unfold session_kept. cbn [server asst store].
  split; [reflexivity|]. split; [|apply steps_kept_same; [exact Hst|reflexivity]].
  destruct H as [H|H]; [left; exact H|right; split; assumption].
Qed.

Ltac keeps_save :=
  first
    [ assumption
    | match goal with
      | H : _ -> ?G |- ?G => apply H; apply eqb_true; assumption
      end ].

Ltac keeps_leaf :=
  first
    [ apply keeps_ret | apply keeps_throw | apply keeps_lift | apply keeps_gets
    | apply keeps_now | apply keeps_interact
    | (apply keeps_on_store; intros ?;
       first [ reflexivity | apply addObservation_completedSteps
             | apply recordConversation_completedSteps
             | apply updatePlan_completedSteps ])
    | apply keeps_outputs_speak | apply keeps_outputs_setOverlay | apply keeps_timers_setTimer
    | apply keeps_timers_cancelTimer | apply keeps_runPython
    | apply keeps_set_panel | (apply keeps_complete_recipe; keeps_save)
    | (apply keeps_modify; intros ?; apply session_kept_same; reflexivity) ].

Ltac keeps_go :=
  first
    [ keeps_leaf
    | match goal with
      | |- keeps _ (match ?x with _ => _ end) => destruct x eqn:?; keeps_go
      end
    | (apply keeps_bind; [keeps_go|intros ?; keeps_go])
    | idtac ].

Lemma keeps_toolResult call args :
  (name call = js "complete_recipe" -> may_save) ->
  keeps may_save (toolResult env call args).
Proof. intros Hname. unfold toolResult. keeps_go. Qed.

Lemma keeps_executeFunctionCall call :
  (name call = js "complete_recipe" -> may_save) ->
  keeps may_save (executeFunctionCall env call).
Proof.
  intros Hname. unfold executeFunctionCall.
  apply keeps_bind; [apply keeps_toolResult; exact Hname|]. intros result. keeps_go.
Qed.

Hypothesis Hsave : may_save.

Lemma keeps_executeAll calls : keeps may_save (executeAll env calls).
Proof.
  induction calls as [|c calls IH]; cbn [executeAll]; [apply keeps_ret|].
  apply keeps_bind; [apply keeps_executeFunctionCall; intros _; exact Hsave|]. intros o.
  apply keeps_bind; [exact IH|]. intros os. apply keeps_ret.
Qed.

Lemma keeps_resolveRounds n response : keeps may_save (resolveRounds env n response).
Proof.
  revert response. induction n as [|n IH]; intros response; cbn [resolveRounds].
  - apply keeps_throw.
  - destruct (length (functionCallsOf (output response)) =? 0).
    + keeps_go.
    + apply keeps_bind; [apply keeps_executeAll|]. intros results.
      keeps_go. apply IH.
Qed.

Lemma keeps_sendTextTurn t : keeps may_save (sendTextTurn env t).
Proof.
  unfold sendTextTurn, resolveResponse. keeps_go. apply keeps_resolveRounds.
Qed.

Lemma keeps_handleUserMessage message : keeps may_save (handleUserMessage env message).
Proof.
  unfold handleUserMessage.
  apply keeps_bind; [keeps_leaf|]. intros _. apply keeps_sendTextTurn.
Qed.

Lemma keeps_handleTimerFired timer firedAt : keeps may_save (handleTimerFired env timer firedAt).
Proof.
  unfold handleTimerFired.
  apply keeps_bind; [keeps_leaf|]. intros _. apply keeps_sendTextTurn.
Qed.

Lemma analyzeFrame_world frame w :
  exists ms k,
    analyzeFrame env frame w
    = (Ok (coerceAssessment (JSON_parse env) (currentStep (asst w))
             (vision_text env (tick w))), k) /\
    server k = server w /\
    currentStep (asst k) = currentStep (asst w) /\
    latestFrameAssessment (asst k) = latestFrameAssessment (asst w) /\
    frameAllowsStepAdvance (asst k) = frameAllowsStepAdvance (asst w) /\
    visionHistory (asst k)
    = pushHistory
        {| takenAtMs := ms;
           entry_observation :=
             observation (coerceAssessment (JSON_parse env) (currentStep (asst w))
                            (vision_text env (tick w)));
           entry_stepStatus :=
             stepStatus (coerceAssessment (JSON_parse env) (currentStep (asst w))
                           (vision_text env (tick w))) |}
        (visionHistory (asst w)).
Proof.
  unfold analyzeFrame, parseTimestampMs, vision_text.
  destruct (Date_parse env (takenAt frame)) as [ms|] eqn:E.
  - eexists ms, _. cbn. repeat split; reflexivity.
  - eexists _, _. cbn. repeat split; reflexivity.
Qed.

Lemma analyzeFrame_steps frame w :
  completedSteps (store (analyzeFrame env frame w).2) = completedSteps (store w) /\
  completedStepKeys (asst (analyzeFrame env frame w).2) = completedStepKeys (asst w).
Proof.
  unfold analyzeFrame, parseTimestampMs.
  destruct (Date_parse env (takenAt frame)); cbn; split; reflexivity.
Qed.

Lemma processFrame_world frame w :
  exists ms k,
    let a := coerceAssessment (JSON_parse env) (currentStep (asst w))
               (vision_text env (tick w)) in
    server k = server w /\
    completedSteps (store k) = completedSteps (store w) /\
    completedStepKeys (asst k) = completedStepKeys (asst w) /\
    frame_verdict (asst k)
    = (Some a,
       negb (truthy_opt (currentStep (asst w))) || is_complete (stepStatus a),
       pushHistory {| takenAtMs := ms; entry_observation := observation a;
                      entry_stepStatus := stepStatus a |} (visionHistory (asst w))) /\
    session_kept may_save k (processFrame env frame w).2.
Proof.
  destruct (analyzeFrame_world frame w) as (ms & k & E & Hs & Hc & _ & _ & Hv).
  pose proof (analyzeFrame_steps frame w) as [Hst Hkeys]. rewrite E in Hst, Hkeys.
  cbn [snd] in Hst, Hkeys.
  set (a := coerceAssessment _ _ _) in *. clearbody a.
  exists ms.
  exists (on_asst (fun a0 =>
            with_frame a (negb (truthy_opt (currentStep a0)) || is_complete (stepStatus a)) a0) k).
  cbv zeta. split; [exact Hs|]. split; [exact Hst|]. split; [exact Hkeys|]. split.
  { unfold frame_verdict. cbn [on_asst asst with_frame latestFrameAssessment
      frameAllowsStepAdvance visionHistory]. rewrite Hc, Hv. reflexivity. }
  unfold processFrame.
  match goal with |- context [analyzeFrame env frame ≫= ?f] => set (k1 := f) end.
  unfold mbind at 1. unfold M_bind at 1. rewrite E. subst k1. cbv beta.
  match goal with |- context [modify ?g ≫= ?f] => set (k2 := f); set (g2 := g) end.
  unfold mbind at 1. unfold M_bind at 1. unfold modify at 1.
  assert (keeps may_save (k2 tt)) as Hk.
  { subst k2. cbv beta. keeps_go. apply keeps_resolveRounds. }
  exact (Hk _).
Qed.

Lemma initializeWithRecipeIdea_world recipeIdea priorRecipe w :
  exists k,
    completedSteps (store k) = completedSteps (store w) /\
    completedStepKeys (asst k) = ∅ /\
    session_kept may_save k
      (initializeWithRecipeIdea env recipeIdea priorRecipe w).2.
Proof.
  unfold initializeWithRecipeIdea.
  match goal with |- context [modify ?g ≫= ?f] => set (k2 := f); set (g2 := g) end.
  exists (g2 w). split; [reflexivity|]. split; [reflexivity|].
  unfold mbind at 1. unfold M_bind at 1. unfold modify at 1.
  assert (keeps may_save (k2 tt)) as Hk.
  { subst k2. cbv beta.
    apply keeps_bind; [keeps_leaf|]. intros _.
    apply keeps_bind; [keeps_leaf|]. intros _. apply keeps_sendTextTurn. }
  exact (Hk _).
Qed.

Lemma session_kept_steps w w' : session_kept may_save w w' -> steps_kept w w'.
Proof. intros (_ & _ & H). exact H. Qed.

Lemma session_kept_server w w' :
  session_kept may_save w w' ->
  session_same (server w) (server w') \/ session_saved (server w) (server w').
Proof. intros (_ & [H|[_ H]] & _); auto. Qed.

End Keeps.


(** X15. No tool call, whatever the model asks for and however the turn ends,
    changes what the last frame decided (the assessment, whether the step
    may advance, the vision history): a turn after a user message or a timer
    leaves the verdict as it was, and a frame event ends with the verdict
    its own assessment gave, computed against the step that was current when
    the frame arrived. *)
Theorem tools_keep_frame_verdict env :
  (forall response w,
      frame_verdict (asst (resolveResponse env response w).2) = frame_verdict (asst w)) /\
  (forall message w,
      frame_verdict (asst (handleUserMessage env message w).2) = frame_verdict (asst w)) /\
  (forall timer firedAt w,
      frame_verdict (asst (handleTimerFired env timer firedAt w).2)
      = frame_verdict (asst w)) /\
  (forall frame w, exists ms,
      let a := coerceAssessment (JSON_parse env) (currentStep (asst w))
                 (vision_text env (tick w)) in
      frame_verdict (asst (processFrame env frame w).2)
      = (Some a,
         negb (truthy_opt (currentStep (asst w))) || is_complete (stepStatus a),
         pushHistory {| takenAtMs := ms; entry_observation := observation a;
                        entry_stepStatus := stepStatus a |} (visionHistory (asst w)))).
Proof.
  split; [|split; [|split]].
  - intros response w. exact (proj1 (keeps_resolveRounds env True I 8 response w)).
  - intros message w. exact (proj1 (keeps_handleUserMessage env True I message w)).
  - intros timer firedAt w. exact (proj1 (keeps_handleTimerFired env True I timer firedAt w)).
  - intros frame w.
    destruct (processFrame_world env True I frame w) as (ms & k & _ & _ & _ & Hv & Hk).
    exists ms. cbv zeta in *. rewrite <- Hv. exact (proj1 Hk).
Qed.

(** X16. One tool call and the recipe file. Whatever the model asks for and
    whatever the state the call finds, a tool call leaves the catalog, the
    dish of the session and its two marks (confirmed, stored) as they were,
    or it is a [complete_recipe] call that saved: then, when the call began,
    the session had a dish, the user had confirmed and nothing was stored
    yet, and when it ends the confirmation is taken back, the session is
    marked as stored and the catalog holds an entry under the key of the
    session. So no other tool writes the file, no tool sets or clears the
    confirmation except the save that uses it up, and a call that finds the
    session unconfirmed or already stored changes none of this. *)
Theorem only_complete_recipe_saves env call w :
  let sv := server w in
  let sv' := server (executeFunctionCall env call w).2 in
  (session_same sv sv' \/ (name call = js "complete_recipe" /\ session_saved sv sv')) /\
  (name call <> js "complete_recipe" -> session_same sv sv') /\
  (completionConfirmedForSession sv = false -> session_same sv sv') /\
  (recipeStoredForSession sv = true -> session_same sv sv') /\
  (recipes sv' <> recipes sv -> name call = js "complete_recipe" /\ session_saved sv sv').
Proof.
  cbv zeta.
  destruct (keeps_executeFunctionCall env (name call = js "complete_recipe") call
              (fun H => H) w) as (_ & H & _).
  split; [exact H|].
  destruct H as [H|[Hn H]].
  - split; [auto|]. split; [auto|]. split; [auto|].
    intros Hr. destruct H as (R & _). contradiction.
  - split; [contradiction|].
    destruct H as (A1 & A2 & A3) eqn:E. clear E.
    split; [congruence|]. split; [congruence|].
    intros _. split; [exact Hn|]. tauto.
Qed.

(** A [complete_recipe] call that finds the session confirmed for banana
    bread saves it. *)
Lemma only_complete_recipe_saves_witness :
  name complete_banana = js "complete_recipe" /\
  session_saved banana_confirmed
    (server (executeFunctionCall kitchen_env complete_banana banana_world).2).
Proof.
  apply (proj2 (proj2 (proj2 (proj2
           (only_complete_recipe_saves kitchen_env complete_banana banana_world))))).
  vm_compute. discriminate.
Defined.

(** X17. The completed steps in a session. In every event (the turn after a user
    message, after a timer, after a frame) the steps listed as completed
    stay listed, in front and in their order, and if the keys the assistant
    holds are those of the list, none twice, this is still so afterwards: no
    step is listed twice. The start of a session empties the keys but not
    the list: without a reset in between, the steps of the session before
    are still listed while their keys are forgotten. *)
Theorem completed_steps_in_session env :
  completed_in_sync createEmptyState initialAssistant /\
  (forall response w, steps_kept w (resolveResponse env response w).2) /\
  (forall message w, steps_kept w (handleUserMessage env message w).2) /\
  (forall timer firedAt w, steps_kept w (handleTimerFired env timer firedAt w).2) /\
  (forall frame w, steps_kept w (processFrame env frame w).2) /\
  (forall recipeIdea priorRecipe w, exists k,
      completedSteps (store k) = completedSteps (store w) /\
      completedStepKeys (asst k) = ∅ /\
      steps_kept k (initializeWithRecipeIdea env recipeIdea priorRecipe w).2).
Proof.
  split; [split; [reflexivity|constructor]|].
  split; [intros response w;
          exact (session_kept_steps True _ _ (keeps_resolveRounds env True I 8 response w))|].
  split; [intros message w;
          exact (session_kept_steps True _ _ (keeps_handleUserMessage env True I message w))|].
  split; [intros timer firedAt w;
          exact (session_kept_steps True _ _ (keeps_handleTimerFired env True I timer firedAt w))|].
  split.
  - intros frame w.
    destruct (processFrame_world env True I frame w) as (ms & k & _ & Hst & Hkeys & _ & Hk).
    apply session_kept_steps in Hk. destruct Hk as [H1 (more & H2)].
    unfold steps_kept, completed_in_sync in *. rewrite Hst, Hkeys in H1. rewrite Hst in H2.
    split; [exact H1|]. exists more. exact H2.
  - intros recipeIdea priorRecipe w.
    destruct (initializeWithRecipeIdea_world env True I recipeIdea priorRecipe w)
      as (k & H1 & H2 & Hk).
    exists k. split; [exact H1|]. split; [exact H2|]. exact (session_kept_steps True _ _ Hk).
Qed.

(** ** Timers *)

Lemma insert_by_end_perm x l : insert_by_end x l ≡ₚ x :: l.
Proof.
  induction l as [|y l IH]; [reflexivity|]. cbn [insert_by_end].
  destruct (endsAt x <=? endsAt y)%Z; [reflexivity|].
  rewrite IH. apply perm_swap.
Qed.

Lemma insert_by_end_sorted x l :
  StronglySorted ends_before l -> StronglySorted ends_before (insert_by_end x l).
Proof.
  intros Hl. induction Hl as [|y l Hl IH Hy]; [repeat constructor|].
  cbn [insert_by_end]. destruct (endsAt x <=? endsAt y)%Z eqn:E.
  - apply Z.leb_le in E. constructor; [constructor; assumption|].
    constructor; [exact E|].
    eapply Forall_impl; [exact Hy|]. intros z Hz. unfold ends_before in *. lia.
  - apply Z.leb_gt in E. constructor; [exact IH|].
    apply list.Forall_forall. intros z Hz.
    rewrite insert_by_end_perm in Hz. apply elem_of_cons in Hz as [->|Hz].
    + unfold ends_before. lia.
    + rewrite list.Forall_forall in Hy. exact (Hy z Hz).
Qed.

(** X18. The timers listed are those still running, each once, the one that ends
    first in front. *)
Theorem listActiveTimers_sorted now ts :
  StronglySorted ends_before (listActiveTimers now ts) /\
  listActiveTimers now ts ≡ₚ List.filter (running now) ts /\
  (forall t, In t (listActiveTimers now ts) <-> In t ts /\ (now < endsAt t)%Z).
Proof.
  unfold listActiveTimers. fold (running now).
  assert (forall l, fold_right insert_by_end [] l ≡ₚ l) as Hp.
  { induction l as [|x l IH]; [reflexivity|]. cbn [fold_right].
    rewrite insert_by_end_perm, IH. reflexivity. }
  split; [|split].
  - induction (List.filter (running now) ts) as [|x l IH]; [constructor|].
    cbn [fold_right]. apply insert_by_end_sorted. exact IH.
  - apply Hp.
  - intros t. rewrite <- !list_elem_of_In. rewrite Hp. rewrite !list_elem_of_In.
    rewrite filter_In. unfold running. rewrite Z.ltb_lt. reflexivity.
Qed.

Lemma cancelTimer_spec l ts :
  (cancelTimer l ts).2 = List.filter (other_label (trim l)) ts /\
  ((cancelTimer l ts).1 = true <-> exists t, In t ts /\ label t = trim l).
Proof.
  unfold cancelTimer. fold (other_label (trim l)).
  destruct (existsb _ ts) eqn:E; cbn [fst snd].
  - split; [reflexivity|]. split; [|reflexivity]. intros _.
    apply existsb_exists in E as (t & H1 & H2). exists t. split; [exact H1|].
    apply eqb_true. exact H2.
  - split.
    + symmetry. apply forallb_filter_id. apply forallb_forall. intros t Ht.
      unfold other_label. destruct (eqb (label t) (trim l)) eqn:E'; [|reflexivity].
      assert (existsb (fun t => eqb (label t) (trim l)) ts = true) as K
        by (apply existsb_exists; eauto).
      congruence.
    + split; [discriminate|]. intros (t & H1 & H2).
      assert (existsb (fun t => eqb (label t) (trim l)) ts = true) as K.
      { apply existsb_exists. exists t. split; [exact H1|]. rewrite H2. apply eqb_refl. }
      congruence.
Qed.

Lemma NoDup_labels_filter f (ts : list ActiveTimerSnapshot) :
  NoDup (map label ts) -> NoDup (map label (List.filter f ts)).
Proof.
  induction ts as [|t ts IH]; [auto|]. cbn [map List.filter]. intros H.
  apply NoDup_cons in H as [H1 H2]. destruct (f t); [|auto].
  cbn [map]. apply NoDup_cons. split; [|auto].
  intros Hin. apply H1. apply list_elem_of_In in Hin. apply list_elem_of_In.
  apply in_map_iff in Hin as (x & Hx1 & Hx2). apply in_map_iff. exists x.
  split; [exact Hx1|]. apply filter_In in Hx2. tauto.
Qed.

(** X19. Setting a timer. With a label that is not blank and a finite
    duration, [setTimer] first cancels the timer that had the label. When
    the end, the clock plus max(1, round(duration)) seconds, is a date, it
    returns a timer under the trimmed label that lasts that long; it takes
    the place of the timer that had the label, the other timers stay, and no
    two timers share a label. When the end is past the last date it throws,
    and the timer that had the label is gone. *)
Theorem timers_setTimer_replaces env q l w :
  truthy (trim l) = true ->
  NoDup (map label (timers w)) ->
  let t := Date_now env (S (tick w)) in
  let d := Z.max 1 (round q) in
  (valid_date (t + d * 1000) = true ->
   exists snap w',
     timers_setTimer env (Finite q) l w = (Ok snap, w') /\
     snap = {| label := trim l; durationSeconds := d; startedAt := t;
               endsAt := (t + d * 1000)%Z |} /\
     timers w' = List.filter (other_label (trim l)) (timers w) ++ [snap] /\
     NoDup (map label (timers w'))) /\
  (valid_date (t + d * 1000) = false ->
   exists w',
     timers_setTimer env (Finite q) l w = (Throw (js "Invalid time value"), w') /\
     timers w' = List.filter (other_label (trim l)) (timers w)).
Proof.
  intros Hl Hnd t d. unfold timers_setTimer. rewrite Hl. cbn [negb].
  unfold timers_cancelTimer, now.
  unfold mbind, M_bind, mret, M_ret, interact, act, modify, throw. cbn [timers tick].
  pose proof (cancelTimer_spec (trim l) (timers w)) as [Hc _]. rewrite trim_idem in Hc.
  assert ((cancelTimer (trim l) (timers w)).1 = false ->
          (cancelTimer (trim l) (timers w)).2 = timers w) as Hf.
  { unfold cancelTimer. destruct (existsb _ _); [discriminate|reflexivity]. }
  assert (forall kept,
    kept = List.filter (other_label (trim l)) (timers w) ->
    NoDup (map label (kept ++ [{| label := trim l; durationSeconds := d;
                                  startedAt := t;
                                  endsAt := (t + d * 1000)%Z |}]))) as Hfresh.
  { intros kept ->. rewrite map_app. apply NoDup_app.
    split; [apply NoDup_labels_filter; exact Hnd|].
    split; [|apply NoDup_singleton]. cbn [map label].
    intros k Hk1 Hk2. apply list_elem_of_singleton in Hk2. subst k.
    apply list_elem_of_In, in_map_iff in Hk1 as (x & Hx1 & Hx2).
    apply filter_In in Hx2 as [_ Hx2]. unfold other_label in Hx2.
    rewrite Hx1, eqb_refl in Hx2. discriminate. }
  destruct (cancelTimer (trim l) (timers w)) as [[|] rest]; cbn [fst snd] in Hc, Hf.
  - cbn [timers_changed on_server on_store on_timers timers tick].
    fold t. fold d. split; intros Hv; rewrite Hv; cbn [negb].
    + eexists _, _. split; [reflexivity|]. split; [reflexivity|].
      cbn [timers_changed on_server on_store on_timers timers tick].
      split; [rewrite Hc; reflexivity|]. apply Hfresh. exact Hc.
    + eexists. split; [reflexivity|].
      cbn [timers_changed on_server on_store on_timers timers tick]. exact Hc.
  - cbn [timers_changed on_server on_store on_timers timers tick].
    fold t. fold d. split; intros Hv; rewrite Hv; cbn [negb].
    + eexists _, _. split; [reflexivity|]. split; [reflexivity|].
      cbn [timers_changed on_server on_store on_timers timers tick].
      rewrite <- Hc, (Hf eq_refl).
      split; [reflexivity|]. apply Hfresh. rewrite <- Hc. symmetry. exact (Hf eq_refl).
    + eexists. split; [reflexivity|]. cbn [timers]. rewrite <- Hc. symmetry.
      exact (Hf eq_refl).
Qed.

Lemma timers_setTimer_replaces_witness :
  let t := Date_now (example_env plain_answer) (S (tick (initialWorld []))) in
  let d := Z.max 1 (round (181 # 2)) in
  (valid_date (t + d * 1000) = true ->
   exists snap w',
     timers_setTimer (example_env plain_answer) (Finite (181 # 2)) (js " pasta ")
       (initialWorld []) = (Ok snap, w') /\
     snap = {| label := trim (js " pasta "); durationSeconds := d; startedAt := t;
               endsAt := (t + d * 1000)%Z |} /\
     timers w' = List.filter (other_label (trim (js " pasta "))) (timers (initialWorld []))
                 ++ [snap] /\
     NoDup (map label (timers w'))) /\
  (valid_date (t + d * 1000) = false ->
   exists w',
     timers_setTimer (example_env plain_answer) (Finite (181 # 2)) (js " pasta ")
       (initialWorld []) = (Throw (js "Invalid time value"), w') /\
     timers w' = List.filter (other_label (trim (js " pasta "))) (timers (initialWorld []))).
Proof.
  apply (timers_setTimer_replaces (example_env plain_answer) (181 # 2) (js " pasta ")
           (initialWorld [])).
  - reflexivity.
  - constructor.
Defined.

(** ** Tokens and the likeness of steps *)

Lemma Forall_trimStart (Q : ascii -> Prop) s : Forall Q s -> Forall Q (trimStart s).
Proof.
  induction 1 as [|c s Hc Hs IH]; [constructor|]. cbn [trimStart].
  destruct (is_space c); [exact IH|]. constructor; assumption.
Qed.

Lemma Forall_trim (Q : ascii -> Prop) s : Forall Q s -> Forall Q (trim s).
Proof.
  intros H. unfold trim, trimEnd. apply Forall_rev, Forall_trimStart, Forall_rev,
    Forall_trimStart, H.
Qed.

Lemma drop_end_spec (Q : ascii -> Prop) n s :
  Forall Q s -> n + 3 <= length s ->
  3 <= length (drop_end n s) /\ Forall Q (drop_end n s).
Proof.
  intros H Hn. unfold drop_end. split.
  - rewrite length_take. lia.
  - apply Forall_take. exact H.
Qed.

Lemma normalizeToken_spec token :
  Forall lower_alnum token ->
  normalizeToken token = [] \/
  (3 <= length (normalizeToken token) /\ Forall lower_alnum (normalizeToken token)).
Proof.
  intros H. apply Forall_trim in H. unfold normalizeToken.
  set (n := trim token) in *. clearbody n.
  destruct (length n <=? 2) eqn:E2; [left; reflexivity|]. apply Nat.leb_gt in E2. right.
  destruct (endsWithStr n (js "ing") && (5 <? length n)) eqn:E5.
  { apply andb_true_iff in E5 as [_ E5]. apply Nat.ltb_lt in E5.
    apply drop_end_spec; [exact H|lia]. }
  destruct (endsWithStr n (js "ed") && (4 <? length n)) eqn:E4.
  { apply andb_true_iff in E4 as [_ E4]. apply Nat.ltb_lt in E4.
    apply drop_end_spec; [exact H|lia]. }
  destruct (endsWithStr n (js "es") && (4 <? length n)) eqn:E4'.
  { apply andb_true_iff in E4' as [_ E4']. apply Nat.ltb_lt in E4'.
    apply drop_end_spec; [exact H|lia]. }
  destruct (endsWithStr n (js "s") && (3 <? length n)) eqn:E3.
  { apply andb_true_iff in E3 as [_ E3]. apply Nat.ltb_lt in E3.
    apply drop_end_spec; [exact H|lia]. }
  split; [lia|exact H].
Qed.

Lemma tokenize_loop_spec raw token :
  Forall (Forall lower_alnum) raw -> In token (tokenize_loop raw) ->
  3 <= length token /\ Forall lower_alnum token /\ token ∉ STOPWORDS.
Proof.
  induction 1 as [|r raw Hr Hraw IH]; [intros []|]. cbn [tokenize_loop].
  destruct (truthy (normalizeToken r)) eqn:Ht; cbn [negb orb]; [|exact IH].
  case_bool_decide as Hs; [exact IH|]. intros [<-|Hin]; [|exact (IH Hin)].
  destruct (normalizeToken_spec r Hr) as [E|[H1 H2]].
  - rewrite E in Ht. discriminate.
  - auto.
Qed.

(** X20. The tokens of a text, on which the likeness of two steps is counted,
    have three characters or more, all of them lower-case letters or digits,
    and none is a stop word. *)
Theorem tokenize_tokens t token :
  In token (tokenize t) ->
  3 <= length token /\ Forall lower_alnum token /\ token ∉ STOPWORDS.
Proof.
  unfold tokenize, split_runs. apply tokenize_loop_spec.
  apply List.Forall_forall. intros w Hw. unfold filterBoolean in Hw.
  apply filter_In in Hw as [Hw _].
  pose proof (split_go_pieces (fun c => negb (is_lower_alnum c)) true [] false
                (toLowerCase t) ltac:(constructor)) as H.
  rewrite List.Forall_forall in H. specialize (H w Hw).
  eapply Forall_impl; [exact H|]. cbn. intros c Hc. unfold lower_alnum.
  destruct (is_lower_alnum c); [reflexivity|discriminate].
Qed.

Lemma tokenize_tokens_witness :
  3 <= length (js "whisk") /\ Forall lower_alnum (js "whisk") /\ js "whisk" ∉ STOPWORDS.
Proof.
  apply (tokenize_tokens (js "Whisking the eggs") (js "whisk")).
  vm_compute. auto.
Defined.

Lemma eqb_sym s t : eqb s t = eqb t s.
Proof.
  destruct (eqb t s) eqn:E.
  - apply eqb_true in E. subst. apply eqb_refl.
  - apply eqb_false. apply eqb_false in E. congruence.
Qed.

Lemma ratio_le_one a b : 0 < b -> a <= b -> (ratio a b <= 1)%Q.
Proof.
  intros Hb Hab. unfold ratio. apply Qle_shift_div_r.
  - change 0%Q with (inject_Z 0). rewrite <- Zlt_Qlt. lia.
  - rewrite Qmult_1_l. rewrite <- Zle_Qle. lia.
Qed.

Lemma tokenOverlap_sym left right : tokenOverlap left right = tokenOverlap right left.
Proof.
  unfold tokenOverlap.
  set (L := list_to_set (tokenize left) : gset (list ascii)).
  set (R := list_to_set (tokenize right) : gset (list ascii)).
  clearbody L R. rewrite orb_comm. destruct ((size R =? 0) || (size L =? 0)); [reflexivity|].
  rewrite Nat.min_comm. f_equal. f_equal.
  apply set_eq. intros x. rewrite !elem_of_filter. tauto.
Qed.

(** X21. The likeness of two steps does not depend on which is the current one
    and which the proposed one: the share of common tokens is the same both
    ways and lies between 0 and 1, and [isSameStep] gives the same answer
    both ways. *)
Theorem step_likeness_symmetric left right :
  tokenOverlap left right = tokenOverlap right left /\
  (0 <= tokenOverlap left right)%Q /\ (tokenOverlap left right <= 1)%Q /\
  isSameStep left right = isSameStep right left.
Proof.
  split; [apply tokenOverlap_sym|]. split; [|split].
  - unfold tokenOverlap. destruct (_ || _); [apply Qle_refl|apply ratio_nonneg].
  - unfold tokenOverlap.
    set (L := list_to_set (tokenize left) : gset (list ascii)).
    set (R := list_to_set (tokenize right) : gset (list ascii)).
    clearbody L R.
    destruct (size L =? 0) eqn:EL; [discriminate|].
    destruct (size R =? 0) eqn:ER; [discriminate|]. cbn [orb].
    apply Nat.eqb_neq in EL, ER. apply ratio_le_one; [lia|].
    apply Nat.min_glb.
    + apply subseteq_size. intros x Hx. apply elem_of_filter in Hx. tauto.
    + apply subseteq_size. intros x Hx. apply elem_of_filter in Hx. tauto.
  - unfold isSameStep. rewrite orb_comm.
    destruct (negb (truthy (normalizeStepKey right)) || negb (truthy (normalizeStepKey left)));
      [reflexivity|].
    rewrite eqb_sym, tokenOverlap_sym. reflexivity.
Qed.

(** ** The user's confirmation *)

Lemma publishState_same st sv : session_same sv (publishState st sv).
Proof. unfold session_same. auto. Qed.

Lemma session_same_trans sv1 sv2 sv3 :
  session_same sv1 sv2 -> session_same sv2 sv3 -> session_same sv1 sv3.
Proof. unfold session_same. intuition congruence. Qed.

(** X22. What the user says never takes a confirmation back. When a message
    arrives in a session already marked as confirmed, then at the end of its
    handler (the marks set from the message and the assistant's turn that
    answers it, whatever the message says, a denial included, and whatever
    tools the model calls) the session is still confirmed, with the catalog,
    the dish and the stored mark as they were, or the confirmation was used
    up by a save: the session is marked as stored and the catalog holds an
    entry under its key. *)
Theorem user_message_keeps_confirmation env body w :
  completionConfirmedForSession (server w) = true ->
  truthy (trim body) = true ->
  exists r w',
    postUserMessage env body w = Some (r, w') /\
    ((completionConfirmedForSession (server w') = true /\
      session_same (server w) (server w')) \/
     session_saved (server w) (server w')).
Proof.
  intros Hc Hm. unfold postUserMessage, onUserMessage. rewrite Hm. cbn [negb].
  set (sv1 := {| overlay := _ |}).
  assert (session_same (server w) sv1) as H1.
  { subst sv1. unfold session_same. cbn [recipes activeDishKey
      completionConfirmedForSession recipeStoredForSession]. rewrite Hc.
    destruct (userConfirmedCompletion _ _ _); auto. }
  clearbody sv1.
  set (w1 := on_server (fun _ => sv1) w).
  assert (server w1 = sv1) as Hw1 by reflexivity. clearbody w1.
  pose proof (keeps_handleUserMessage env True I (trim body) w1) as Hk.
  apply session_kept_server in Hk. rewrite Hw1 in Hk.
  unfold mbind at 1. unfold M_bind at 1.
  destruct (handleUserMessage env (trim body) w1) as [[u|e] w2]; cbn [snd] in Hk.
  - eexists _, _. split; [reflexivity|]. unfold modify. cbn [snd fst on_server server].
    destruct Hk as [Hk|Hk].
    + left. assert (session_same (server w) (publishState (store w2) (server w2))) as Hs.
      { exact (session_same_trans _ _ _ (session_same_trans _ _ _ H1 Hk)
                 (publishState_same _ _)). }
      split; [|exact Hs]. destruct Hs as (_ & _ & -> & _). exact Hc.
    + right. apply (session_saved_before _ _ _ (session_saved_after _ _ _ H1 Hk)).
      apply publishState_same.
  - eexists _, _. split; [reflexivity|].
    destruct Hk as [Hk|Hk].
    + left. pose proof (session_same_trans _ _ _ H1 Hk) as Hs.
      split; [|exact Hs]. destruct Hs as (_ & _ & -> & _). exact Hc.
    + right. exact (session_saved_after _ _ _ H1 Hk).
Qed.

(** The user denies; the model answers without a tool call: the session is
    still confirmed and the catalog is as it was. *)
Lemma user_message_keeps_confirmation_witness :
  exists r w',
    postUserMessage (example_env plain_answer) (js "it is not done") banana_world
    = Some (r, w') /\
    completionConfirmedForSession (server w') = true /\
    recipes (server w') = recipes banana_confirmed.
Proof.
  destruct (user_message_keeps_confirmation (example_env plain_answer)
              (js "it is not done") banana_world eq_refl eq_refl)
    as (r & w' & E & [[Hc (Hr & _)]|(_ & _ & _ & Hc & _)]).
  - exists r, w'. auto.
  - exfalso. vm_compute in E. injection E as _ <-. discriminate Hc.
Defined.

(** ** The recipe file *)

Lemma round_inject_Z z : round (inject_Z z) = z.
Proof.
  unfold round.
  assert (z <= Qfloor (inject_Z z + (1 # 2)))%Z as H1.
  { rewrite <- (Qfloor_Z z) at 1. apply Qfloor_resp_le.
    rewrite <- (Qplus_0_r (inject_Z z)) at 1. apply Qplus_le_r. discriminate. }
  assert (Qfloor (inject_Z z + (1 # 2)) < z + 1)%Z as H2.
  { rewrite Zlt_Qlt. eapply Qle_lt_trans; [apply Qfloor_le|].
    rewrite inject_Z_plus. apply Qplus_lt_r. reflexivity. }
  lia.
Qed.

Lemma normalizeRecipeItem_written Date_parse toISOString nowMs r :
  well_formed Date_parse toISOString r ->
  normalizeRecipeItem Date_parse toISOString nowMs (written_recipe r) = Some (as_read r).
Proof.
  intros (Hd & Hd' & Hk & Hk' & Hr & Hr' & Hc & (ms & Hp & Hi) & Ht).
  unfold normalizeRecipeItem, written_recipe. cbn [record_fields].
  set (fields := [(js "dish", JStr (dish r)); _; _; _; _]).
  assert (get fields (js "dish") = Some (JStr (dish r))) as -> by reflexivity.
  assert (get fields (js "dishKey") = None) as -> by reflexivity.
  assert (get fields (js "dish_key") = Some (JStr (dishKey r))) as -> by reflexivity.
  assert (get fields (js "recipe") = Some (JStr (recipe r))) as -> by reflexivity.
  assert (get fields (js "completedAt") = None) as -> by reflexivity.
  assert (get fields (js "completed_at") = Some (JStr (completedAt r))) as -> by reflexivity.
  assert (get fields (js "timesCooked") = None) as -> by reflexivity.
  assert (get fields (js "times_cooked") = Some (num_of_Z (timesCooked r))) as ->
    by reflexivity.
  clear fields. cbn [string_else number_else num_of_Z]. cbv zeta.
  unfold orElse. rewrite Hk', Hd, Hr, (normalizeDishKey_fixed _ Hk), Hd', Hk', Hr', Hc, Hp, Hi.
  cbn [negb orb atLeastOne]. rewrite round_inject_Z. rewrite Z.max_r by exact Ht.
  reflexivity.
Qed.

Lemma saveCompletedRecipe_well_formed Date_parse toISOString lc recipes now d r file saved :
  Forall (well_formed Date_parse toISOString) recipes ->
  truthy now = true ->
  (exists ms, Date_parse now = Some ms /\ toISOString ms = now) ->
  truthy (normalizeDishKey d) = true ->
  saveCompletedRecipe lc recipes now d r = Ok (file, saved) ->
  Forall (well_formed Date_parse toISOString) file.
Proof.
  intros Hwf Hnow Hiso Hkey. unfold saveCompletedRecipe.
  destruct (truthy (trim d)) eqn:Hd; [|discriminate].
  destruct (truthy (trim r)) eqn:Hr; [|discriminate]. cbn [negb orb].
  rewrite normalizeDishKey_trim.
  assert (forall n, (1 <= n)%Z ->
    well_formed Date_parse toISOString
      {| dish := trim d; dishKey := normalizeDishKey d; recipe := trim r;
         completedAt := now; timesCooked := n |}) as Hsaved.
  { intros n Hn. unfold well_formed. cbn [dish dishKey recipe completedAt timesCooked].
    rewrite !trim_idem. split; [reflexivity|]. split; [exact Hd|].
    split; [apply normalizeDishKey_form|]. split; [exact Hkey|].
    split; [reflexivity|]. split; [exact Hr|]. auto. }
  pose proof (findIndex_find (has_key (normalizeDishKey d)) recipes) as Hfi.
  destruct (findIndex _ recipes) as [i|].
  - destruct Hfi as (old & Hi & _). rewrite Hi. intros [= <- _].
    rewrite sort_by_dish_perm. apply Forall_insert; [exact Hwf|].
    apply Hsaved. rewrite list.Forall_forall in Hwf.
    assert (well_formed Date_parse toISOString old) as Hold.
    { apply Hwf. apply list_elem_of_lookup. eauto. }
    destruct Hold as (_ & _ & _ & _ & _ & _ & _ & _ & Ht). lia.
  - intros [= <- _]. rewrite sort_by_dish_perm. apply Forall_app. split; [exact Hwf|].
    constructor; [|constructor]. apply Hsaved. lia.
Qed.

(** X23. The store reads back what it wrote. A catalog of entries as the store
    writes them is read from the written file as it is: no entry is dropped,
    none is changed, the order is kept; and a save with a non-empty key
    leaves such a catalog, so that the same holds after it. *)
Theorem recipe_file_round_trip Date_parse toISOString nowMs v recipes :
  Forall (well_formed Date_parse toISOString) recipes ->
  file_recipes (normalizeRecipeFile Date_parse toISOString nowMs
                  (writeFile_payload v recipes))
  = map as_read recipes /\
  forall lc now d r file saved,
    truthy now = true ->
    (exists ms, Date_parse now = Some ms /\ toISOString ms = now) ->
    truthy (normalizeDishKey d) = true ->
    saveCompletedRecipe lc recipes now d r = Ok (file, saved) ->
    file_recipes (normalizeRecipeFile Date_parse toISOString nowMs
                    (writeFile_payload v file))
    = map as_read file.
Proof.
  assert (forall l, Forall (well_formed Date_parse toISOString) l ->
    file_recipes (normalizeRecipeFile Date_parse toISOString nowMs (writeFile_payload v l))
    = map as_read l) as Hread.
  { intros l Hl. unfold normalizeRecipeFile, writeFile_payload. cbn [record_fields].
    set (fields := [(js "version", _); _]).
    assert (get fields (js "recipes") = Some (JArr (map written_recipe l))) as ->
      by reflexivity.
    cbn [file_recipes]. clear fields.
    induction Hl as [|x l Hx Hl IH]; [reflexivity|].
    cbn [map omap list_omap]. change (list_omap ?f ?l) with (omap f l).
    rewrite (normalizeRecipeItem_written _ _ _ _ Hx), IH. reflexivity. }
  intros Hwf. split; [exact (Hread recipes Hwf)|].
  intros lc now d r file saved Hnow Hiso Hkey Hsave. apply Hread.
  exact (saveCompletedRecipe_well_formed _ _ _ _ _ _ _ _ _ Hwf Hnow Hiso Hkey Hsave).
Qed.

Lemma recipe_file_round_trip_witness :
  file_recipes (normalizeRecipeFile parse_epoch (fun _ => epoch) 0
                  (writeFile_payload (Finite 1) [pancakes_at_epoch]))
  = map as_read [pancakes_at_epoch] /\
  forall lc now d r file saved,
    truthy now = true ->
    (exists ms, parse_epoch now = Some ms /\ (fun _ : Z => epoch) ms = now) ->
    truthy (normalizeDishKey d) = true ->
    saveCompletedRecipe lc [pancakes_at_epoch] now d r = Ok (file, saved) ->
    file_recipes (normalizeRecipeFile parse_epoch (fun _ => epoch) 0
                    (writeFile_payload (Finite 1) file))
    = map as_read file.
Proof.
  apply (recipe_file_round_trip parse_epoch (fun _ => epoch) 0 (Finite 1)
           [pancakes_at_epoch]).
  constructor; [|constructor]. unfold well_formed.
  split; [reflexivity|]. split; [reflexivity|].
  split; [split; [vm_compute; tauto|split; intros c [= <-]; reflexivity]|].
  split; [reflexivity|]. split; [reflexivity|]. split; [reflexivity|].
  split; [reflexivity|]. split; [exists 0%Z; split; reflexivity|].
  vm_compute. discriminate.
Defined.

(** X24. Whatever the file holds, every entry read from it has a trimmed dish and
    recipe and a key in key form, none of them empty; its count of cooks is a
    whole number from 1 on, unless the file gives [NaN] or infinity, which
    the reading lets through. *)
Theorem normalizeRecipeFile_entries Date_parse toISOString nowMs raw e :
  In e (file_recipes (normalizeRecipeFile Date_parse toISOString nowMs raw)) ->
  trim (read_dish e) = read_dish e /\ truthy (read_dish e) = true /\
  key_form (read_dishKey e) /\ truthy (read_dishKey e) = true /\
  trim (read_recipe e) = read_recipe e /\ truthy (read_recipe e) = true /\
  count_read (read_timesCooked e).
Proof.
  unfold normalizeRecipeFile.
  destruct (record_fields raw) as [fields|]; [|intros []]. cbn [file_recipes].
  intros He. apply list_elem_of_In, list_elem_of_omap in He as (item & _ & He).
  revert He. unfold normalizeRecipeItem.
  destruct (record_fields item) as [f|]; [|discriminate]. cbv zeta.
  set (d := match get f (js "dish") with Some (JStr s) => trim s | _ => [] end).
  set (r := match get f (js "recipe") with Some (JStr s) => trim s | _ => [] end).
  set (k := normalizeDishKey _).
  set (n := number_else _ _).
  assert (trim d = d) as Hd.
  { unfold d. destruct (get f (js "dish")) as [[]|]; try reflexivity. apply trim_idem. }
  assert (trim r = r) as Hr.
  { unfold r. destruct (get f (js "recipe")) as [[]|]; try reflexivity. apply trim_idem. }
  assert (key_form k) as Hk by apply normalizeDishKey_form.
  clearbody d r k n.
  destruct (truthy d) eqn:Td; [|discriminate].
  destruct (truthy k) eqn:Tk; [|discriminate].
  destruct (truthy r) eqn:Tr; [|discriminate]. cbn [negb orb].
  intros [= <-]. cbn [read_dish read_dishKey read_recipe read_timesCooked].
  do 6 (split; [assumption|]).
  unfold count_read. destruct n as [|q| |]; cbn [atLeastOne]; auto.
  - left. exists (Z.max 1 (round q)). split; [lia|reflexivity].
  - left. exists 1%Z. split; [lia|reflexivity].
Qed.

Lemma normalizeRecipeFile_entries_witness :
  trim (read_dish (as_read pancakes_at_epoch)) = read_dish (as_read pancakes_at_epoch) /\
  truthy (read_dish (as_read pancakes_at_epoch)) = true /\
  key_form (read_dishKey (as_read pancakes_at_epoch)) /\
  truthy (read_dishKey (as_read pancakes_at_epoch)) = true /\
  trim (read_recipe (as_read pancakes_at_epoch)) = read_recipe (as_read pancakes_at_epoch) /\
  truthy (read_recipe (as_read pancakes_at_epoch)) = true /\
  count_read (read_timesCooked (as_read pancakes_at_epoch)).
Proof.
  apply (normalizeRecipeFile_entries parse_epoch (fun _ => epoch) 0
           (writeFile_payload (Finite 1) [pancakes_at_epoch])).
  vm_compute. auto.
Defined.

(** ** Speaking about the current step *)

Lemma messageMatchesCurrentStep_current a cur :
  currentStep a = Some cur -> messageMatchesCurrentStep cur a = true.
Proof.
  intros Hc. unfold messageMatchesCurrentStep. rewrite Hc.
  destruct (negb (truthy_opt (Some cur))); [reflexivity|].
  cbn [from_option Datatypes.id].
  destruct (Qle_bool (25 # 100) (tokenOverlap cur cur)); [reflexivity|].
  destruct (negb (truthy (normalizeStepKey cur)) || negb (truthy (normalizeStepKey cur)));
    [reflexivity|].
  rewrite includes_refl. reflexivity.
Qed.

(** X25. A message that says the current step is never blocked as talk about
    a later step: when the gate holds it back, the reason is the pause
    between routine messages, the frame has not shown the step complete, and
    less than 45 seconds have passed since the last routine message. *)
Theorem current_step_speech_only_paced now a cur reason :
  currentStep a = Some cur ->
  getBlockedSpeakReason now cur a = Some reason ->
  reason = js "step_waiting_repeat_suppressed" /\
  frameAllowsStepAdvance a = false /\
  (now - lastRoutineSpeakAtMs a < 45000)%Z /\
  isUrgentMessage cur = false /\ isQuestion cur = false.
Proof.
  intros Hc. unfold getBlockedSpeakReason.
  rewrite (messageMatchesCurrentStep_current a cur Hc).
  destruct (frameAllowsStepAdvance a); [rewrite orb_true_r; discriminate|].
  destruct (negb (truthy_opt (currentStep a))); [discriminate|]. cbn [orb negb].
  destruct (isUrgentMessage cur); [discriminate|].
  destruct (isQuestion cur); [discriminate|]. cbn [orb].
  destruct (now - lastRoutineSpeakAtMs a <? ROUTINE_SPEAK_MIN_GAP_MS)%Z eqn:E;
    [|discriminate].
  intros [= <-]. apply Z.ltb_lt in E. unfold ROUTINE_SPEAK_MIN_GAP_MS in E. auto.
Qed.

Lemma current_step_speech_only_paced_witness :
  js "step_waiting_repeat_suppressed" = js "step_waiting_repeat_suppressed" /\
  frameAllowsStepAdvance (eggs_locked false) = false /\
  (1000 - lastRoutineSpeakAtMs (eggs_locked false) < 45000)%Z /\
  isUrgentMessage (js "Grab 2 eggs.") = false /\ isQuestion (js "Grab 2 eggs.") = false.
Proof.
  apply (current_step_speech_only_paced 1000 (eggs_locked false) (js "Grab 2 eggs.")
           (js "step_waiting_repeat_suppressed")).
  - reflexivity.
  - vm_compute. reflexivity.
Defined.
